(** * SLM-DB: PersistentSkiplist and Index

    A shallow embedding of [db/persistent_skiplist.h] and of the Index
    implementation (constructor, [Get], [Insert], [Update], [AsyncInsert],
    [Runner], [AddQueue]), with the properties of the specification settled
    against it.

    Conventions.
    - [size_t] and [uint32_t] values are [Z] with the wrap-around written out.
    - A [Node*] is [option nat]: [None] is [NULL], [Some a] is the address of
      the [a]-th node ever allocated.  The heap is the list of all nodes
      allocated so far; [new Node] appends.
    - A [std::vector<Node*>] is a [list ptr], read with stdpp's [!!] and
      written with [<[ _ := _ ]>]; an index out of range is undefined
      behaviour in C++ and a [Fault] here.
    - Code runs in a state-and-fault monad; pointer-chasing [while] loops take
      fuel, counted [for] loops recurse on their trip count. *)

From Stdlib Require Import ZArith Lia List Bool String Ascii.
From Stdlib Require Import Sorted Permutation.
From stdpp Require Import base list.
Import ListNotations.
Local Open Scope Z_scope.

(** ** Machine integers *)

Definition SIZE_MOD : Z := 2 ^ 64.
Definition U32_MOD : Z := 2 ^ 32.
Definition wrap_size (z : Z) : Z := z mod SIZE_MOD.

(** ** Faults and results *)

Inductive Fault : Type :=
| NullDeref      (* dereference of NULL *)
| OutOfBounds    (* vector index out of range, or a dangling address *)
| AssertFail     (* assert(...) violated *)
| OutOfFuel.     (* the loop budget of the model was exhausted *)

Inductive Res (A : Type) : Type :=
| Ok (a : A)
| Err (f : Fault).
Arguments Ok {A} a.
Arguments Err {A} f.

Module Skiplist.

Definition ptr : Type := option nat.
Definition NULL : ptr := None.

Definition ptr_eqb (p q : ptr) : bool :=
  match p, q with
  | None, None => true
  | Some a, Some b => Nat.eqb a b
  | _, _ => false
  end.

(** [struct PersistentSkiplist::Node] *)
Record Node : Type := mkNode {
  key : string;
  value : string;
  level : Z;
  next : list ptr;
  prev : list ptr
}.

(** [Node::Node(k, v, level)]: both vectors get [level] NULL entries. *)
Definition Node_new (k v : string) (lvl : Z) : Node :=
  {| key := k; value := v; level := lvl;
     next := replicate (Z.to_nat lvl) NULL;
     prev := replicate (Z.to_nat lvl) NULL |}.

(** [Node::GetSize] *)
Definition GetSize (n : Node) : Z :=
  wrap_size (Z.of_nat (String.length (key n)) + Z.of_nat (String.length (value n))).

Definition max_level : Z := 32.

(** [RAND_MAX] of the C library the store is built against (glibc). *)
Definition RAND_MAX : Z := 2147483647.

(** What a comparator call was given: the key stored in a node, or the key
    argument of the running operation. *)
Inductive Operand : Type :=
| KeyOf (p : nat)
| ArgKey.

(** Length argument of a flush of a node address: [sizeof(Node)] or
    [sizeof(void* )]. *)
Inductive FlushLen : Type :=
| SizeofNode
| SizeofPtr.

(** Observable effects of the skiplist code, in program order. *)
Inductive Event : Type :=
| EvCompare (a b : Operand)          (* comparator->Compare(a, b) *)
| EvFlush (target : ptr) (len : FlushLen) (* clflush((char* )target, len) *)
| EvFlushKey (n : nat) (len : Z)     (* clflush(node->key.data(), len) *)
| EvFlushValue (n : nat) (len : Z)   (* clflush(node->value.data(), len) *)
| EvSrand.

(** The object together with the memory it lives in. *)
Record State : Type := mkState {
  heap : list Node;
  current_level : Z;
  current_size : Z;
  head : ptr;
  tail : ptr;
  rand_calls : nat;       (* number of rand() calls since srand *)
  log : list Event
}.

Definition M (A : Type) : Type := State -> Res (A * State).

Definition ret {A} (a : A) : M A := fun s => Ok (a, s).
Definition bind {A B} (m : M A) (k : A -> M B) : M B :=
  fun s => match m s with
           | Ok (a, s') => k a s'
           | Err f => Err f
           end.
Definition fail {A} (f : Fault) : M A := fun _ => Err f.
Definition gets {A} (f : State -> A) : M A := fun s => Ok (f s, s).
Definition modify (f : State -> State) : M unit := fun s => Ok (tt, f s).

Declare Scope skip_scope.
Delimit Scope skip_scope with skip.
Notation "'let*' x ':=' m 'in' k" := (bind m (fun x => k))
  (at level 10, x name, m at level 200, k at level 200) : skip_scope.
Local Open Scope skip_scope.

Definition set_heap (h : list Node) (s : State) : State :=
  {| heap := h; current_level := current_level s; current_size := current_size s;
     head := head s; tail := tail s; rand_calls := rand_calls s; log := log s |}.
Definition set_current_level (z : Z) (s : State) : State :=
  {| heap := heap s; current_level := z; current_size := current_size s;
     head := head s; tail := tail s; rand_calls := rand_calls s; log := log s |}.
Definition set_current_size (z : Z) (s : State) : State :=
  {| heap := heap s; current_level := current_level s; current_size := z;
     head := head s; tail := tail s; rand_calls := rand_calls s; log := log s |}.
Definition set_head (p : ptr) (s : State) : State :=
  {| heap := heap s; current_level := current_level s; current_size := current_size s;
     head := p; tail := tail s; rand_calls := rand_calls s; log := log s |}.
Definition set_tail (p : ptr) (s : State) : State :=
  {| heap := heap s; current_level := current_level s; current_size := current_size s;
     head := head s; tail := p; rand_calls := rand_calls s; log := log s |}.
Definition set_rand_calls (n : nat) (s : State) : State :=
  {| heap := heap s; current_level := current_level s; current_size := current_size s;
     head := head s; tail := tail s; rand_calls := n; log := log s |}.
Definition add_log (e : Event) (s : State) : State :=
  {| heap := heap s; current_level := current_level s; current_size := current_size s;
     head := head s; tail := tail s; rand_calls := rand_calls s; log := log s ++ [e] |}.

Definition emit (e : Event) : M unit := modify (add_log e).

(** ** Memory access *)

(** [*p] *)
Definition deref (p : ptr) : M (nat * Node) :=
  fun s => match p with
           | None => Err NullDeref
           | Some a => match heap s !! a with
                       | Some n => Ok ((a, n), s)
                       | None => Err OutOfBounds
                       end
           end.

(** [v[i]] on a [std::vector<Node*>]: defined for [0 <= i < v.size()] only. *)
Definition in_range (v : list ptr) (i : Z) : bool :=
  (0 <=? i) && (i <? Z.of_nat (List.length v)).

Definition vec_get (v : list ptr) (i : Z) : option ptr :=
  if in_range v i then v !! Z.to_nat i else None.

Definition vec_set (v : list ptr) (i : Z) (q : ptr) : option (list ptr) :=
  if in_range v i then Some (<[Z.to_nat i := q]> v) else None.

Inductive Dir : Type := Fwd | Bwd.

Definition links (d : Dir) (n : Node) : list ptr :=
  match d with Fwd => next n | Bwd => prev n end.

Definition with_links (d : Dir) (v : list ptr) (n : Node) : Node :=
  match d with
  | Fwd => {| key := key n; value := value n; level := level n; next := v; prev := prev n |}
  | Bwd => {| key := key n; value := value n; level := level n; next := next n; prev := v |}
  end.

(** [p->next[i]] ([Fwd]) or [p->prev[i]] ([Bwd]) as an rvalue *)
Definition load (d : Dir) (p : ptr) (i : Z) : M ptr :=
  let* an := deref p in
  match vec_get (links d (snd an)) i with
  | Some q => ret q
  | None => fail OutOfBounds
  end.

(** [p->next[i] = q] or [p->prev[i] = q] *)
Definition store (d : Dir) (p : ptr) (i : Z) (q : ptr) : M unit :=
  let* an := deref p in
  match vec_set (links d (snd an)) i q with
  | Some v => modify (fun s => set_heap (<[fst an := with_links d v (snd an)]> (heap s)) s)
  | None => fail OutOfBounds
  end.

(** [p->level] *)
Definition load_level (p : ptr) : M Z :=
  let* an := deref p in ret (level (snd an)).

(** [p->key] *)
Definition load_key (p : ptr) : M string :=
  let* an := deref p in ret (key (snd an)).

(** [new Node(k, v, lvl)] *)
Definition alloc (k v : string) (lvl : Z) : M ptr :=
  fun s => Ok (Some (List.length (heap s)),
               set_heap (heap s ++ [Node_new k v lvl]) s).

(** A counted loop [for (i = lo; i < lo + n; i++) a = body(i, a)]. *)
Fixpoint for_range {A} (n : nat) (i : Z) (body : Z -> A -> M A) (a : A) : M A :=
  match n with
  | O => ret a
  | S n' => let* a' := body i a in for_range n' (i + 1) body a'
  end.

(** [while (p->level <= bound) p = p->dir[idx];] *)
Fixpoint skip_short (fuel : nat) (d : Dir) (bound idx : Z) (p : ptr) : M ptr :=
  match fuel with
  | O => fail OutOfFuel
  | S fuel' =>
      let* lvl := load_level p in
      if (lvl <=? bound) then
        let* q := load d p idx in skip_short fuel' d bound idx q
      else ret p
  end.

Section WithEnvironment.

(** The comparator ([Comparator::Compare], negative / zero / positive) and the
    output sequence of the C library's [rand()] after seeding. *)
Variable cmp : string -> string -> Z.
Variable rand : nat -> Z.

(** [comparator->Compare(p->key, key)] for a node [p] and the argument key *)
Definition compare_node_arg (p : ptr) (k : string) : M Z :=
  let* an := deref p in
  let* _ := emit (EvCompare (KeyOf (fst an)) ArgKey) in
  ret (cmp (key (snd an)) k).

(** [comparator->Compare(key, p->key)] *)
Definition compare_arg_node (k : string) (p : ptr) : M Z :=
  let* an := deref p in
  let* _ := emit (EvCompare ArgKey (KeyOf (fst an))) in
  ret (cmp k (key (snd an))).

(** [comparator->Compare(p->key, q->key)] *)
Definition compare_nodes (p q : ptr) : M Z :=
  let* an := deref p in
  let* bn := deref q in
  let* _ := emit (EvCompare (KeyOf (fst an)) (KeyOf (fst bn))) in
  ret (cmp (key (snd an)) (key (snd bn))).

(** [rand()] *)
Definition call_rand : M Z :=
  fun s => Ok (rand (rand_calls s), set_rand_calls (S (rand_calls s)) s).

(** [PersistentSkiplist::RandomLevel] *)
Definition level_probability : Z := RAND_MAX / 4.

Fixpoint RandomLevel_loop (fuel : nat) (result : Z) : M Z :=
  match fuel with
  | O => fail OutOfFuel
  | S fuel' =>
      let* r := call_rand in
      if (r <? level_probability) && (result <? max_level)
      then RandomLevel_loop fuel' (wrap_size (result + 1))
      else ret result
  end.

Definition RandomLevel (fuel : nat) : M Z := RandomLevel_loop fuel 1.

(** [PersistentSkiplist::MakeNode] *)
Definition MakeNode (k v : string) (lvl : Z) : M ptr :=
  let* node := alloc k v lvl in
  match node with
  | Some a =>
      let* _ := emit (EvFlushKey a (Z.of_nat (String.length k))) in
      let* _ := emit (EvFlushValue a (Z.of_nat (String.length v))) in
      ret node
  | None => fail NullDeref
  end.

(** The state a constructor starts from: the memory as it is, the members
    not yet initialised. *)
Definition raw_object (h : list Node) : State :=
  {| heap := h; current_level := 0; current_size := 0;
     head := NULL; tail := NULL; rand_calls := O; log := [] |}.

(** [PersistentSkiplist::PersistentSkiplist(const Comparator* cmp)] *)
Definition PersistentSkiplist_empty : M unit :=
  let* _ := modify (set_current_level 0) in
  let* h := MakeNode EmptyString EmptyString max_level in
  let* _ := modify (set_head h) in
  let* t := MakeNode EmptyString EmptyString max_level in
  let* _ := modify (set_tail t) in
  let* _ := for_range (Z.to_nat max_level) 0
    (fun i (_ : unit) =>
       let* hd := gets head in let* tl := gets tail in
       let* _ := store Fwd hd i tl in
       store Bwd tl i hd) tt in
  let* hd := gets head in
  let* first := load Fwd hd 0 in
  let* _ := emit (EvFlush first SizeofNode) in
  let* _ := emit EvSrand in
  let* _ := modify (set_rand_calls O) in
  modify (set_current_size 0).

(** [PersistentSkiplist::FindGreaterOrEqual]: the inner
    [while (node->next[i] != tail && Compare(node->next[i]->key, key) < 0)] *)
Fixpoint advance (fuel : nat) (i : Z) (k : string) (node : ptr) : M ptr :=
  match fuel with
  | O => fail OutOfFuel
  | S fuel' =>
      let* nx := load Fwd node i in
      let* tl := gets tail in
      if ptr_eqb nx tl then ret node
      else
        let* c := compare_node_arg nx k in
        if (c <? 0) then advance fuel' i k nx else ret node
  end.

(** The outer [for (auto i = current_level; i-- > 0;)], [n] levels to go. *)
Fixpoint descend (fuel : nat) (n : nat) (k : string) (node : ptr) : M ptr :=
  match n with
  | O => ret node
  | S i => let* node' := advance fuel (Z.of_nat i) k node in descend fuel i k node'
  end.

Definition FindGreaterOrEqual (fuel : nat) (k : string) : M ptr :=
  let* hd := gets head in
  let* cl := gets current_level in
  let* node := descend fuel (Z.to_nat cl) k hd in
  load Fwd node 0.

(** [PersistentSkiplist::Find] *)
Definition Find (fuel : nat) (k : string) : M ptr :=
  let* node := FindGreaterOrEqual fuel k in
  let* c := compare_arg_node k node in
  if (c =? 0) then ret node else ret NULL.

(** [PersistentSkiplist::Insert] *)
Definition Insert (fuel : nat) (k v : string) : M ptr :=
  let* node := FindGreaterOrEqual fuel k in
  let* lvl := RandomLevel fuel in
  let* prev_node := load Bwd node 0 in
  let* c := compare_node_arg node k in
  let* next_node := (if (c =? 0) then load Fwd node 0 else ret node) in
  let* new_node := alloc k v lvl in
  let* cl := gets current_level in
  let* _ := (if (lvl >? cl) then modify (set_current_level lvl) else ret tt) in
  let* _ := for_range (Z.to_nat lvl) 0
    (fun i (np : ptr * ptr) =>
       let* next_node := skip_short fuel Fwd i (i - 1) (fst np) in
       let* prev_node := skip_short fuel Bwd i (i - 1) (snd np) in
       let* _ := store Fwd new_node i next_node in
       let* _ := store Bwd next_node i new_node in
       let* _ := store Bwd new_node i prev_node in
       let* _ := store Fwd prev_node i new_node in
       let* _ := (if (i =? 0) then
          let* a := load Fwd new_node 0 in
          let* _ := emit (EvFlush a SizeofPtr) in
          let* b := load Fwd next_node 0 in
          emit (EvFlush b SizeofPtr)
        else ret tt) in
       ret (next_node, prev_node))
    (next_node, prev_node) in
  let* nn := deref new_node in
  let* sz := gets current_size in
  let* _ := modify (set_current_size (wrap_size (sz + GetSize (snd nn)))) in
  ret new_node.

(** [PersistentSkiplist::Erase]: the condition of the closing loop,
    [head->next[current_level] == tail && tail->prev[current_level] == head],
    with the short circuit of [&&]. *)
Definition top_level_empty : M bool :=
  let* hd := gets head in
  let* tl := gets tail in
  let* cl := gets current_level in
  let* a := load Fwd hd cl in
  if ptr_eqb a tl then
    let* b := load Bwd tl cl in ret (ptr_eqb b hd)
  else ret false.

(** [current_level--] on a [size_t] *)
Definition decrement_level : M unit :=
  let* cl := gets current_level in
  modify (set_current_level (wrap_size (cl - 1))).

(** [while (top level empty) current_level--;] *)
Fixpoint shrink (fuel : nat) : M unit :=
  match fuel with
  | O => fail OutOfFuel
  | S fuel' =>
      let* c := top_level_empty in
      if c then let* _ := decrement_level in shrink fuel' else ret tt
  end.

(** The unlinking [for (int level = 0; level < current_level; level++)] *)
Definition unlink (fuel : nat) (first last : ptr) : M unit :=
  let* left := load Bwd first 0 in
  let* right := load Fwd last 0 in
  let* cl := gets current_level in
  let* _ := for_range (Z.to_nat cl) 0
    (fun lv (lr : ptr * ptr) =>
       let* _ := store Fwd (fst lr) lv (snd lr) in
       let* _ := store Bwd (snd lr) lv (fst lr) in
       let* _ := (if (lv =? 0) then
          let* a := load Fwd (fst lr) 0 in emit (EvFlush a SizeofPtr)
        else ret tt) in
       let* left' := skip_short fuel Bwd (lv + 1) lv (fst lr) in
       let* right' := skip_short fuel Fwd (lv + 1) lv (snd lr) in
       ret (left', right'))
    (left, right) in
  ret tt.

Definition Erase (fuel : nat) (first last : ptr) : M unit :=
  let* _ := unlink fuel first last in
  shrink fuel.

(** [PersistentSkiplist::ApproximateMemoryUsage] *)
Definition ApproximateMemoryUsage : M Z := gets current_size.

(** [PersistentSkiplist::PersistentSkiplist(cmp, first, last)]: the loop
    [while (Compare(left->key, last->key) < 0 && Compare(first->key, right->key) < 0)] *)
Fixpoint adopt_loop (fuel : nat) (first last left right : ptr) : M unit :=
  match fuel with
  | O => fail OutOfFuel
  | S fuel' =>
      let* c1 := compare_nodes left last in
      if (c1 <? 0) then
        let* c2 := compare_nodes first right in
        if (c2 <? 0) then
          let* hd := gets head in
          let* tl := gets tail in
          let* cl := gets current_level in
          let* _ := store Fwd hd cl left in
          let* _ := store Bwd left cl hd in
          let* _ := store Bwd tl cl right in
          let* _ := store Fwd right cl tl in
          let* _ := (if (cl =? 0) then
                       let* a := load Fwd hd 0 in emit (EvFlush a SizeofPtr)
                     else ret tt) in
          let* _ := modify (set_current_level (wrap_size (cl + 1))) in
          let* cl' := gets current_level in
          let* left' := skip_short fuel Fwd cl' (cl' - 1) left in
          let* right' := skip_short fuel Bwd cl' (cl' - 1) right in
          adopt_loop fuel' first last left' right'
        else ret tt
      else ret tt
  end.

Definition PersistentSkiplist_adopt (fuel : nat) (first last : ptr) : M unit :=
  let* _ := PersistentSkiplist_empty in
  let* _ := modify (set_current_level 0) in
  adopt_loop fuel first last first last.

(** A client of the skiplist: a sequence of public calls. *)
Inductive Op : Type :=
| OpInsert (k v : string)
| OpErase (first last : ptr).

Fixpoint run_ops (fuel : nat) (ops : list Op) : M unit :=
  match ops with
  | [] => ret tt
  | OpInsert k v :: rest => let* _ := Insert fuel k v in run_ops fuel rest
  | OpErase a b :: rest => let* _ := Erase fuel a b in run_ops fuel rest
  end.

(** Start from the freshly constructed empty skiplist in an empty memory. *)
Definition from_empty (fuel : nat) (ops : list Op) : Res (unit * State) :=
  (let* _ := PersistentSkiplist_empty in run_ops fuel ops) (raw_object []).

End WithEnvironment.

(** ** Observations used by the statements *)

(** The nodes met walking [next[0]] from [p] (included) until [tail]
    (excluded); [None] if the walk leaves the heap or does not reach [tail]
    within [fuel] steps. *)
Fixpoint walk0 (fuel : nat) (h : list Node) (tl : ptr) (p : ptr) : option (list nat) :=
  match fuel with
  | O => None
  | S fuel' =>
      if ptr_eqb p tl then Some []
      else match p with
           | None => None
           | Some a =>
               match h !! a with
               | None => None
               | Some n =>
                   match vec_get (next n) 0 with
                   | None => None
                   | Some q => option_map (cons a) (walk0 fuel' h tl q)
                   end
               end
           end
  end.

(** The live non-sentinel nodes: the walk that starts at [head->next[0]]. *)
Definition live_nodes (fuel : nat) (s : State) : option (list nat) :=
  match head s with
  | None => None
  | Some a =>
      match heap s !! a with
      | None => None
      | Some n =>
          match vec_get (next n) 0 with
          | None => None
          | Some q => walk0 fuel (heap s) (tail s) q
          end
      end
  end.

Definition node_key (s : State) (a : nat) : string :=
  match heap s !! a with Some n => key n | None => EmptyString end.

Definition node_level (s : State) (a : nat) : Z :=
  match heap s !! a with Some n => level n | None => 0 end.

Definition node_bytes (s : State) (a : nat) : Z :=
  match heap s !! a with
  | Some n => Z.of_nat (String.length (key n)) + Z.of_nat (String.length (value n))
  | None => 0
  end.

Definition sumZ (l : list Z) : Z := fold_right Z.add 0 l.

(** Non-decreasing under a comparator. *)
Fixpoint nondecreasing (cmp : string -> string -> Z) (l : list string) : bool :=
  match l with
  | [] => true
  | a :: rest =>
      match rest with
      | [] => true
      | b :: _ => (cmp a b <=? 0) && nondecreasing cmp rest
      end
  end.

(** Total key and value bytes handed to [Insert] by a sequence of calls. *)
Fixpoint inserted_bytes (ops : list Op) : Z :=
  match ops with
  | [] => 0
  | OpInsert k v :: rest =>
      Z.of_nat (String.length k) + Z.of_nat (String.length v) + inserted_bytes rest
  | OpErase _ _ :: rest => inserted_bytes rest
  end.

(** ** A concrete environment for the runs below *)

(** A bytewise comparator: lexicographic order on the bytes. *)
Definition bytewise (a b : string) : Z :=
  match String.compare a b with
  | Eq => 0
  | Lt => -1
  | Gt => 1
  end.

(** A generator whose every draw is [RAND_MAX]: [RandomLevel] returns 1. *)
Definition rand_flat (_ : nat) : Z := RAND_MAX.

(** A generator whose first draw is 0 and every later one [RAND_MAX]: the
    first [RandomLevel] returns 2, the later ones 1. *)
Definition rand_tall_first (n : nat) : Z :=
  match n with O => 0 | S _ => RAND_MAX end.

(** ** Definitions used by the proofs *)

(** A piece of code leaves a property of the state alone. *)
Definition preserves {A} (P : State -> Prop) (m : M A) : Prop :=
  forall s a s', m s = Ok (a, s') -> P s -> P s'.

Definition size_is (c : Z) (s : State) : Prop := current_size s = c.

Definition holds_kv (a : nat) (k v : string) (s : State) : Prop :=
  exists n, heap s !! a = Some n /\ key n = k /\ value n = v.

(** [v[i .. i+n) := q] *)
Fixpoint fill (n i : nat) (q : ptr) (v : list ptr) : list ptr :=
  match n with
  | O => v
  | S n' => fill n' (S i) q (<[i := q]> v)
  end.

(** A sentinel with the given link vectors. *)
Definition sentinel (nx pv : list ptr) : Node :=
  {| key := EmptyString; value := EmptyString; level := max_level; next := nx; prev := pv |}.

(** The state left by the constructor of the empty skiplist run in a memory
    that already holds [h]: two fresh sentinels linked to each other at all
    [max_level] levels. *)
Definition empty_over (h : list Node) : State :=
  let a := List.length h in
  let b := S (List.length h) in
  {| heap := h ++ [sentinel (replicate (Z.to_nat max_level) (Some b))
                            (replicate (Z.to_nat max_level) NULL);
                   sentinel (replicate (Z.to_nat max_level) NULL)
                            (replicate (Z.to_nat max_level) (Some a))];
     current_level := 0; current_size := 0;
     head := Some a; tail := Some b; rand_calls := O;
     log := [EvFlushKey a 0; EvFlushValue a 0; EvFlushKey b 0; EvFlushValue b 0;
             EvFlush (Some b) SizeofNode; EvSrand] |}.

(** ** The rest of the class *)

(** [PersistentSkiplist::Head] and [PersistentSkiplist::Tail] *)
Definition Head : M ptr := gets head.
Definition Tail : M ptr := gets tail.

(** [PersistentSkiplist::~PersistentSkiplist]: the loop
    [while (node != NULL) { next = node->next[0]; delete node; node = next; }].
    [freed] collects the addresses deleted so far; reading a node that has
    been deleted is a dangling access. *)
Fixpoint destroy_loop (fuel : nat) (node : ptr) (freed : list nat) : M (list nat) :=
  match fuel with
  | O => fail OutOfFuel
  | S fuel' =>
      match node with
      | None => ret freed
      | Some a =>
          if existsb (Nat.eqb a) freed then fail OutOfBounds
          else
            let* nx := load Fwd node 0 in
            destroy_loop fuel' nx (freed ++ [a])
      end
  end.

(** The destructor; its result is the list of the nodes it deleted. *)
Definition Destroy (fuel : nat) : M (list nat) :=
  let* hd := gets head in
  let* freed := destroy_loop fuel hd [] in
  let* _ := modify (set_current_size 0) in
  ret freed.

(** Two states with the same memory and the same members: they differ at
    most in the effect log. *)
Definition same_mem (s t : State) : Prop :=
  heap t = heap s /\ current_level t = current_level s
  /\ current_size t = current_size s /\ head t = head s /\ tail t = tail s
  /\ rand_calls t = rand_calls s.

(** The contents of the nodes of [s] are still there in [t]: same key, value,
    level and vector sizes at every address; only links may differ. *)
Definition keeps_nodes (s t : State) : Prop :=
  forall a n, heap s !! a = Some n ->
    exists n', heap t !! a = Some n' /\ key n' = key n /\ value n' = value n
               /\ level n' = level n
               /\ List.length (next n') = List.length (next n)
               /\ List.length (prev n') = List.length (prev n).

(** ** The shape of a well-formed skiplist

    A well-formed skiplist is described by the list of its live cells in
    level-0 order. *)

(** What a live node is, seen from outside: its address, key, value, level. *)
Record Cell : Type := mkCell {
  c_addr : nat;
  c_key : string;
  c_value : string;
  c_level : nat
}.

(** [a->next[i]] and [a->prev[i]] read off a memory. *)
Definition nxt (h : list Node) (i a : nat) : option ptr :=
  match h !! a with
  | Some n => next n !! i
  | None => None
  end.

Definition prv (h : list Node) (i a : nat) : option ptr :=
  match h !! a with
  | Some n => prev n !! i
  | None => None
  end.

(** At level [i], [x] is followed by the nodes [c] in order and then by [t],
    and the [prev] pointers are the inverse of the [next] pointers. *)
Fixpoint linked (h : list Node) (i : nat) (x : nat) (c : list nat) (t : nat) : Prop :=
  match c with
  | [] => nxt h i x = Some (Some t) /\ prv h i t = Some (Some x)
  | y :: c' => nxt h i x = Some (Some y) /\ prv h i y = Some (Some x) /\ linked h i y c' t
  end.

(** The cells tall enough to be on level [i], and their addresses. *)
Definition tall (i : nat) (c : Cell) : bool := (i <? c_level c)%nat.

Definition chain (i : nat) (L : list Cell) : list nat :=
  map c_addr (List.filter (tall i) L).

(** The node of a cell is in memory with the cell's contents and with link
    vectors of the size of its level. *)
Definition cell_ok (h : list Node) (c : Cell) : Prop :=
  exists n, h !! c_addr c = Some n
    /\ key n = c_key c /\ value n = c_value c
    /\ level n = Z.of_nat (c_level c)
    /\ List.length (next n) = c_level c /\ List.length (prev n) = c_level c
    /\ (1 <= c_level c <= Z.to_nat max_level)%nat.

Definition sentinel_ok (h : list Node) (a : nat) : Prop :=
  exists n, h !! a = Some n
    /\ key n = EmptyString /\ level n = max_level
    /\ List.length (next n) = Z.to_nat max_level
    /\ List.length (prev n) = Z.to_nat max_level.

(** Memory [h] holds the skiplist with sentinels [hd] and [tl] and live cells
    [L]: the addresses are distinct, every level below [max_level] links
    exactly the cells tall enough for it, and [tail->next[0]] is null. *)
Definition wf (h : list Node) (hd tl : nat) (L : list Cell) : Prop :=
  List.NoDup (hd :: tl :: map c_addr L)
  /\ sentinel_ok h hd /\ sentinel_ok h tl
  /\ Forall (cell_ok h) L
  /\ (forall i, (i < Z.to_nat max_level)%nat -> linked h i hd (chain i L) tl)
  /\ nxt h 0 tl = Some NULL.

(** State [s] holds a well-formed skiplist with live cells [L] whose
    [current_level] lets the search reach level 0. *)
Definition represents (s : State) (L : list Cell) : Prop :=
  exists hd tl,
    head s = Some hd /\ tail s = Some tl /\ wf (heap s) hd tl L
    /\ (0 <= current_level s <= max_level)%Z
    /\ (L <> [] -> (1 <= current_level s)%Z).

(** Keys strictly increasing under the comparator. *)
Definition sorted (cmp : string -> string -> Z) (L : list Cell) : Prop :=
  StronglySorted (fun a b => (cmp (c_key a) (c_key b) < 0)%Z) L.

(** The address of the first cell of [L], or [t] when there is none; the
    address of the last cell, or [x]. *)
Definition first_addr (L : list Cell) (t : nat) : nat :=
  match L with
  | [] => t
  | c :: _ => c_addr c
  end.

Definition last_addr (L : list Cell) (x : nat) : nat := List.last (map c_addr L) x.

(** During the descent of the search for [k], the current node is [hd] or a
    cell of [L] whose key is below [k] and whose level is at least [n]. *)
Definition below (cmp : string -> string -> Z) (k : string) (L : list Cell)
  (hd : nat) (n : nat) (node : nat) : Prop :=
  node = hd
  \/ exists c, In c L /\ c_addr c = node /\ (cmp (c_key c) k < 0)%Z /\ (n <= c_level c)%nat.

(** The memory after [a->next[i] = q] and after [a->prev[i] = q]. *)
Definition upd_next (h : list Node) (a i : nat) (q : ptr) : list Node :=
  match h !! a with
  | Some n => <[a := with_links Fwd (<[i := q]> (next n)) n]> h
  | None => h
  end.

Definition upd_prev (h : list Node) (a i : nat) (q : ptr) : list Node :=
  match h !! a with
  | Some n => <[a := with_links Bwd (<[i := q]> (prev n)) n]> h
  | None => h
  end.

(** What a store keeps of every node: key, value, level, vector sizes. *)
Definition same_contents (h h' : list Node) : Prop :=
  forall a n, h !! a = Some n ->
    exists n', h' !! a = Some n' /\ key n' = key n /\ value n' = value n
      /\ level n' = level n
      /\ List.length (next n') = List.length (next n)
      /\ List.length (prev n') = List.length (prev n).

(** The body of the linking loop of [Insert], for the new node [new_node]. *)
Definition insert_link_body (fuel : nat) (new_node : ptr) (i : Z) (np : ptr * ptr)
  : M (ptr * ptr) :=
  let* next_node := skip_short fuel Fwd i (i - 1) (fst np) in
  let* prev_node := skip_short fuel Bwd i (i - 1) (snd np) in
  let* _ := store Fwd new_node i next_node in
  let* _ := store Bwd next_node i new_node in
  let* _ := store Bwd new_node i prev_node in
  let* _ := store Fwd prev_node i new_node in
  let* _ := (if (i =? 0) then
               let* a := load Fwd new_node 0 in
               let* _ := emit (EvFlush a SizeofPtr) in
               let* b := load Fwd next_node 0 in
               emit (EvFlush b SizeofPtr)
             else ret tt) in
  ret (next_node, prev_node).

(** While [Insert] links the new node [nw] between the cells [L1] and [L2]:
    the levels below [j] already hold [nw], the others do not yet. *)
Definition linking (h : list Node) (hd tl nw : nat) (L1 L2 : list Cell) (j : nat) : Prop :=
  forall i, (i < Z.to_nat max_level)%nat ->
    linked h i hd
      (if (i <? j)%nat then chain i L1 ++ nw :: chain i L2
       else chain i L1 ++ chain i L2) tl.

(** A client that only inserts: the calls for a list of key and value pairs,
    and the pair a cell holds. *)
Definition inserts (kvs : list (string * string)) : list Op :=
  map (fun kv => OpInsert (fst kv) (snd kv)) kvs.

Definition cell_pair (c : Cell) : string * string := (c_key c, c_value c).

(** The largest level among the cells. *)
Definition max_cell_level (L : list Cell) : nat :=
  fold_right (fun c m => Nat.max (c_level c) m) 0%nat L.

(** The body of the unlinking loop of [Erase]. *)
Definition erase_body (fuel : nat) (lv : Z) (lr : ptr * ptr) : M (ptr * ptr) :=
  let* _ := store Fwd (fst lr) lv (snd lr) in
  let* _ := store Bwd (snd lr) lv (fst lr) in
  let* _ := (if (lv =? 0) then
               let* a := load Fwd (fst lr) 0 in emit (EvFlush a SizeofPtr)
             else ret tt) in
  let* left' := skip_short fuel Bwd (lv + 1) lv (fst lr) in
  let* right' := skip_short fuel Fwd (lv + 1) lv (snd lr) in
  ret (left', right').

(** While [Erase] unlinks the cells [Lm] that lie between [La] and [Lb]: the
    levels below [j] already pass them by, the others do not yet. *)
Definition unlinking (h : list Node) (hd tl : nat) (La Lm Lb : list Cell) (j : nat) : Prop :=
  forall i, (i < Z.to_nat max_level)%nat ->
    linked h i hd
      (if (i <? j)%nat then chain i La ++ chain i Lb
       else chain i La ++ chain i Lm ++ chain i Lb) tl.

(** ** Checking the shape of a concrete memory *)

Fixpoint linked_b (h : list Node) (i : nat) (x : nat) (c : list nat) (t : nat) : bool :=
  match c with
  | [] => bool_decide (nxt h i x = Some (Some t)) && bool_decide (prv h i t = Some (Some x))
  | y :: c' =>
      bool_decide (nxt h i x = Some (Some y)) && bool_decide (prv h i y = Some (Some x))
      && linked_b h i y c' t
  end.

Definition cell_ok_b (h : list Node) (c : Cell) : bool :=
  match h !! c_addr c with
  | Some n =>
      String.eqb (key n) (c_key c) && String.eqb (value n) (c_value c)
      && (level n =? Z.of_nat (c_level c))
      && (List.length (next n) =? c_level c)%nat
      && (List.length (prev n) =? c_level c)%nat
      && (1 <=? c_level c)%nat && (c_level c <=? Z.to_nat max_level)%nat
  | None => false
  end.

Definition sentinel_ok_b (h : list Node) (a : nat) : bool :=
  match h !! a with
  | Some n =>
      String.eqb (key n) EmptyString && (level n =? max_level)
      && (List.length (next n) =? Z.to_nat max_level)%nat
      && (List.length (prev n) =? Z.to_nat max_level)%nat
  | None => false
  end.

Fixpoint distinct_b (l : list nat) : bool :=
  match l with
  | [] => true
  | a :: l' => negb (existsb (Nat.eqb a) l') && distinct_b l'
  end.

Definition wf_b (h : list Node) (hd tl : nat) (L : list Cell) : bool :=
  distinct_b (hd :: tl :: map c_addr L)
  && sentinel_ok_b h hd && sentinel_ok_b h tl
  && forallb (cell_ok_b h) L
  && forallb (fun i => linked_b h i hd (chain i L) tl) (seq 0 (Z.to_nat max_level))
  && bool_decide (nxt h 0 tl = Some NULL).

Definition represents_b (s : State) (L : list Cell) : bool :=
  match head s, tail s with
  | Some hd, Some tl =>
      wf_b (heap s) hd tl L
      && (0 <=? current_level s) && (current_level s <=? max_level)
      && match L with [] => true | _ :: _ => 1 <=? current_level s end
  | _, _ => false
  end.

(** ** Concrete skiplists for the runs below *)

Definition state_of (r : Res (unit * State)) : State :=
  match r with
  | Ok (_, s) => s
  | Err _ => raw_object []
  end.

(** The keys "b", "a", "c" inserted in this order; the node of "b" has level
    2, the others level 1. *)
Definition three_keys : State :=
  state_of (from_empty bytewise rand_tall_first 40
              [OpInsert "b" "2"; OpInsert "a" "1"; OpInsert "c" "3"]).

Definition three_cells : list Cell :=
  [mkCell 3 "a" "1" 1; mkCell 2 "b" "2" 2; mkCell 4 "c" "3" 1].

(** The same after [Erase] of the node of "b": the nodes of "a" and "c" are
    live, and [current_level] is 0. *)
Definition two_left : State := state_of (Erase 40 (Some 2%nat) (Some 2%nat) three_keys).

Definition two_cells : list Cell := [mkCell 3 "a" "1" 1; mkCell 4 "c" "3" 1].

(** A generator whose every draw is 0: [RandomLevel] returns [max_level]. *)
Definition rand_low (_ : nat) : Z := 0.

(** One key inserted with the largest level. *)
Definition tallest_key : State :=
  state_of (from_empty bytewise rand_low 40 [OpInsert "a" "1"]).

Definition tallest_cells : list Cell := [mkCell 2 "a" "1" 32].

End Skiplist.

Module Index.

(** An [IndexMeta*]: the address of a metadata block. *)
Definition MetaPtr : Type := Z.

(** [struct KeyAndMeta] *)
Record KeyAndMeta : Type := mkKeyAndMeta {
  key : Z;
  prev_file_number : Z;
  meta : MetaPtr
}.

(** What a flush covers: the metadata block at an address, or the [uint32_t]
    object holding a key. *)
Inductive Region : Type :=
| MetaBlock (m : MetaPtr)
| KeyWord (k : Z).

(** Observable effects of the Index code, in program order. *)
Inductive Event : Type :=
| EvFlush (r : Region) (len : Z)
| EvTreeSearch (k : Z)
| EvTreeInsert (k : Z) (m : MetaPtr)
| EvTreeUpdate (k fnumber : Z) (m : MetaPtr)
| EvLock
| EvUnlock
| EvSignal
| EvWait
| EvCreateThread.

(** Modelled from the spec: [fast_atoi] of [util/fast_atoi.h], which is not
    among the sources; [Get] calls it with one argument, a [const char*].
    "Parse the first ASCII digits of [key_bytes] as an unsigned 32-bit integer
    [...] accept leading digits and stop at the first non-digit; absence of
    digits yields 0."  "Maximum value [UINT32_MAX]; behavior on overflow is
    undefined by the source": where the digits read so far denote more than
    [UINT32_MAX] the model gives no result.  The argument is the bytes that
    lie in memory from the pointer on. *)
Definition is_digit (c : ascii) : bool :=
  let n := Z.of_N (N_of_ascii c) in (48 <=? n) && (n <=? 57).

Definition digit_value (c : ascii) : Z := Z.of_N (N_of_ascii c) - 48.

Fixpoint fast_atoi_from (val : Z) (str : string) : option Z :=
  match str with
  | EmptyString => Some val
  | String c rest =>
      if is_digit c
      then
        let val' := val * 10 + digit_value c in
        if (val' <? U32_MOD) then fast_atoi_from val' rest else None
      else Some val
  end.

Definition fast_atoi (str : string) : option Z := fast_atoi_from 0 str.

(** A [leveldb::Slice], as the sources use it: the pointer [data()] and the
    length [size()].  For the pointer the model keeps the bytes that lie in
    memory from that address on, up to the end of the buffer that holds them
    (for the buffer of a [std::string], its terminating NUL); the slice
    denotes the first [size_] of them. *)
Record Slice : Type := mkSlice {
  data_ : string;
  size_ : nat
}.

(** The bytes a slice denotes, and the slice over a whole buffer. *)
Definition slice_bytes (k : Slice) : string := String.substring 0 (size_ k) (data_ k).

Definition Slice_of (str : string) : Slice := mkSlice str (String.length str).

(** The spec's reading of a key, for comparison with [fast_atoi]: the leading
    digits, and their decimal value. *)
Fixpoint leading_digits (str : string) : list Z :=
  match str with
  | EmptyString => []
  | String c rest => if is_digit c then digit_value c :: leading_digits rest else []
  end.

Definition decimal (ds : list Z) : Z := fold_left (fun acc d => acc * 10 + d) ds 0.

(** How many times a log starts the background thread, and how many times it
    signals the condition variable. *)
Definition is_create (e : Event) : bool :=
  match e with EvCreateThread => true | _ => false end.

Definition is_signal (e : Event) : bool :=
  match e with EvSignal => true | _ => false end.

Definition threads_created (l : list Event) : nat := List.length (List.filter is_create l).

Definition signals (l : list Event) : nat := List.length (List.filter is_signal l).

Definition is_flush (e : Event) : bool :=
  match e with EvFlush _ _ => true | _ => false end.

(** In a log, every [tree.insert(k, m)] comes right after the flush of the
    metadata block [m] ([sz] bytes) and the flush of the 4 bytes of [k]. *)
Definition flushed_before_insert (sz : Z) (l : list Event) : Prop :=
  forall pre k m post,
    l = pre ++ EvTreeInsert k m :: post ->
    exists pre', pre = pre' ++ [EvFlush (MetaBlock m) sz; EvFlush (KeyWord k) 4].

Section WithTree.

(** The backing tree ([search], [insert], [update]) and [sizeof(IndexMeta)]. *)
Variable Tree : Type.
Variable tree_search : Tree -> Z -> MetaPtr.
Variable tree_insert : Tree -> Z -> MetaPtr -> Tree.
Variable tree_update : Tree -> Z -> Z -> MetaPtr -> Tree.
Variable sizeof_IndexMeta : Z.

Record State : Type := mkState {
  tree_ : Tree;
  queue_ : list KeyAndMeta;
  free_ : bool;
  bgstarted_ : bool;
  log : list Event
}.

Definition set_tree (t : Tree) (s : State) : State :=
  {| tree_ := t; queue_ := queue_ s; free_ := free_ s;
     bgstarted_ := bgstarted_ s; log := log s |}.
Definition set_queue (q : list KeyAndMeta) (s : State) : State :=
  {| tree_ := tree_ s; queue_ := q; free_ := free_ s;
     bgstarted_ := bgstarted_ s; log := log s |}.
Definition set_bgstarted (b : bool) (s : State) : State :=
  {| tree_ := tree_ s; queue_ := queue_ s; free_ := free_ s;
     bgstarted_ := b; log := log s |}.
Definition emit (e : Event) (s : State) : State :=
  {| tree_ := tree_ s; queue_ := queue_ s; free_ := free_ s;
     bgstarted_ := bgstarted_ s; log := log s ++ [e] |}.

(** [Index::Index] *)
Definition Index_new (t : Tree) : State :=
  {| tree_ := t; queue_ := []; free_ := true; bgstarted_ := false; log := [] |}.

(** [Index::Get]: [tree_.search(fast_atoi(key.data()))].  Only the pointer of
    the slice goes to [fast_atoi], not its length; there is no result where
    [fast_atoi] has none. *)
Definition Get (k : Slice) (s : State) : option (MetaPtr * State) :=
  match fast_atoi (data_ k) with
  | Some n => Some (tree_search (tree_ s) n, emit (EvTreeSearch n) s)
  | None => None
  end.

(** [Index::Insert] *)
Definition Insert (k : Z) (m : MetaPtr) (s : State) : State :=
  let s1 := emit (EvFlush (MetaBlock m) sizeof_IndexMeta) s in
  let s2 := emit (EvFlush (KeyWord k) 4) s1 in
  set_tree (tree_insert (tree_ s2) k m) (emit (EvTreeInsert k m) s2).

(** [Index::Update] *)
Definition Update (k fnumber : Z) (m : MetaPtr) (s : State) : State :=
  set_tree (tree_update (tree_ s) k fnumber m) (emit (EvTreeUpdate k fnumber m) s).

(** The thread start shared by [AsyncInsert] and [AddQueue]:
    [if (!bgstarted_) { bgstarted_ = true; pthread_create(...); }] *)
Definition start_background (s : State) : State :=
  if bgstarted_ s then s else emit EvCreateThread (set_bgstarted true s).

(** [Index::AsyncInsert] *)
Definition AsyncInsert (e : KeyAndMeta) (s : State) : State :=
  let s1 := emit EvLock s in
  let s2 := start_background s1 in
  let s3 := match queue_ s2 with [] => emit EvSignal s2 | _ :: _ => s2 end in
  let s4 := set_queue (queue_ s3 ++ [e]) s3 in
  emit EvUnlock s4.

(** [Index::Runner]: the drain loop
    [for (; !queue_.empty(); ) { front; pop_front; Insert or Update }] *)
Fixpoint drain (fuel : nat) (s : State) : Res State :=
  match queue_ s with
  | [] => Ok s
  | front :: rest =>
      match fuel with
      | O => Err OutOfFuel
      | S fuel' =>
          let k := key front in
          let fnumber := prev_file_number front in
          let v := meta front in
          let s1 := set_queue rest s in
          drain fuel' (if (fnumber =? 0) then Insert k v s1 else Update k fnumber v s1)
      end
  end.

(** One turn of the [for (;;)] of [Index::Runner]. *)
Inductive Turn : Type :=
| Completed (s : State)   (* the turn ran to [mutex_.Unlock()] *)
| Waiting (s : State)     (* the thread sleeps in [condvar_.Wait()] *)
| Faulted (f : Fault).

Definition Runner_turn (fuel : nat) (s : State) : Turn :=
  let s1 := emit EvLock s in
  match queue_ s1 with
  | [] => Waiting (emit EvWait s1)
  | _ :: _ =>
      match drain fuel s1 with
      | Ok s2 =>
          match queue_ s2 with
          | [] => Completed (emit EvUnlock s2)
          | _ :: _ => Faulted AssertFail
          end
      | Err f => Faulted f
      end
  end.

(** [Index::AddQueue]; the second component is the caller's deque after the
    swap. *)
Definition AddQueue (batch : list KeyAndMeta) (s : State)
  : Res (State * list KeyAndMeta) :=
  let s1 := emit EvLock s in
  match queue_ s1 with
  | _ :: _ => Err AssertFail
  | [] =>
      let caller := queue_ s1 in
      let s2 := set_queue batch s1 in
      let s3 := start_background s2 in
      Ok (emit EvUnlock (emit EvSignal s3), caller)
  end.

(** What one queued entry does to the tree and what it emits. *)
Definition apply_entry (t : Tree) (e : KeyAndMeta) : Tree :=
  if (prev_file_number e =? 0) then tree_insert t (key e) (meta e)
  else tree_update t (key e) (prev_file_number e) (meta e).

Definition entry_events (e : KeyAndMeta) : list Event :=
  if (prev_file_number e =? 0)
  then [EvFlush (MetaBlock (meta e)) sizeof_IndexMeta;
        EvFlush (KeyWord (key e)) 4;
        EvTreeInsert (key e) (meta e)]
  else [EvTreeUpdate (key e) (prev_file_number e) (meta e)].

(** The flushes one queued entry causes: two on the way through [Insert],
    none on the way through [Update]. *)
Definition entry_flushes (e : KeyAndMeta) : list Event :=
  if (prev_file_number e =? 0)
  then [EvFlush (MetaBlock (meta e)) sizeof_IndexMeta; EvFlush (KeyWord (key e)) 4]
  else [].

(** [AsyncInsert] called once for each entry, in order. *)
Definition AsyncInserts (es : list KeyAndMeta) (s : State) : State :=
  fold_left (fun s e => AsyncInsert e s) es s.

(** A call on the index: by a producer, or one turn of the background
    thread.  A turn that finds the queue empty leaves the thread in
    [condvar_.Wait()]; its next turn is the wake-up, which takes the mutex
    and looks at the queue again. *)
Inductive Call : Type :=
| CallAsyncInsert (e : KeyAndMeta)
| CallAddQueue (batch : list KeyAndMeta)
| CallRunner.

Definition is_producer (c : Call) : bool :=
  match c with
  | CallAsyncInsert _ | CallAddQueue _ => true
  | CallRunner => false
  end.

Definition run_call (fuel : nat) (c : Call) (s : State) : Res State :=
  match c with
  | CallAsyncInsert e => Ok (AsyncInsert e s)
  | CallAddQueue batch =>
      match AddQueue batch s with
      | Ok (s', _) => Ok s'
      | Err f => Err f
      end
  | CallRunner =>
      match Runner_turn fuel s with
      | Completed s' => Ok s'
      | Waiting s' => Ok s'
      | Faulted f => Err f
      end
  end.

Fixpoint run_calls (fuel : nat) (cs : list Call) (s : State) : Res State :=
  match cs with
  | [] => Ok s
  | c :: rest =>
      match run_call fuel c s with
      | Ok s' => run_calls fuel rest s'
      | Err f => Err f
      end
  end.

End WithTree.

Arguments tree_ {Tree} s.
Arguments queue_ {Tree} s.
Arguments bgstarted_ {Tree} s.
Arguments log {Tree} s.

(** ** A concrete backing tree for the runs below

    The tree is the list of the operations applied to it; [search] finds
    nothing. *)
Definition journal_search (t : list Event) (k : Z) : MetaPtr := 0.
Definition journal_insert (t : list Event) (k : Z) (m : MetaPtr) : list Event :=
  t ++ [EvTreeInsert k m].
Definition journal_update (t : list Event) (k fnumber : Z) (m : MetaPtr) : list Event :=
  t ++ [EvTreeUpdate k fnumber m].

End Index.

Module SkiplistFacts.
Import Skiplist.
Local Open Scope skip_scope.

(** ** Inversion of monadic code *)

Lemma bind_Ok {A B} (m : M A) (k : A -> M B) s r :
  bind m k s = Ok r -> exists a s1, m s = Ok (a, s1) /\ k a s1 = Ok r.
Proof.
  unfold bind. destruct (m s) as [[a s1]|f]; [|discriminate].
  intros H. exists a, s1. split; [reflexivity|exact H].
Qed.

Lemma bind_Ok_intro {A B} (m : M A) (k : A -> M B) s a s1 :
  m s = Ok (a, s1) -> bind m k s = k a s1.
Proof. unfold bind. intros ->. reflexivity. Qed.

(** ** Properties of the state that a piece of code leaves alone *)

Section Preservation.

Variable P : State -> Prop.
Hypothesis P_log : forall e s, P s -> P (add_log e s).
Hypothesis P_level : forall z s, P s -> P (set_current_level z s).
Hypothesis P_rand : forall n s, P s -> P (set_rand_calls n s).
Hypothesis P_store : forall d a n v s,
  heap s !! a = Some n -> P s -> P (set_heap (<[a := with_links d v n]> (heap s)) s).
Hypothesis P_alloc : forall n s, P s -> P (set_heap (heap s ++ [n]) s).

Lemma preserves_ret {A} (a : A) : preserves P (ret a).
Proof. intros s x s' H. inversion H; subst. auto. Qed.

Lemma preserves_fail {A} f : preserves P (@fail A f).
Proof. intros s x s' H. discriminate. Qed.

Lemma preserves_gets {A} (f : State -> A) : preserves P (gets f).
Proof. intros s x s' H. inversion H; subst. auto. Qed.

Lemma preserves_bind {A B} (m : M A) (k : A -> M B) :
  preserves P m -> (forall a, preserves P (k a)) -> preserves P (bind m k).
Proof.
  intros Hm Hk s b s' H HP.
  apply bind_Ok in H as (a & s1 & H1 & H2).
  eapply Hk; [exact H2|]. eapply Hm; eauto.
Qed.

Lemma preserves_emit e : preserves P (emit e).
Proof. intros s x s' H. inversion H; subst. auto. Qed.

Lemma preserves_set_level z : preserves P (modify (set_current_level z)).
Proof. intros s x s' H. inversion H; subst. auto. Qed.

Lemma preserves_deref p : preserves P (deref p).
Proof.
  intros s x s' H. unfold deref in H.
  destruct p as [a|]; [|discriminate].
  destruct (heap s !! a); [|discriminate]. inversion H; subst. auto.
Qed.

Lemma deref_Ok p s a n s' :
  deref p s = Ok ((a, n), s') -> s' = s /\ p = Some a /\ heap s !! a = Some n.
Proof.
  unfold deref. destruct p as [b|]; [|discriminate].
  destruct (heap s !! b) eqn:E; [|discriminate].
  intros H. inversion H; subst. auto.
Qed.

Lemma preserves_load d p i : preserves P (load d p i).
Proof.
  unfold load. apply preserves_bind; [apply preserves_deref|].
  intros an. destruct (vec_get _ _); [apply preserves_ret|apply preserves_fail].
Qed.

Lemma preserves_load_level p : preserves P (load_level p).
Proof.
  unfold load_level. apply preserves_bind; [apply preserves_deref|].
  intros; apply preserves_ret.
Qed.

Lemma preserves_store d p i q : preserves P (store d p i q).
Proof.
  intros s x s' H HP. unfold store in H.
  apply bind_Ok in H as ([a n] & s1 & H1 & H2).
  apply deref_Ok in H1 as (-> & -> & Hn). simpl in H2.
  destruct (vec_set _ _ _); [|discriminate].
  inversion H2; subst. apply P_store; auto.
Qed.

Lemma preserves_alloc k v lvl : preserves P (alloc k v lvl).
Proof. intros s x s' H. inversion H; subst. auto. Qed.

Lemma preserves_for_range {A} (body : Z -> A -> M A) :
  (forall i a, preserves P (body i a)) ->
  forall n i a, preserves P (for_range n i body a).
Proof.
  intros Hb n. induction n as [|n IH]; intros i a; simpl.
  - apply preserves_ret.
  - apply preserves_bind; [apply Hb|]. intros; apply IH.
Qed.

Lemma preserves_skip_short fuel d bound idx :
  forall p, preserves P (skip_short fuel d bound idx p).
Proof.
  induction fuel as [|fuel IH]; intros p; simpl.
  - apply preserves_fail.
  - apply preserves_bind; [apply preserves_load_level|].
    intros lvl. destruct (lvl <=? bound)%Z.
    + apply preserves_bind; [apply preserves_load|]. intros; apply IH.
    + apply preserves_ret.
Qed.

Section Env.
Variable cmp : string -> string -> Z.
Variable rand : nat -> Z.

Lemma preserves_compare_node_arg p k : preserves P (compare_node_arg cmp p k).
Proof.
  unfold compare_node_arg. apply preserves_bind; [apply preserves_deref|].
  intros. apply preserves_bind; [apply preserves_emit|]. intros; apply preserves_ret.
Qed.

Lemma preserves_advance fuel i k :
  forall node, preserves P (advance cmp fuel i k node).
Proof.
  induction fuel as [|fuel IH]; intros node; simpl.
  - apply preserves_fail.
  - apply preserves_bind; [apply preserves_load|]. intros nx.
    apply preserves_bind; [apply preserves_gets|]. intros tl.
    destruct (ptr_eqb nx tl); [apply preserves_ret|].
    apply preserves_bind; [apply preserves_compare_node_arg|]. intros c.
    destruct (c <? 0)%Z; [apply IH|apply preserves_ret].
Qed.

Lemma preserves_descend fuel k n :
  forall node, preserves P (descend cmp fuel n k node).
Proof.
  induction n as [|n IH]; intros node; simpl.
  - apply preserves_ret.
  - apply preserves_bind; [apply preserves_advance|]. intros; apply IH.
Qed.

Lemma preserves_FindGreaterOrEqual fuel k :
  preserves P (FindGreaterOrEqual cmp fuel k).
Proof.
  unfold FindGreaterOrEqual.
  apply preserves_bind; [apply preserves_gets|]. intros hd.
  apply preserves_bind; [apply preserves_gets|]. intros cl.
  apply preserves_bind; [apply preserves_descend|]. intros; apply preserves_load.
Qed.

Lemma preserves_RandomLevel_loop fuel :
  forall result, preserves P (RandomLevel_loop rand fuel result).
Proof.
  induction fuel as [|fuel IH]; intros result; simpl.
  - apply preserves_fail.
  - apply preserves_bind.
    + intros s x s' H. inversion H; subst. auto.
    + intros r. destruct (_ && _); [apply IH|apply preserves_ret].
Qed.

(** The linking loop of [Insert]. *)
Lemma preserves_insert_links fuel new_node lvl np :
  preserves P
    (for_range (Z.to_nat lvl) 0
       (fun i (np : ptr * ptr) =>
          let* next_node := skip_short fuel Fwd i (i - 1) (fst np) in
          let* prev_node := skip_short fuel Bwd i (i - 1) (snd np) in
          let* _ := store Fwd new_node i next_node in
          let* _ := store Bwd next_node i new_node in
          let* _ := store Bwd new_node i prev_node in
          let* _ := store Fwd prev_node i new_node in
          let* _ := (if (i =? 0)%Z then
                       let* a := load Fwd new_node 0 in
                       let* _ := emit (EvFlush a SizeofPtr) in
                       let* b := load Fwd next_node 0 in
                       emit (EvFlush b SizeofPtr)
                     else ret tt) in
          ret (next_node, prev_node)) np).
Proof.
  apply preserves_for_range. intros i a.
  repeat (apply preserves_bind;
          [first [apply preserves_skip_short | apply preserves_store]|intros ?]).
  apply preserves_bind; [|intros; apply preserves_ret].
  destruct (i =? 0)%Z; [|apply preserves_ret].
  apply preserves_bind; [apply preserves_load|intros ?].
  apply preserves_bind; [apply preserves_emit|intros ?].
  apply preserves_bind; [apply preserves_load|intros ?].
  apply preserves_emit.
Qed.

Lemma preserves_top_level_empty : preserves P top_level_empty.
Proof.
  unfold top_level_empty.
  do 3 (apply preserves_bind; [apply preserves_gets|intros ?]).
  apply preserves_bind; [apply preserves_load|intros ?].
  destruct (ptr_eqb _ _); [|apply preserves_ret].
  apply preserves_bind; [apply preserves_load|intros ?]. apply preserves_ret.
Qed.

Lemma preserves_shrink fuel : preserves P (shrink fuel).
Proof.
  induction fuel as [|fuel IH]; simpl.
  - apply preserves_fail.
  - apply preserves_bind; [apply preserves_top_level_empty|]. intros c.
    destruct c; [|apply preserves_ret].
    apply preserves_bind; [|intros; apply IH].
    unfold decrement_level.
    apply preserves_bind; [apply preserves_gets|intros ?].
    apply preserves_set_level.
Qed.

Lemma preserves_unlink fuel first last : preserves P (unlink fuel first last).
Proof.
  unfold unlink.
  do 2 (apply preserves_bind; [apply preserves_load|intros ?]).
  apply preserves_bind; [apply preserves_gets|intros ?].
  apply preserves_bind; [|intros; apply preserves_ret].
  apply preserves_for_range. intros i lr.
  do 2 (apply preserves_bind; [apply preserves_store|intros ?]).
  apply preserves_bind.
  { destruct (i =? 0)%Z; [|apply preserves_ret].
    apply preserves_bind; [apply preserves_load|intros ?]. apply preserves_emit. }
  intros ?.
  do 2 (apply preserves_bind; [apply preserves_skip_short|intros ?]).
  apply preserves_ret.
Qed.

Lemma preserves_Erase fuel first last : preserves P (Erase fuel first last).
Proof.
  unfold Erase. apply preserves_bind; [apply preserves_unlink|].
  intros; apply preserves_shrink.
Qed.

End Env.
End Preservation.


(** ** [current_size] *)

Lemma holds_kv_store a k v d a0 n0 w s :
  heap s !! a0 = Some n0 -> holds_kv a k v s ->
  holds_kv a k v (set_heap (<[a0 := with_links d w n0]> (heap s)) s).
Proof.
  intros H0 (n & Hn & Hk & Hv). unfold holds_kv. simpl.
  destruct (decide (a0 = a)) as [->|Hne].
  - exists (with_links d w n0). split.
    + apply list_lookup_insert_eq. eapply lookup_lt_Some; eauto.
    + rewrite Hn in H0. inversion H0; subst. destruct d; simpl; auto.
  - exists n. split; [|auto]. rewrite list_lookup_insert_ne; auto.
Qed.

Lemma holds_kv_alloc a k v n0 s :
  holds_kv a k v s -> holds_kv a k v (set_heap (heap s ++ [n0]) s).
Proof.
  intros (n & Hn & Hk & Hv). exists n. split; [|auto].
  simpl. apply lookup_app_l_Some. exact Hn.
Qed.

Lemma holds_kv_log a k v e s : holds_kv a k v s -> holds_kv a k v (add_log e s).
Proof. intros (n & ? & ?). exists n; auto. Qed.

Section SizeAccounting.
Variable cmp : string -> string -> Z.
Variable rand : nat -> Z.

Lemma Insert_current_size fuel k v s p s' :
  Insert cmp rand fuel k v s = Ok (p, s') ->
  current_size s' =
  wrap_size (current_size s
             + wrap_size (Z.of_nat (String.length k) + Z.of_nat (String.length v))).
Proof.
  intros H. unfold Insert in H.
  set (c := current_size s).
  assert (Hsz : forall A (m : M A) t x t',
             preserves (size_is c) m -> m t = Ok (x, t') -> size_is c t -> size_is c t')
    by (intros A m t x t' Hp Hm Ht; eapply Hp; eauto).
  assert (Z0 : size_is c s) by reflexivity.
  apply bind_Ok in H as (node & s1 & E1 & H).
  eapply Hsz in E1; [|apply preserves_FindGreaterOrEqual; auto|exact Z0].
  apply bind_Ok in H as (lvl & s2 & E2 & H).
  eapply Hsz in E2; [|apply preserves_RandomLevel_loop; auto|exact E1].
  apply bind_Ok in H as (prev_node & s3 & E3 & H).
  eapply Hsz in E3; [|apply preserves_load; auto|exact E2].
  apply bind_Ok in H as (c0 & s4 & E4 & H).
  eapply Hsz in E4; [|apply preserves_compare_node_arg; auto|exact E3].
  apply bind_Ok in H as (next_node & s5 & E5 & H).
  assert (Z5 : size_is c s5).
  { destruct (c0 =? 0)%Z.
    - eapply Hsz; [apply preserves_load; auto|exact E5|exact E4].
    - inversion E5; subst. exact E4. }
  apply bind_Ok in H as (new_node & s6 & E6 & H).
  inversion E6; subst new_node s6. clear E6.
  apply bind_Ok in H as (cl & s7 & E7 & H).
  inversion E7; subst cl s7. clear E7.
  apply bind_Ok in H as (u & s8 & E8 & H).
  set (new := List.length (heap s5)) in *.
  assert (K8 : holds_kv new k v s8 /\ size_is c s8).
  { assert (K : holds_kv new k v (set_heap (heap s5 ++ [Node_new k v lvl]) s5)).
    { exists (Node_new k v lvl). split; [|auto]. simpl. unfold new.
      apply list_lookup_middle. reflexivity. }
    destruct (lvl >? _)%Z; inversion E8; subst; split; auto. }
  destruct K8 as [K8 Z8].
  apply bind_Ok in H as (np & s9 & E9 & H).
  assert (Z9 : size_is c s9).
  { eapply Hsz; [|exact E9|exact Z8]. apply preserves_insert_links; auto. }
  assert (K9 : holds_kv new k v s9).
  { eapply (preserves_insert_links (holds_kv new k v));
      [exact (holds_kv_log _ _ _) | exact (holds_kv_store _ _ _) | exact E9 | exact K8]. }
  apply bind_Ok in H as ([b nb] & s10 & E10 & H).
  apply deref_Ok in E10 as (-> & Hb & Hnb). inversion Hb; subst b.
  destruct K9 as (n & Hn & Hk & Hv). rewrite Hn in Hnb. inversion Hnb; subst nb.
  apply bind_Ok in H as (sz & s11 & E11 & H).
  inversion E11; subst sz s11. clear E11.
  apply bind_Ok in H as (u' & s12 & E12 & H).
  inversion E12; subst u' s12. clear E12. inversion H; subst p s'. simpl.
  unfold GetSize. rewrite Hk, Hv. rewrite Z9. reflexivity.
Qed.

Lemma Erase_current_size fuel first last s s' :
  Erase fuel first last s = Ok (tt, s') -> current_size s' = current_size s.
Proof.
  intros H.
  eapply (preserves_Erase (size_is (current_size s))); try exact H; auto.
  reflexivity.
Qed.

Lemma empty_current_size s s' :
  PersistentSkiplist_empty s = Ok (tt, s') -> current_size s' = 0.
Proof.
  intros H. unfold PersistentSkiplist_empty in H.
  repeat (apply bind_Ok in H as (? & ? & _ & H)). inversion H. reflexivity.
Qed.

Lemma wrap_size_add_l a b : wrap_size (wrap_size a + b) = wrap_size (a + b).
Proof. unfold wrap_size. apply Zplus_mod_idemp_l. Qed.

Lemma wrap_size_add_r a b : wrap_size (a + wrap_size b) = wrap_size (a + b).
Proof. unfold wrap_size. apply Zplus_mod_idemp_r. Qed.

Lemma run_ops_current_size fuel ops :
  forall c s s', run_ops cmp rand fuel ops s = Ok (tt, s') ->
  current_size s = wrap_size c ->
  current_size s' = wrap_size (c + inserted_bytes ops).
Proof.
  induction ops as [|op ops IH]; intros c s s' H Hc; simpl in H.
  - inversion H; subst. simpl. rewrite Z.add_0_r. exact Hc.
  - destruct op as [k v|a b]; apply bind_Ok in H as (x & s1 & E & H).
    + apply Insert_current_size in E.
      rewrite Hc, wrap_size_add_l, wrap_size_add_r in E.
      rewrite (IH _ _ _ H E). simpl. f_equal. lia.
    + destruct x. apply Erase_current_size in E.
      rewrite Hc in E. rewrite (IH _ _ _ H E). reflexivity.
Qed.

End SizeAccounting.


(** ** The constructors *)

Lemma fill_length n : forall i q v, List.length (fill n i q v) = List.length v.
Proof.
  induction n as [|n IH]; intros i q v; simpl; [reflexivity|].
  rewrite IH. apply length_insert.
Qed.

Lemma lookup_slot0 (h : list Node) x y : (h ++ [x; y]) !! List.length h = Some x.
Proof. apply list_lookup_middle. reflexivity. Qed.

Lemma lookup_slot1 (h : list Node) x y : (h ++ [x; y]) !! S (List.length h) = Some y.
Proof.
  change (h ++ [x; y]) with (h ++ [x] ++ [y]). rewrite app_assoc.
  apply list_lookup_middle. rewrite length_app. simpl. lia.
Qed.

Lemma insert_slot0 (h : list Node) x y x' :
  <[List.length h := x']> (h ++ [x; y]) = h ++ [x'; y].
Proof. rewrite insert_app_r_alt by lia. rewrite Nat.sub_diag. reflexivity. Qed.

Lemma insert_slot1 (h : list Node) x y y' :
  <[S (List.length h) := y']> (h ++ [x; y]) = h ++ [x; y'].
Proof.
  rewrite insert_app_r_alt by lia.
  replace (S (List.length h) - List.length h)%nat with 1%nat by lia. reflexivity.
Qed.

Lemma in_range_lt (v : list ptr) (i : nat) :
  (i < List.length v)%nat -> in_range v (Z.of_nat i) = true.
Proof.
  intros H. unfold in_range.
  apply andb_true_intro. split; [apply Z.leb_le|apply Z.ltb_lt]; lia.
Qed.

Lemma bind_assoc {A B C} (m : M A) (f : A -> M B) (g : B -> M C) s :
  bind (bind m f) g s = bind m (fun x => bind (f x) g) s.
Proof. unfold bind. destruct (m s) as [[a s1]|e]; reflexivity. Qed.

Lemma bind_ret {A B} (a : A) (k : A -> M B) s : bind (ret a) k s = k a s.
Proof. reflexivity. Qed.

Lemma bind_gets {A B} (f : State -> A) (k : A -> M B) s :
  bind (gets f) k s = k (f s) s.
Proof. reflexivity. Qed.

Lemma bind_modify {B} (f : State -> State) (k : unit -> M B) s :
  bind (modify f) k s = k tt (f s).
Proof. reflexivity. Qed.

Lemma load_eq d a i s n q :
  heap s !! a = Some n -> vec_get (links d n) i = Some q ->
  load d (Some a) i s = Ok (q, s).
Proof.
  intros Hn Hq. unfold load, bind, deref. rewrite Hn. simpl. rewrite Hq. reflexivity.
Qed.

Lemma store_eq d a i q s n :
  heap s !! a = Some n -> in_range (links d n) i = true ->
  store d (Some a) i q s =
  Ok (tt, set_heap (<[a := with_links d (<[Z.to_nat i := q]> (links d n)) n]> (heap s)) s).
Proof.
  intros Hn Hi. unfold store, bind, deref. rewrite Hn. simpl.
  unfold vec_set. rewrite Hi. reflexivity.
Qed.

(** The loop of the constructor that links the two sentinels at every level. *)
Lemma link_sentinels (h : list Node) cl sz rc lg n :
  forall i nx pv hp tn,
  (i + n <= List.length nx)%nat -> (i + n <= List.length pv)%nat ->
  for_range n (Z.of_nat i)
    (fun i (_ : unit) =>
       let* hd := gets head in
       let* tl := gets tail in
       let* _ := store Fwd hd i tl in
       store Bwd tl i hd) tt
    (mkState (h ++ [sentinel nx hp; sentinel tn pv]) cl sz
       (Some (List.length h)) (Some (S (List.length h))) rc lg)
  = Ok (tt, mkState (h ++ [sentinel (fill n i (Some (S (List.length h))) nx) hp;
                           sentinel tn (fill n i (Some (List.length h)) pv)]) cl sz
              (Some (List.length h)) (Some (S (List.length h))) rc lg).
Proof.
  induction n as [|n IH]; intros i nx pv hp tn Hnx Hpv; simpl; [reflexivity|].
  rewrite (bind_Ok_intro _ _ _ tt
             (mkState (h ++ [sentinel (<[i := Some (S (List.length h))]> nx) hp;
                             sentinel tn (<[i := Some (List.length h)]> pv)]) cl sz
                (Some (List.length h)) (Some (S (List.length h))) rc lg)).
  - replace (Z.of_nat i + 1)%Z with (Z.of_nat (S i)) by lia.
    apply IH; rewrite length_insert; lia.
  - rewrite !bind_gets. cbn [head tail].
    erewrite bind_Ok_intro.
    2:{ apply store_eq; [apply lookup_slot0|]. apply in_range_lt. simpl. lia. }
    erewrite store_eq.
    2:{ cbn [heap set_heap]. rewrite insert_slot0. apply lookup_slot1. }
    2:{ apply in_range_lt. simpl. lia. }
    cbn [heap set_heap current_level current_size head tail rand_calls log].
    rewrite insert_slot0, insert_slot1, Nat2Z.id. reflexivity.
Qed.

Lemma fill_sentinel q :
  fill (Z.to_nat max_level) 0 q (replicate (Z.to_nat max_level) NULL)
  = replicate (Z.to_nat max_level) q.
Proof. reflexivity. Qed.

Lemma MakeNode_eq k v lvl s :
  MakeNode k v lvl s =
  Ok (Some (List.length (heap s)),
      add_log (EvFlushValue (List.length (heap s)) (Z.of_nat (String.length v)))
        (add_log (EvFlushKey (List.length (heap s)) (Z.of_nat (String.length k)))
           (set_heap (heap s ++ [Node_new k v lvl]) s))).
Proof. reflexivity. Qed.

Lemma PersistentSkiplist_empty_eq (h : list Node) :
  PersistentSkiplist_empty (raw_object h) = Ok (tt, empty_over h).
Proof.
  unfold PersistentSkiplist_empty.
  rewrite bind_modify.
  erewrite bind_Ok_intro by apply MakeNode_eq.
  rewrite bind_modify.
  erewrite bind_Ok_intro by apply MakeNode_eq.
  rewrite bind_modify.
  cbn [heap raw_object set_current_level set_heap set_head set_tail add_log
       current_level current_size head tail rand_calls log String.length].
  rewrite length_app, Nat.add_1_r. cbn [List.length].
  rewrite <- app_assoc. cbn [app].
  change (Node_new EmptyString EmptyString max_level)
    with (sentinel (replicate (Z.to_nat max_level) NULL)
                   (replicate (Z.to_nat max_level) NULL)).
  erewrite bind_Ok_intro.
  2:{ apply (link_sentinels h _ _ _ _ _ 0%nat);
      rewrite length_replicate; reflexivity. }
  rewrite !fill_sentinel.
  rewrite bind_gets. cbn [head].
  erewrite bind_Ok_intro.
  2:{ eapply load_eq; [apply lookup_slot0|]. reflexivity. }
  reflexivity.
Qed.

(** ** Size accounting (C2) *)

Lemma from_empty_unfold cmp rand fuel ops :
  from_empty cmp rand fuel ops =
  bind PersistentSkiplist_empty (fun _ => run_ops cmp rand fuel ops) (raw_object []).
Proof. unfold from_empty. reflexivity. Qed.

(** C2, as the code has it.  In every state reached from the freshly
    constructed empty skiplist by a sequence of [Insert] and [Erase] calls,
    [current_size], which is what [ApproximateMemoryUsage] returns, is the sum
    modulo 2^64 of key length plus value length over all the [Insert] calls
    made; [Erase] leaves it unchanged. *)
Theorem current_size_counts_inserted_bytes
  (cmp : string -> string -> Z) (rand : nat -> Z) (fuel : nat) (ops : list Op) (s : State)
  (Hrun : from_empty cmp rand fuel ops = Ok (tt, s)) :
  current_size s = wrap_size (inserted_bytes ops)
  /\ ApproximateMemoryUsage s = Ok (wrap_size (inserted_bytes ops), s)
  /\ forall first last s',
       Erase fuel first last s = Ok (tt, s') -> current_size s' = current_size s.
Proof.
  rewrite from_empty_unfold in Hrun.
  apply bind_Ok in Hrun as (u & s0 & E0 & Hrun). destruct u.
  apply empty_current_size in E0.
  assert (Hs : current_size s = wrap_size (inserted_bytes ops)).
  { rewrite (run_ops_current_size cmp rand fuel ops 0 s0 s Hrun); [reflexivity|].
    rewrite E0. reflexivity. }
  split; [exact Hs|]. split.
  - unfold ApproximateMemoryUsage, gets. rewrite Hs. reflexivity.
  - intros first last s' He. eapply Erase_current_size; eauto.
Qed.

(** ** Sentinel keys and the comparator (C8), adoption of one node (C10) *)

Lemma empty_over_head_slot h :
  heap (empty_over h) !! List.length h
  = Some (sentinel (replicate (Z.to_nat max_level) (Some (S (List.length h))))
                   (replicate (Z.to_nat max_level) NULL)).
Proof. apply lookup_slot0. Qed.

Lemma empty_over_tail_slot h :
  heap (empty_over h) !! S (List.length h)
  = Some (sentinel (replicate (Z.to_nat max_level) NULL)
                   (replicate (Z.to_nat max_level) (Some (List.length h)))).
Proof. apply lookup_slot1. Qed.

Lemma vec_get_replicate (q : ptr) (i : Z) :
  (0 <= i < max_level)%Z -> vec_get (replicate (Z.to_nat max_level) q) i = Some q.
Proof.
  intros Hi. unfold vec_get, in_range. rewrite length_replicate.
  replace ((0 <=? i)%Z && (i <? Z.of_nat (Z.to_nat max_level))%Z) with true.
  - apply lookup_replicate_2. unfold max_level in *. lia.
  - symmetry. apply andb_true_intro.
    split; [apply Z.leb_le|apply Z.ltb_lt]; unfold max_level in *; lia.
Qed.

(** [Find] on a skiplist whose sentinels are linked to each other and whose
    [current_level] is 0: the search does not descend, takes [head->next[0]],
    which is [tail], and hands the key of [tail] to the comparator. *)
Lemma Find_on_unlinked_sentinels cmp fuel k h lg :
  Find cmp fuel k (mkState (heap (empty_over h)) 0 0 (Some (List.length h))
                     (Some (S (List.length h))) O lg)
  = Ok (if (cmp k EmptyString =? 0)%Z then Some (S (List.length h)) else NULL,
        mkState (heap (empty_over h)) 0 0 (Some (List.length h))
          (Some (S (List.length h))) O
          (lg ++ [EvCompare ArgKey (KeyOf (S (List.length h)))])).
Proof.
  unfold Find, FindGreaterOrEqual.
  repeat first [rewrite bind_assoc | rewrite bind_gets].
  cbn [head current_level]. change (Z.to_nat 0) with O. cbn [descend].
  rewrite bind_ret.
  erewrite bind_Ok_intro.
  2:{ eapply load_eq; [apply empty_over_head_slot|].
      apply vec_get_replicate. unfold max_level. lia. }
  unfold compare_arg_node. rewrite !bind_assoc.
  unfold bind at 1. unfold deref. cbn [heap]. rewrite empty_over_tail_slot.
  unfold bind, emit, modify, ret. cbn [fst snd key sentinel].
  destruct (cmp k EmptyString =? 0)%Z; reflexivity.
Qed.

Lemma compare_nodes_eq cmp a b s n m :
  heap s !! a = Some n -> heap s !! b = Some m ->
  compare_nodes cmp (Some a) (Some b) s
  = Ok (cmp (key n) (key m), add_log (EvCompare (KeyOf a) (KeyOf b)) s).
Proof.
  intros Ha Hb. unfold compare_nodes, bind, deref. rewrite Ha, Hb. reflexivity.
Qed.

(** Adoption over a one-node chain in any memory, on a comparator
    that does not order the node's key below itself: the loop body never
    runs, the result is the state of the empty constructor (both sentinels
    linked to each other at every level, the adopted node untouched,
    [current_level] 0), and every later [Find] of a key that does not compare
    equal to the empty key of the sentinels returns null. *)
Theorem adopt_single_node_links_nothing
  (cmp : string -> string -> Z) (fuel : nat) (h : list Node) (p : nat) (n : Node)
  (Hp : h !! p = Some n)
  (Hrefl : (0 <= cmp (key n) (key n))%Z) :
  exists s,
    PersistentSkiplist_adopt cmp (S fuel) (Some p) (Some p) (raw_object h) = Ok (tt, s)
    /\ s = add_log (EvCompare (KeyOf p) (KeyOf p)) (empty_over h)
    /\ current_level s = 0
    /\ heap s !! p = Some n
    /\ (forall i, (0 <= i < max_level)%Z ->
          load Fwd (head s) i s = Ok (tail s, s) /\ load Bwd (tail s) i s = Ok (head s, s))
    /\ (forall fuel' k, cmp k EmptyString <> 0%Z ->
          exists s', Find cmp fuel' k s = Ok (NULL, s')).
Proof.
  assert (Hheap : heap (empty_over h) !! p = Some n).
  { cbn [heap empty_over]. apply lookup_app_l_Some. exact Hp. }
  exists (add_log (EvCompare (KeyOf p) (KeyOf p)) (empty_over h)).
  split; [|split; [reflexivity|split; [reflexivity|split; [exact Hheap|split]]]].
  - unfold PersistentSkiplist_adopt.
    erewrite bind_Ok_intro by apply PersistentSkiplist_empty_eq.
    rewrite bind_modify.
    change (set_current_level 0 (empty_over h)) with (empty_over h).
    cbn [adopt_loop].
    erewrite bind_Ok_intro by (apply compare_nodes_eq; exact Hheap).
    replace (cmp (key n) (key n) <? 0)%Z with false; [reflexivity|].
    symmetry. apply Z.ltb_ge. exact Hrefl.
  - intros i Hi. cbn [head tail add_log empty_over]. split.
    + eapply load_eq; [apply empty_over_head_slot|]. apply vec_get_replicate. exact Hi.
    + eapply load_eq; [apply empty_over_tail_slot|]. apply vec_get_replicate. exact Hi.
  - intros fuel' k Hk.
    eexists.
    change (add_log (EvCompare (KeyOf p) (KeyOf p)) (empty_over h))
      with (mkState (heap (empty_over h)) 0 0 (Some (List.length h))
              (Some (S (List.length h))) O
              (log (empty_over h) ++ [EvCompare (KeyOf p) (KeyOf p)])).
    rewrite Find_on_unlinked_sentinels.
    replace (cmp k EmptyString =? 0)%Z with false; [reflexivity|].
    symmetry. apply Z.eqb_neq. exact Hk.
Qed.

(** C8. On the freshly constructed empty skiplist, for every key and every
    comparator, [Find] passes the key of the [tail] sentinel (node 1) to the
    comparator, and returns that sentinel when the comparator reports
    equality. *)
Theorem Find_compares_tail_key (cmp : string -> string -> Z) (fuel : nat) (k : string) :
  PersistentSkiplist_empty (raw_object []) = Ok (tt, empty_over [])
  /\ tail (empty_over []) = Some 1%nat
  /\ Find cmp fuel k (empty_over [])
     = Ok (if (cmp k EmptyString =? 0)%Z then Some 1%nat else NULL,
           add_log (EvCompare ArgKey (KeyOf 1)) (empty_over [])).
Proof.
  split; [apply PersistentSkiplist_empty_eq|]. split; [reflexivity|].
  apply (Find_on_unlinked_sentinels cmp fuel k [] (log (empty_over []))).
Qed.

Section ConcreteRuns.
Local Open Scope string_scope.

Lemma current_size_counts_inserted_bytes_witness :
  exists s,
    from_empty bytewise rand_flat 4
      [OpInsert "a" "1"; OpInsert "b" "2"; OpErase (Some 2%nat) (Some 2%nat)] = Ok (tt, s)
    /\ current_size s = 4.
Proof.
  eexists. split.
  - vm_compute. reflexivity.
  - refine (proj1 (current_size_counts_inserted_bytes bytewise rand_flat 4
                     [OpInsert "a" "1"; OpInsert "b" "2"; OpErase (Some 2%nat) (Some 2%nat)]
                     _ _)).
    vm_compute. reflexivity.
Defined.

(** C2 as stated fails: after inserting ("a","1") and ("b","2") and erasing
    the node of "a", the only live node carries 2 bytes while [current_size]
    is still 4. *)
Lemma current_size_exceeds_live_bytes :
  exists s l,
    from_empty bytewise rand_flat 4
      [OpInsert "a" "1"; OpInsert "b" "2"; OpErase (Some 2%nat) (Some 2%nat)] = Ok (tt, s)
    /\ live_nodes 4 s = Some l
    /\ sumZ (map (node_bytes s) l) = 2
    /\ current_size s = 4
    /\ current_size s <> sumZ (map (node_bytes s) l).
Proof.
  eexists. eexists. split; [vm_compute; reflexivity|].
  split; [vm_compute; reflexivity|].
  split; [vm_compute; reflexivity|].
  split; [vm_compute; reflexivity|].
  vm_compute. discriminate.
Qed.

(** ** Duplicate keys (C1) *)

(** C1. Inserting the key "k" twice into the empty skiplist: the second
    [Insert] links the newer node between the older node's predecessor and
    successor, so the older node is no longer met on the [next[0]] walk from
    [head]; only the newer node is, and [Find] returns it.  When the older
    node is taller, it stays linked at level 1 while level 0 passes it by. *)
Theorem duplicate_insert_unlinks_older :
  (exists s s',
     from_empty bytewise rand_flat 4 [OpInsert "k" "v1"; OpInsert "k" "v2"] = Ok (tt, s)
     /\ node_key s 2 = "k" /\ node_key s 3 = "k"
     /\ live_nodes 4 s = Some [3%nat]
     /\ Find bytewise 4 "k" s = Ok (Some 3%nat, s'))
  /\ (exists s,
     from_empty bytewise rand_tall_first 4 [OpInsert "k" "v1"; OpInsert "k" "v2"] = Ok (tt, s)
     /\ live_nodes 4 s = Some [3%nat]
     /\ load Fwd (head s) 0 s = Ok (Some 3%nat, s)
     /\ load Fwd (head s) 1 s = Ok (Some 2%nat, s)).
Proof.
  split.
  - eexists. eexists. split; [vm_compute; reflexivity|].
    repeat split; vm_compute; reflexivity.
  - eexists. split; [vm_compute; reflexivity|].
    repeat split; vm_compute; reflexivity.
Qed.

(** ** The level counter (C3) *)

(** C3. After [Erase] of one of two level-1 nodes the closing loop has taken
    [current_level] to 0 although a node of level 1 is still live; and when
    [Erase] removes the only node the loop decrements [current_level] past 0
    (to 2^64 - 1 on a [size_t]) and then indexes [head->next] out of range. *)
Theorem erase_shrinks_below_live_level :
  (exists s,
     from_empty bytewise rand_flat 4
       [OpInsert "a" "1"; OpInsert "b" "2"; OpErase (Some 2%nat) (Some 2%nat)] = Ok (tt, s)
     /\ live_nodes 4 s = Some [3%nat]
     /\ node_level s 3 = 1
     /\ current_level s = 0)
  /\ (exists s1 s2 s3,
     from_empty bytewise rand_flat 4 [OpInsert "a" "1"] = Ok (tt, s1)
     /\ unlink 4 (Some 2%nat) (Some 2%nat) s1 = Ok (tt, s2)
     /\ current_level s2 = 1
     /\ (let* c1 := top_level_empty in
         let* _ := decrement_level in
         let* c2 := top_level_empty in
         let* _ := decrement_level in
         ret (c1, c2)) s2 = Ok ((true, true), s3)
     /\ current_level s3 = 2 ^ 64 - 1
     /\ top_level_empty s3 = Err OutOfBounds
     /\ forall fuel, Erase (3 + fuel) (Some 2%nat) (Some 2%nat) s1 = Err OutOfBounds).
Proof.
  split.
  - eexists. split; [vm_compute; reflexivity|].
    repeat split; vm_compute; reflexivity.
  - do 3 eexists.
    split; [vm_compute; reflexivity|].
    split; [vm_compute; reflexivity|].
    split; [reflexivity|].
    split; [vm_compute; reflexivity|].
    split; [vm_compute; reflexivity|].
    split; [vm_compute; reflexivity|].
    intros fuel. vm_compute. reflexivity.
Qed.

(** ** Ordering of level 0 (C5) *)

(** C5. Insert "a", "b", "c", erase the node of "b", insert "z": [Erase] has
    left [current_level] at 0, so [FindGreaterOrEqual] does not descend and
    returns the first node; the [next[0]] walk from [head] reaches [tail] but
    yields z, a, c, which is not in non-decreasing order. *)
Theorem insert_after_erase_breaks_order :
  exists s1 s2 s,
    from_empty bytewise rand_flat 4
      [OpInsert "a" ""; OpInsert "b" ""; OpInsert "c" "";
       OpErase (Some 3%nat) (Some 3%nat)] = Ok (tt, s1)
    /\ current_level s1 = 0
    /\ option_map (map (node_key s1)) (live_nodes 4 s1) = Some ["a"; "c"]
    /\ FindGreaterOrEqual bytewise 4 "z" s1 = Ok (Some 2%nat, s2)
    /\ from_empty bytewise rand_flat 4
      [OpInsert "a" ""; OpInsert "b" ""; OpInsert "c" "";
       OpErase (Some 3%nat) (Some 3%nat); OpInsert "z" ""] = Ok (tt, s)
    /\ option_map (map (node_key s)) (live_nodes 4 s) = Some ["z"; "a"; "c"]
    /\ nondecreasing bytewise ["z"; "a"; "c"] = false.
Proof.
  do 3 eexists. split; [vm_compute; reflexivity|].
  split; [reflexivity|].
  split; [vm_compute; reflexivity|].
  split; [vm_compute; reflexivity|].
  split; [vm_compute; reflexivity|].
  split; vm_compute; reflexivity.
Qed.

(** C10. Adoption over a one-node chain (first == last), bytewise
    comparator: the loop body never runs, the adopted node is not linked (the
    walk along [next[0]] from [head] meets no node), [current_level] is 0,
    and [Find] of the node's own key returns null.  But not every [Find]
    returns null: [Find] of the empty string returns the [tail] sentinel,
    through the comparison with the key of [tail] that [Find] does not
    guard. *)
Theorem adopt_single_node_find_empty_key :
  exists s s1 s2,
    PersistentSkiplist_adopt bytewise 1 (Some 0%nat) (Some 0%nat)
      (raw_object [Node_new "a" "b" 1]) = Ok (tt, s)
    /\ current_level s = 0
    /\ live_nodes 1 s = Some []
    /\ Find bytewise 1 "a" s = Ok (NULL, s1)
    /\ tail s = Some 2%nat
    /\ Find bytewise 1 "" s = Ok (Some 2%nat, s2)
    /\ Some 2%nat <> NULL.
Proof.
  do 3 eexists. split; [vm_compute; reflexivity|].
  split; [reflexivity|]. split; [vm_compute; reflexivity|].
  split; [vm_compute; reflexivity|]. split; [reflexivity|].
  split; [vm_compute; reflexivity|]. discriminate.
Qed.

Lemma adopt_single_node_links_nothing_witness :
  [Node_new "a" "b" 1] !! 0%nat = Some (Node_new "a" "b" 1)
  /\ (0 <= bytewise "a" "a")%Z
  /\ exists s,
      PersistentSkiplist_adopt bytewise 1 (Some 0%nat) (Some 0%nat)
        (raw_object [Node_new "a" "b" 1]) = Ok (tt, s)
      /\ current_level s = 0
      /\ exists s', Find bytewise 1 "a" s = Ok (NULL, s').
Proof.
  split; [reflexivity|]. split; [vm_compute; discriminate|].
  destruct (adopt_single_node_links_nothing bytewise 0 [Node_new "a" "b" 1] 0
              (Node_new "a" "b" 1) eq_refl ltac:(vm_compute; discriminate))
    as (s & H1 & _ & H3 & _ & _ & H6).
  exists s. split; [exact H1|]. split; [exact H3|].
  apply (H6 1%nat "a"). vm_compute. discriminate.
Defined.

(** C8, the consequences on the empty skiplist under the bytewise
    comparator: [Find] of the empty string returns the sentinel, and [Insert]
    of the empty string follows [tail->next[0]], which is null, and
    dereferences it. *)
Lemma sentinel_key_compared_consequences :
  (exists s', Find bytewise 1 "" (empty_over []) = Ok (Some 1%nat, s'))
  /\ Insert bytewise rand_flat 1 "" "v" (empty_over []) = Err NullDeref
  /\ (exists p s', Insert bytewise rand_flat 1 "k" "v" (empty_over []) = Ok (p, s')
                   /\ In (EvCompare (KeyOf 1) ArgKey) (log s')).
Proof.
  split; [eexists; vm_compute; reflexivity|].
  split; [vm_compute; reflexivity|].
  do 2 eexists. split; [vm_compute; reflexivity|].
  vm_compute. tauto.
Qed.

End ConcreteRuns.

End SkiplistFacts.

Module IndexFacts.
Import Index.

(** ** Key parsing (C7) *)

Lemma digit_value_range c : is_digit c = true -> (0 <= digit_value c <= 9)%Z.
Proof.
  unfold is_digit, digit_value. cbv zeta. intros H.
  apply andb_true_iff in H as [A B]. apply Z.leb_le in A. apply Z.leb_le in B. lia.
Qed.

Lemma leading_digits_range str : Forall (fun d => (0 <= d <= 9)%Z) (leading_digits str).
Proof.
  induction str as [|c rest IH]; cbn [leading_digits]; [constructor|].
  destruct (is_digit c) eqn:E; constructor; [|exact IH].
  apply digit_value_range. exact E.
Qed.

Lemma fold_decimal_grows ds :
  Forall (fun d => (0 <= d <= 9)%Z) ds ->
  forall a, (0 <= a)%Z -> (a <= fold_left (fun acc d => acc * 10 + d) ds a)%Z.
Proof.
  induction 1 as [|d ds Hd _ IH]; intros a Ha; cbn [fold_left]; [lia|].
  specialize (IH (a * 10 + d)%Z). lia.
Qed.

Lemma fast_atoi_from_decimal str :
  forall val, (0 <= val < U32_MOD)%Z ->
    fast_atoi_from val str
    = if (fold_left (fun acc d => acc * 10 + d) (leading_digits str) val <? U32_MOD)%Z
      then Some (fold_left (fun acc d => acc * 10 + d) (leading_digits str) val)
      else None.
Proof.
  induction str as [|c rest IH]; intros val Hval; cbn [fast_atoi_from leading_digits].
  - cbn [fold_left]. replace (val <? U32_MOD)%Z with true; [reflexivity|].
    symmetry. apply Z.ltb_lt. lia.
  - destruct (is_digit c) eqn:E; cbn [fold_left].
    + pose proof (digit_value_range c E) as Hd.
      assert (H0 : (0 <= val * 10 + digit_value c)%Z) by lia.
      pose proof (fold_decimal_grows (leading_digits rest) (leading_digits_range rest)
                    (val * 10 + digit_value c)%Z H0) as Hg.
      destruct (val * 10 + digit_value c <? U32_MOD)%Z eqn:E1.
      * apply Z.ltb_lt in E1. apply IH. lia.
      * apply Z.ltb_ge in E1.
        replace (fold_left (fun acc d => acc * 10 + d) (leading_digits rest)
                   (val * 10 + digit_value c) <? U32_MOD)%Z
          with false; [reflexivity|].
        symmetry. apply Z.ltb_ge. lia.
    + replace (val <? U32_MOD)%Z with true; [reflexivity|].
      symmetry. apply Z.ltb_lt. lia.
Qed.

Lemma fast_atoi_decimal str :
  fast_atoi str
  = if (decimal (leading_digits str) <? U32_MOD)%Z
    then Some (decimal (leading_digits str)) else None.
Proof.
  unfold fast_atoi, decimal. apply fast_atoi_from_decimal.
  split; [lia|reflexivity].
Qed.

Section WithTree.
Variable Tree : Type.
Variable tree_search : Tree -> Z -> MetaPtr.
Variable tree_insert : Tree -> Z -> MetaPtr -> Tree.
Variable tree_update : Tree -> Z -> Z -> MetaPtr -> Tree.
Variable sizeof_IndexMeta : Z.

Local Abbreviation Insert := (Index.Insert Tree tree_insert sizeof_IndexMeta).
Local Abbreviation Update := (Index.Update Tree tree_update).
Local Abbreviation Get := (Index.Get Tree tree_search).
Local Abbreviation drain := (Index.drain Tree tree_insert tree_update sizeof_IndexMeta).
Local Abbreviation Runner_turn :=
  (Index.Runner_turn Tree tree_insert tree_update sizeof_IndexMeta).
Local Abbreviation apply_entry := (Index.apply_entry Tree tree_insert tree_update).
Local Abbreviation entry_events := (Index.entry_events sizeof_IndexMeta).
Local Abbreviation AddQueue := (Index.AddQueue Tree).
Local Abbreviation AsyncInsert := (Index.AsyncInsert Tree).
Local Abbreviation Completed := (Index.Completed Tree).

(** C7. [Get] hands [fast_atoi] the pointer of the slice and not its
    length, so what it parses are the bytes in memory at that pointer, of
    which the argument is only the first [size()]: whatever the length, the
    tree is consulted with the value of the leading decimal digits found in
    memory (no result where they denote more than [UINT32_MAX]).  For the
    slice of the first 3 bytes of the buffer "12345" the argument is "123",
    whose leading digits denote 123, and the tree is consulted with 12345.
    For the slices over the whole buffers "12345xyz", "" and "007" it is
    consulted with 12345, 0 and 7. *)
Theorem Get_reads_past_slice_end (k : Slice) (s : State Tree) :
  Get k s
  = (if (decimal (leading_digits (data_ k)) <? U32_MOD)%Z
     then Some (tree_search (tree_ s) (decimal (leading_digits (data_ k))),
                emit Tree (EvTreeSearch (decimal (leading_digits (data_ k)))) s)
     else None)
  /\ (forall n, Get (mkSlice (data_ k) n) s = Get k s)
  /\ slice_bytes (mkSlice "12345" 3) = "123"%string
  /\ decimal (leading_digits (slice_bytes (mkSlice "12345" 3))) = 123%Z
  /\ Get (mkSlice "12345" 3) s
     = Some (tree_search (tree_ s) 12345, emit Tree (EvTreeSearch 12345) s)
  /\ Get (Slice_of "12345xyz") s
     = Some (tree_search (tree_ s) 12345, emit Tree (EvTreeSearch 12345) s)
  /\ Get (Slice_of "") s = Some (tree_search (tree_ s) 0, emit Tree (EvTreeSearch 0) s)
  /\ Get (Slice_of "007") s = Some (tree_search (tree_ s) 7, emit Tree (EvTreeSearch 7) s).
Proof.
  split; [|repeat split].
  unfold Index.Get. rewrite fast_atoi_decimal.
  destruct (decimal (leading_digits (data_ k)) <? U32_MOD)%Z; reflexivity.
Qed.

(** ** Flush before publish (C4) *)

(** C4. [Insert(key, meta)] emits exactly a flush of [sizeof(IndexMeta)] bytes
    at [meta], a flush of the 4 bytes of [key], and [tree.insert(key, meta)],
    in this order; so the flush of the metadata block comes before the
    [tree.insert] that publishes it and nothing comes after. *)
Theorem Insert_flushes_before_publishing (k : Z) (m : MetaPtr) (s : State Tree) :
  log (Insert k m s)
  = log s ++ [EvFlush (MetaBlock m) sizeof_IndexMeta;
              EvFlush (KeyWord k) 4;
              EvTreeInsert k m]
  /\ tree_ (Insert k m s) = tree_insert (tree_ s) k m
  /\ queue_ (Insert k m s) = queue_ s
  /\ forall pre post,
       [EvFlush (MetaBlock m) sizeof_IndexMeta; EvFlush (KeyWord k) 4; EvTreeInsert k m]
       = pre ++ EvTreeInsert k m :: post ->
       pre = [EvFlush (MetaBlock m) sizeof_IndexMeta; EvFlush (KeyWord k) 4]
       /\ post = [].
Proof.
  split; [|split; [reflexivity|split; [reflexivity|]]].
  - unfold Index.Insert. simpl. rewrite <- !app_assoc. reflexivity.
  - intros pre post H.
    destruct pre as [|e1 pre]; [discriminate|].
    destruct pre as [|e2 pre]; [discriminate|].
    destruct pre as [|e3 pre].
    + simpl in H. inversion H; subst. auto.
    + simpl in H. inversion H as [[H1 H2 H3 H4]].
      destruct pre; discriminate.
Qed.

(** ** The background consumer (C6) *)

Lemma drain_spec (q : list KeyAndMeta) :
  forall (fuel : nat) (s : State Tree),
    queue_ s = q -> (List.length q <= fuel)%nat ->
    exists s',
      drain fuel s = Ok s'
      /\ queue_ s' = []
      /\ log s' = log s ++ concat (map entry_events q)
      /\ tree_ s' = fold_left apply_entry q (tree_ s)
      /\ bgstarted_ s' = bgstarted_ s.
Proof.
  induction q as [|e q IH]; intros fuel s Hq Hfuel.
  - exists s. destruct fuel; simpl; rewrite Hq; simpl;
      rewrite ?app_nil_r; auto.
  - destruct fuel as [|fuel]; [simpl in Hfuel; lia|].
    assert (Hlen : (List.length q <= fuel)%nat) by (simpl in Hfuel; lia).
    cbn [Index.drain map concat fold_left]. rewrite Hq.
    destruct (prev_file_number e =? 0)%Z eqn:Hf.
    + destruct (IH fuel (Insert (key e) (meta e) (set_queue Tree q s)) eq_refl Hlen)
        as (s' & H1 & H2 & H3 & H4 & H5).
      exists s'. split; [exact H1|]. split; [exact H2|].
      split; [|split; [|exact H5]].
      * rewrite H3.
        replace (entry_events e)
          with [EvFlush (MetaBlock (meta e)) sizeof_IndexMeta;
                EvFlush (KeyWord (key e)) 4; EvTreeInsert (key e) (meta e)]
          by (unfold Index.entry_events; rewrite Hf; reflexivity).
        cbn. rewrite <- !app_assoc. reflexivity.
      * rewrite H4.
        replace (apply_entry (tree_ s) e) with (tree_insert (tree_ s) (key e) (meta e))
          by (unfold Index.apply_entry; rewrite Hf; reflexivity).
        reflexivity.
    + destruct (IH fuel (Update (key e) (prev_file_number e) (meta e) (set_queue Tree q s))
                  eq_refl Hlen)
        as (s' & H1 & H2 & H3 & H4 & H5).
      exists s'. split; [exact H1|]. split; [exact H2|].
      split; [|split; [|exact H5]].
      * rewrite H3.
        replace (entry_events e)
          with [EvTreeUpdate (key e) (prev_file_number e) (meta e)]
          by (unfold Index.entry_events; rewrite Hf; reflexivity).
        cbn. rewrite <- !app_assoc. reflexivity.
      * rewrite H4.
        replace (apply_entry (tree_ s) e)
          with (tree_update (tree_ s) (key e) (prev_file_number e) (meta e))
          by (unfold Index.apply_entry; rewrite Hf; reflexivity).
        reflexivity.
Qed.

(** C6. With entries pending, one turn of [Runner] takes them from the front
    of the queue in order, does [Insert(key, meta)] for an entry whose
    [prev_file_number] is 0 and [Update(key, prev_file_number, meta)] for any
    other, and unlocks with the queue empty.  [AsyncInsert] puts its entry at
    the back. *)
Theorem Runner_turn_drains_in_order
  (s : State Tree) (e : KeyAndMeta) (q : list KeyAndMeta) (fuel : nat)
  (Hq : queue_ s = e :: q)
  (Hfuel : (List.length (e :: q) <= fuel)%nat) :
  exists s',
    Runner_turn fuel s = Completed s'
    /\ queue_ s' = []
    /\ log s' = log s ++ [EvLock] ++ concat (map entry_events (e :: q)) ++ [EvUnlock]
    /\ tree_ s' = fold_left apply_entry (e :: q) (tree_ s)
    /\ forall e', queue_ (AsyncInsert e' s) = e :: q ++ [e'].
Proof.
  destruct (drain_spec (e :: q) fuel (emit Tree EvLock s) Hq Hfuel)
    as (s1 & H1 & H2 & H3 & H4 & H5).
  exists (emit Tree EvUnlock s1).
  split; [|split; [exact H2|split; [|split; [exact H4|]]]].
  - unfold Index.Runner_turn. cbn [queue_ emit]. rewrite Hq.
    rewrite H1, H2. reflexivity.
  - cbn [log emit]. rewrite H3. cbn [log emit]. rewrite <- !app_assoc. reflexivity.
  - intros e'. unfold Index.AsyncInsert, start_background.
    cbn [bgstarted_ emit].
    destruct (bgstarted_ s);
      cbn [queue_ emit set_bgstarted set_queue]; rewrite Hq;
      cbn [queue_ emit set_bgstarted set_queue]; rewrite Hq; reflexivity.
Qed.

(** ** Bulk handoff (C9) *)

(** C9. When the queue of the index is empty, [AddQueue(batch)] leaves it
    holding the batch as the caller built it, in the same order, and hands the
    caller the empty queue back. *)
Theorem AddQueue_keeps_batch_order
  (batch : list KeyAndMeta) (s : State Tree)
  (Hempty : queue_ s = []) :
  exists s',
    AddQueue batch s = Ok (s', [])
    /\ queue_ s' = batch
    /\ tree_ s' = tree_ s
    /\ bgstarted_ s' = true.
Proof.
  unfold Index.AddQueue. cbn [queue_ emit]. rewrite Hempty.
  eexists. split; [reflexivity|].
  unfold start_background. cbn [bgstarted_ set_queue emit].
  destruct (bgstarted_ s) eqn:Hb; repeat split; try reflexivity.
  exact Hb.
Qed.

(** A queue that is not empty trips the assertion of [AddQueue]. *)
Lemma AddQueue_asserts_empty_queue (batch : list KeyAndMeta) (s : State Tree) :
  queue_ s <> [] -> AddQueue batch s = Err AssertFail.
Proof.
  intros H. unfold Index.AddQueue. cbn [queue_ emit].
  destruct (queue_ s); [contradiction|reflexivity].
Qed.

End WithTree.

(** ** Concrete runs on the journal tree *)

Lemma Insert_flushes_before_publishing_witness :
  [EvFlush (MetaBlock 1000) 24; EvFlush (KeyWord 42) 4; EvTreeInsert 42 1000]
  = [EvFlush (MetaBlock 1000) 24; EvFlush (KeyWord 42) 4] ++ EvTreeInsert 42 1000 :: []
  /\ ([EvFlush (MetaBlock 1000) 24; EvFlush (KeyWord 42) 4]
      = [EvFlush (MetaBlock 1000) 24; EvFlush (KeyWord 42) 4]
      /\ @nil Event = []).
Proof.
  split; [reflexivity|].
  exact (proj2 (proj2 (proj2
           (Insert_flushes_before_publishing (list Event) journal_insert 24 42 1000
              (Index_new (list Event) []))))
           [EvFlush (MetaBlock 1000) 24; EvFlush (KeyWord 42) 4] [] eq_refl).
Defined.

Lemma Runner_turn_drains_in_order_witness :
  let s := set_queue (list Event)
             [mkKeyAndMeta 42 0 1000; mkKeyAndMeta 42 7 2000]
             (Index_new (list Event) []) in
  queue_ s = [mkKeyAndMeta 42 0 1000; mkKeyAndMeta 42 7 2000]
  /\ (2 <= 2)%nat
  /\ exists s',
      Runner_turn (list Event) journal_insert journal_update 24 2 s
      = Completed (list Event) s'
      /\ queue_ s' = []
      /\ tree_ s' = [EvTreeInsert 42 1000; EvTreeUpdate 42 7 2000].
Proof.
  intros s. split; [reflexivity|]. split; [lia|].
  destruct (Runner_turn_drains_in_order (list Event) journal_insert journal_update 24 s
              (mkKeyAndMeta 42 0 1000) [mkKeyAndMeta 42 7 2000] 2 eq_refl (le_n 2))
    as (s' & H1 & H2 & _ & H4 & _).
  exists s'. split; [exact H1|]. split; [exact H2|]. exact H4.
Defined.

Lemma AddQueue_keeps_batch_order_witness :
  queue_ (Index_new (list Event) []) = []
  /\ exists s',
      AddQueue (list Event) [mkKeyAndMeta 1 0 10; mkKeyAndMeta 2 0 20]
        (Index_new (list Event) []) = Ok (s', [])
      /\ queue_ s' = [mkKeyAndMeta 1 0 10; mkKeyAndMeta 2 0 20].
Proof.
  split; [reflexivity|].
  destruct (AddQueue_keeps_batch_order (list Event)
              [mkKeyAndMeta 1 0 10; mkKeyAndMeta 2 0 20]
              (Index_new (list Event) []) eq_refl)
    as (s' & H1 & H2 & _).
  exists s'. split; [exact H1|exact H2].
Defined.

End IndexFacts.

Module SkiplistMore.
Import Skiplist SkiplistFacts.
Local Open Scope skip_scope.

(** ** [RandomLevel] *)

Lemma RandomLevel_loop_range rand fuel :
  forall result s lvl s',
    RandomLevel_loop rand fuel result s = Ok (lvl, s') ->
    (1 <= result <= max_level)%Z -> (result <= lvl <= max_level)%Z.
Proof.
  induction fuel as [|fuel IH]; intros result s lvl s' H Hr; simpl in H; [discriminate|].
  apply bind_Ok in H as (r & s1 & _ & H).
  destruct (r <? level_probability)%Z; simpl in H.
  - destruct (result <? max_level)%Z eqn:Hlt.
    + apply Z.ltb_lt in Hlt.
      assert (Hw : wrap_size (result + 1) = (result + 1)%Z).
      { unfold wrap_size, SIZE_MOD. apply Z.mod_small. unfold max_level in *. lia. }
      rewrite Hw in H. apply IH in H; unfold max_level in *; lia.
    + inversion H; subst. lia.
  - inversion H; subst. lia.
Qed.

Lemma RandomLevel_loop_spec rand fuel :
  forall result s,
    (1 <= result <= max_level)%Z ->
    (Z.to_nat (max_level + 1 - result) <= fuel)%nat ->
    exists lvl,
      RandomLevel_loop rand fuel result s
      = Ok (lvl, set_rand_calls (rand_calls s + Z.to_nat (lvl - result + 1)) s)
      /\ (result <= lvl <= max_level)%Z
      /\ (forall j, (j < Z.to_nat (lvl - result))%nat ->
            (rand (rand_calls s + j)%nat < level_probability)%Z)
      /\ ((lvl < max_level)%Z ->
            (level_probability <= rand (rand_calls s + Z.to_nat (lvl - result))%nat)%Z).
Proof.
  induction fuel as [|fuel IH]; intros result s Hr Hf.
  - unfold max_level in *. lia.
  - cbn [RandomLevel_loop]. unfold bind at 1, call_rand at 1.
    destruct (rand (rand_calls s) <? level_probability)%Z eqn:Hp;
      [destruct (result <? max_level)%Z eqn:Hlt|]; cbn [andb].
    + apply Z.ltb_lt in Hlt, Hp.
      assert (Hw : wrap_size (result + 1) = (result + 1)%Z).
      { unfold wrap_size, SIZE_MOD. apply Z.mod_small. unfold max_level in *. lia. }
      rewrite Hw.
      destruct (IH (result + 1)%Z (set_rand_calls (S (rand_calls s)) s))
        as (lvl & E & Hl & Hbelow & Hstop).
      { lia. } { unfold max_level in *. lia. }
      exists lvl. rewrite E. cbn [rand_calls set_rand_calls] in *.
      split; [|split; [lia|split]].
      * unfold set_rand_calls. cbn. do 3 f_equal. lia.
      * intros j Hj. destruct j as [|j].
        -- rewrite Nat.add_0_r. exact Hp.
        -- replace (rand_calls s + S j)%nat with (S (rand_calls s) + j)%nat by lia.
           apply Hbelow. lia.
      * intros Hlvl.
        replace (rand_calls s + Z.to_nat (lvl - result))%nat
          with (S (rand_calls s) + Z.to_nat (lvl - (result + 1)))%nat by lia.
        apply Hstop. exact Hlvl.
    + apply Z.ltb_ge in Hlt.
      exists result. replace (result - result + 1)%Z with 1%Z by lia.
      split; [|split; [lia|split]].
      * unfold ret, set_rand_calls. cbn. do 3 f_equal. lia.
      * intros j Hj. lia.
      * intros Hlvl. lia.
    + apply Z.ltb_ge in Hp.
      exists result. replace (result - result + 1)%Z with 1%Z by lia.
      replace (result - result)%Z with 0%Z by lia.
      split; [|split; [lia|split]].
      * unfold ret, set_rand_calls. cbn. do 3 f_equal. lia.
      * intros j Hj. cbn in Hj. lia.
      * intros _. cbn. rewrite Nat.add_0_r. exact Hp.
Qed.

(** X1. With a loop budget of [max_level] draws, [RandomLevel] returns; the
    level is between 1 and [max_level]; it is one more than the number of
    leading draws below [RAND_MAX / 4], cut at [max_level]; and it consumes
    exactly as many draws of [rand()] as the level it returns, touching
    nothing else of the state. *)
Theorem RandomLevel_counts_low_draws
  (rand : nat -> Z) (fuel : nat) (s : State)
  (Hfuel : (Z.to_nat max_level <= fuel)%nat) :
  exists lvl,
    RandomLevel rand fuel s = Ok (lvl, set_rand_calls (rand_calls s + Z.to_nat lvl) s)
    /\ (1 <= lvl <= max_level)%Z
    /\ (forall j, (j < Z.to_nat (lvl - 1))%nat ->
          (rand (rand_calls s + j)%nat < RAND_MAX / 4)%Z)
    /\ ((lvl < max_level)%Z ->
          (RAND_MAX / 4 <= rand (rand_calls s + Z.to_nat (lvl - 1))%nat)%Z).
Proof.
  destruct (RandomLevel_loop_spec rand fuel 1 s) as (lvl & E & Hl & Hb & Hs).
  { unfold max_level. lia. } { unfold max_level in *. lia. }
  exists lvl. unfold RandomLevel. rewrite E.
  replace (lvl - 1 + 1)%Z with lvl by lia.
  split; [reflexivity|]. split; [exact Hl|]. split; [exact Hb|exact Hs].
Qed.


(** ** What the operations leave alone *)

Lemma same_mem_refl s : same_mem s s.
Proof. unfold same_mem. auto 10. Qed.

Lemma same_mem_log s e t : same_mem s t -> same_mem s (add_log e t).
Proof. unfold same_mem. cbn. auto. Qed.

Lemma keeps_nodes_refl s : keeps_nodes s s.
Proof. intros a n H. exists n. auto 10. Qed.

Lemma keeps_nodes_log s e t : keeps_nodes s t -> keeps_nodes s (add_log e t).
Proof. intros H a n Ha. apply (H a n Ha). Qed.

Lemma keeps_nodes_level s z t : keeps_nodes s t -> keeps_nodes s (set_current_level z t).
Proof. intros H a n Ha. apply (H a n Ha). Qed.

Lemma keeps_nodes_rand s z t : keeps_nodes s t -> keeps_nodes s (set_rand_calls z t).
Proof. intros H a n Ha. apply (H a n Ha). Qed.

Lemma keeps_nodes_size s z t : keeps_nodes s t -> keeps_nodes s (set_current_size z t).
Proof. intros H a n Ha. apply (H a n Ha). Qed.

Lemma keeps_nodes_alloc s n0 t :
  keeps_nodes s t -> keeps_nodes s (set_heap (heap t ++ [n0]) t).
Proof.
  intros H a n Ha. destruct (H a n Ha) as (n' & Hn' & Hrest).
  exists n'. split; [|exact Hrest]. cbn. apply lookup_app_l_Some. exact Hn'.
Qed.

(** A store keeps the contents when it writes in range; the model's [store]
    only ever writes through [vec_set], which keeps the length. *)
Lemma keeps_nodes_store_len s t d a0 n0 w :
  List.length w = List.length (links d n0) ->
  heap t !! a0 = Some n0 -> keeps_nodes s t ->
  keeps_nodes s (set_heap (<[a0 := with_links d w n0]> (heap t)) t).
Proof.
  intros Hw H0 H a n Ha. destruct (H a n Ha) as (n' & Hn' & Hk & Hv & Hl & Hnx & Hpv).
  cbn. destruct (decide (a0 = a)) as [->|Hne].
  - rewrite Hn' in H0. inversion H0; subst n0.
    exists (with_links d w n'). split.
    + apply list_lookup_insert_eq. eapply lookup_lt_Some; eauto.
    + destruct d; cbn in *; repeat split; congruence.
  - exists n'. split; [|auto 10]. rewrite list_lookup_insert_ne; auto.
Qed.

Lemma store_Ok d p i q s u s' :
  store d p i q s = Ok (u, s') ->
  exists a n, p = Some a /\ heap s !! a = Some n /\ in_range (links d n) i = true
    /\ s' = set_heap (<[a := with_links d (<[Z.to_nat i := q]> (links d n)) n]> (heap s)) s.
Proof.
  intros H. unfold store in H.
  apply bind_Ok in H as ([a n] & s1 & H1 & H2).
  apply deref_Ok in H1 as (-> & -> & Hn). cbn [fst snd] in H2.
  unfold vec_set in H2. destruct (in_range _ _) eqn:Hr; [|discriminate].
  inversion H2; subst. exists a, n. auto.
Qed.

(** Properties kept by everything but allocation and the size update. *)
Section Frame.
Variable P : State -> Prop.
Hypothesis P_log : forall e s, P s -> P (add_log e s).
Hypothesis P_level : forall z s, P s -> P (set_current_level z s).
Hypothesis P_rand : forall n s, P s -> P (set_rand_calls n s).
Hypothesis P_size : forall z s, P s -> P (set_current_size z s).
Hypothesis P_store : forall d a n i q s,
  heap s !! a = Some n -> in_range (links d n) i = true -> P s ->
  P (set_heap (<[a := with_links d (<[Z.to_nat i := q]> (links d n)) n]> (heap s)) s).

Lemma frame_store d p i q : preserves P (store d p i q).
Proof.
  intros s u s' H HP. apply store_Ok in H as (a & n & -> & Hn & Hr & ->).
  apply P_store; auto.
Qed.

Lemma frame_bind {A B} (m : M A) (k : A -> M B) :
  preserves P m -> (forall a, preserves P (k a)) -> preserves P (bind m k).
Proof.
  intros Hm Hk s b s' H HP.
  apply bind_Ok in H as (a & s1 & H1 & H2).
  eapply Hk; [exact H2|]. eapply Hm; eauto.
Qed.

Lemma frame_ret {A} (a : A) : preserves P (ret a).
Proof. intros s x s' H. inversion H; subst. auto. Qed.

Lemma frame_load d p i : preserves P (load d p i).
Proof.
  intros s x s' H HP. unfold load in H.
  apply bind_Ok in H as ([a n] & s1 & H1 & H2).
  apply deref_Ok in H1 as (-> & -> & Hn).
  destruct (vec_get _ _); [|discriminate]. inversion H2; subst. exact HP.
Qed.

Lemma frame_emit e : preserves P (emit e).
Proof. intros s x s' H. inversion H; subst. auto. Qed.

Lemma frame_skip_short fuel d bound idx :
  forall p, preserves P (skip_short fuel d bound idx p).
Proof.
  induction fuel as [|fuel IH]; intros p; cbn [skip_short].
  - intros s x s' H. discriminate.
  - apply frame_bind.
    + unfold load_level. apply frame_bind.
      * intros s x s' H HP. destruct x. apply deref_Ok in H as (-> & _). exact HP.
      * intros; apply frame_ret.
    + intros lvl. destruct (lvl <=? bound)%Z; [|apply frame_ret].
      apply frame_bind; [apply frame_load|]. intros; apply IH.
Qed.

Lemma frame_for_range {A} (body : Z -> A -> M A) :
  (forall i a, preserves P (body i a)) ->
  forall n i a, preserves P (for_range n i body a).
Proof.
  intros Hb n. induction n as [|n IH]; intros i a; cbn [for_range].
  - apply frame_ret.
  - apply frame_bind; [apply Hb|]. intros; apply IH.
Qed.

Lemma frame_unlink fuel first last : preserves P (unlink fuel first last).
Proof.
  unfold unlink.
  do 2 (apply frame_bind; [apply frame_load|intros ?]).
  apply frame_bind; [intros s x s' H HP; inversion H; subst; exact HP|intros ?].
  apply frame_bind; [|intros; apply frame_ret].
  apply frame_for_range. intros i lr.
  do 2 (apply frame_bind; [apply frame_store|intros ?]).
  apply frame_bind.
  { destruct (i =? 0)%Z; [|apply frame_ret].
    apply frame_bind; [apply frame_load|intros ?]. apply frame_emit. }
  intros ?.
  do 2 (apply frame_bind; [apply frame_skip_short|intros ?]).
  apply frame_ret.
Qed.

Lemma frame_Erase fuel first last : preserves P (Erase fuel first last).
Proof.
  unfold Erase. apply frame_bind; [apply frame_unlink|]. intros _.
  apply preserves_shrink; auto.
Qed.

Lemma frame_insert_links fuel new_node lvl np :
  preserves P
    (for_range (Z.to_nat lvl) 0
       (fun i (np : ptr * ptr) =>
          let* next_node := skip_short fuel Fwd i (i - 1) (fst np) in
          let* prev_node := skip_short fuel Bwd i (i - 1) (snd np) in
          let* _ := store Fwd new_node i next_node in
          let* _ := store Bwd next_node i new_node in
          let* _ := store Bwd new_node i prev_node in
          let* _ := store Fwd prev_node i new_node in
          let* _ := (if (i =? 0)%Z then
                       let* a := load Fwd new_node 0 in
                       let* _ := emit (EvFlush a SizeofPtr) in
                       let* b := load Fwd next_node 0 in
                       emit (EvFlush b SizeofPtr)
                     else ret tt) in
          ret (next_node, prev_node)) np).
Proof.
  apply frame_for_range. intros i a.
  do 2 (apply frame_bind; [apply frame_skip_short|intros ?]).
  do 4 (apply frame_bind; [apply frame_store|intros ?]).
  apply frame_bind; [|intros; apply frame_ret].
  destruct (i =? 0)%Z; [|apply frame_ret].
  apply frame_bind; [apply frame_load|intros ?].
  apply frame_bind; [apply frame_emit|intros ?].
  apply frame_bind; [apply frame_load|intros ?].
  apply frame_emit.
Qed.

End Frame.

Lemma keeps_nodes_store s d a n i q t :
  heap t !! a = Some n -> in_range (links d n) i = true -> keeps_nodes s t ->
  keeps_nodes s (set_heap (<[a := with_links d (<[Z.to_nat i := q]> (links d n)) n]> (heap t)) t).
Proof.
  intros Hn Hr H. apply keeps_nodes_store_len; auto. apply length_insert.
Qed.

End SkiplistMore.

Module SkiplistFrame.
Import Skiplist SkiplistFacts SkiplistMore.
Local Open Scope skip_scope.

(** ** [Find] *)

(** X2. [Find] only reads: when it returns, the memory and every member of
    the object are as before and the effect log has only grown; and a
    non-null result is the address of a node whose key the comparator reports
    equal to the key searched. *)
Theorem Find_reads_and_matches
  (cmp : string -> string -> Z) (fuel : nat) (k : string) (s : State)
  (r : ptr) (s' : State)
  (Hfind : Find cmp fuel k s = Ok (r, s')) :
  same_mem s s'
  /\ (exists evs, log s' = log s ++ evs)
  /\ (forall a, r = Some a -> exists n, heap s !! a = Some n /\ cmp k (key n) = 0%Z).
Proof.
  unfold Find in Hfind.
  apply bind_Ok in Hfind as (node & s1 & E1 & H).
  assert (M1 : same_mem s s1).
  { eapply (preserves_FindGreaterOrEqual (same_mem s)); [|exact E1|apply same_mem_refl].
    intros; apply same_mem_log; assumption. }
  assert (L1 : exists evs, log s1 = log s ++ evs).
  { eapply (preserves_FindGreaterOrEqual (fun t => exists evs, log t = log s ++ evs));
      [|exact E1|exists []; rewrite app_nil_r; reflexivity].
    intros e t (evs & Ht). exists (evs ++ [e]). cbn. rewrite Ht, app_assoc. reflexivity. }
  unfold compare_arg_node in H.
  apply bind_Ok in H as (c & s2 & E2 & H).
  apply bind_Ok in E2 as ([a n] & s3 & E3 & E2).
  apply deref_Ok in E3 as (-> & -> & Hn).
  apply bind_Ok in E2 as (u & s4 & E4 & E2).
  inversion E4; subst u s4. inversion E2; subst c s2. clear E4 E2.
  cbn [fst snd] in H.
  assert (Hs' : s' = add_log (EvCompare ArgKey (KeyOf a)) s1
                /\ r = if (cmp k (key n) =? 0)%Z then Some a else NULL).
  { destruct (cmp k (key n) =? 0)%Z; inversion H; subst; auto. }
  destruct Hs' as [-> ->].
  split; [apply same_mem_log; exact M1|]. split.
  - destruct L1 as (evs & Ht). exists (evs ++ [EvCompare ArgKey (KeyOf a)]).
    cbn. rewrite Ht, app_assoc. reflexivity.
  - intros b Hb. destruct (cmp k (key n) =? 0)%Z eqn:Hc; [|discriminate].
    inversion Hb; subst b. exists n. split.
    + destruct M1 as (Hh & _). rewrite <- Hh. exact Hn.
    + apply Z.eqb_eq. exact Hc.
Qed.

(** ** [Insert] *)

(** X3. When [Insert] returns, it returns the address of one new node, the
    first free address of the memory; that node holds the key and the value
    given and has a level between 1 and [max_level] with link vectors of that
    size; every node that was there before keeps its key, value, level and
    vector sizes; [head] and [tail] are unchanged and [current_level] is the
    larger of its old value and the new node's level. *)
Theorem Insert_allocates_one_node
  (cmp : string -> string -> Z) (rand : nat -> Z) (fuel : nat) (k v : string)
  (s : State) (p : ptr) (s' : State)
  (Hins : Insert cmp rand fuel k v s = Ok (p, s')) :
  p = Some (List.length (heap s))
  /\ List.length (heap s') = S (List.length (heap s))
  /\ (exists n, heap s' !! List.length (heap s) = Some n
        /\ key n = k /\ value n = v
        /\ (1 <= level n <= max_level)%Z
        /\ List.length (next n) = Z.to_nat (level n)
        /\ List.length (prev n) = Z.to_nat (level n)
        /\ current_level s' = Z.max (current_level s) (level n))
  /\ keeps_nodes s s'
  /\ head s' = head s /\ tail s' = tail s.
Proof.
  unfold Insert in Hins. rename Hins into H.
  set (Q0 := fun t : State =>
               heap t = heap s /\ current_level t = current_level s
               /\ head t = head s /\ tail t = tail s).
  assert (Q0_log : forall e t, Q0 t -> Q0 (add_log e t)) by (intros e t Ht; exact Ht).
  assert (Q0_rand : forall n t, Q0 t -> Q0 (set_rand_calls n t)) by (intros e t Ht; exact Ht).
  assert (Z0 : Q0 s) by (unfold Q0; auto).
  apply bind_Ok in H as (node & s1 & E1 & H).
  assert (Z1 : Q0 s1)
    by (eapply (preserves_FindGreaterOrEqual Q0); [exact Q0_log|exact E1|exact Z0]).
  apply bind_Ok in H as (lvl & s2 & E2 & H).
  assert (Z2 : Q0 s2)
    by (eapply (preserves_RandomLevel_loop Q0); [exact Q0_rand|exact E2|exact Z1]).
  apply RandomLevel_loop_range in E2; [|unfold max_level; lia].
  apply bind_Ok in H as (prev_node & s3 & E3 & H).
  assert (Z3 : Q0 s3) by (eapply (preserves_load Q0); [exact E3|exact Z2]).
  apply bind_Ok in H as (c0 & s4 & E4 & H).
  assert (Z4 : Q0 s4)
    by (eapply (preserves_compare_node_arg Q0); [exact Q0_log|exact E4|exact Z3]).
  apply bind_Ok in H as (next_node & s5 & E5 & H).
  assert (Z5 : Q0 s5).
  { destruct (c0 =? 0)%Z.
    - eapply (preserves_load Q0); [exact E5|exact Z4].
    - inversion E5; subst. exact Z4. }
  destruct Z5 as (Hheap & Hcl & Hhd & Htl).
  apply bind_Ok in H as (new_node & s6 & E6 & H).
  inversion E6; subst new_node s6. clear E6.
  apply bind_Ok in H as (cl & s7 & E7 & H).
  inversion E7; subst cl s7. clear E7.
  apply bind_Ok in H as (u & s8 & E8 & H).
  set (s6 := set_heap (heap s5 ++ [Node_new k v lvl]) s5) in *.
  assert (E8' : s8 = set_current_level (Z.max (current_level s) lvl) s6).
  { cbn [current_level set_heap] in E8. rewrite Hcl in E8.
    destruct (lvl >? current_level s)%Z eqn:Hgt; inversion E8; subst.
    - rewrite Z.max_r; [reflexivity|]. apply Z.gtb_lt in Hgt. lia.
    - rewrite Z.max_l; [|rewrite Z.gtb_ltb in Hgt; apply Z.ltb_ge in Hgt; lia].
      unfold set_current_level, s6, set_heap.
      cbn [heap current_level current_size head tail rand_calls log].
      rewrite Hcl. reflexivity. }
  clear E8. subst s8.
  set (s8 := set_current_level (Z.max (current_level s) lvl) s6) in *.
  set (Q1 := fun t : State =>
               keeps_nodes s8 t /\ List.length (heap t) = List.length (heap s8)
               /\ head t = head s8 /\ tail t = tail s8
               /\ current_level t = current_level s8).
  assert (Z8 : Q1 s8) by (unfold Q1; split; [apply keeps_nodes_refl|auto]).
  apply bind_Ok in H as (np & s9 & E9 & H).
  assert (Z9 : Q1 s9).
  { eapply (frame_insert_links Q1); [| |exact E9|exact Z8].
    - intros e t (A & B). split; [apply keeps_nodes_log; exact A|exact B].
    - intros d a n i q t Hn Hr (A & B & C). split; [apply keeps_nodes_store; auto|].
      split; [|exact C]. cbn. rewrite length_insert. exact B. }
  destruct Z9 as (K9 & L9 & Hd9 & Tl9 & Cl9).
  apply bind_Ok in H as ([b nb] & s10 & E10 & H).
  apply deref_Ok in E10 as (-> & Hb & Hnb). inversion Hb; subst b. clear Hb.
  apply bind_Ok in H as (sz & s11 & E11 & H).
  inversion E11; subst sz s11. clear E11.
  apply bind_Ok in H as (u' & s12 & E12 & H).
  inversion E12; subst u' s12. clear E12. inversion H; subst p s'. clear H.
  cbn [heap head tail current_level set_current_size].
  assert (Hnew : heap s8 !! List.length (heap s5) = Some (Node_new k v lvl)).
  { cbn. apply list_lookup_middle. reflexivity. }
  destruct (K9 _ _ Hnew) as (n' & Hn' & Hk & Hv & Hl & Hnx & Hpv).
  rewrite Hnb in Hn'. inversion Hn'; subst n'. clear Hn'.
  rewrite <- Hheap.
  split; [reflexivity|]. split.
  { rewrite L9. cbn. rewrite length_app. cbn. lia. }
  split.
  { exists nb. split; [exact Hnb|]. cbn in Hk, Hv, Hl, Hnx, Hpv.
    rewrite length_replicate in Hnx, Hpv.
    repeat split; try congruence; try lia.
    rewrite Cl9, Hl. reflexivity. }
  split.
  { intros a n Ha. rewrite <- Hheap in Ha.
    assert (Ha8 : heap s8 !! a = Some n) by (cbn; apply lookup_app_l_Some; exact Ha).
    exact (K9 _ _ Ha8). }
  split; [rewrite Hd9; exact Hhd|rewrite Tl9; exact Htl].
Qed.

(** ** [Erase] *)

(** X4. When [Erase] returns, no node has been freed or rewritten: the memory
    has the same size and every node keeps its key, value, level and vector
    sizes; [head], [tail] and [current_size] are unchanged and the effect log
    has only grown.  Only links and [current_level] can differ. *)
Theorem Erase_rewrites_links_only
  (fuel : nat) (first last : ptr) (s s' : State)
  (Herase : Erase fuel first last s = Ok (tt, s')) :
  keeps_nodes s s'
  /\ List.length (heap s') = List.length (heap s)
  /\ head s' = head s /\ tail s' = tail s
  /\ current_size s' = current_size s
  /\ rand_calls s' = rand_calls s
  /\ exists evs, log s' = log s ++ evs.
Proof.
  set (Q := fun t : State =>
              keeps_nodes s t /\ List.length (heap t) = List.length (heap s)
              /\ head t = head s /\ tail t = tail s
              /\ current_size t = current_size s /\ rand_calls t = rand_calls s
              /\ exists evs, log t = log s ++ evs).
  assert (HQ : Q s').
  { eapply (frame_Erase Q); [| | |exact Herase|].
    - intros e t (A & B & C & D & E & F & evs & G).
      split; [apply keeps_nodes_log; exact A|]. do 5 (split; [assumption|]).
      exists (evs ++ [e]). cbn. rewrite G, app_assoc. reflexivity.
    - intros z t (A & B). split; [apply keeps_nodes_level; exact A|exact B].
    - intros d a n i q t Hn Hr (A & B & C). split; [apply keeps_nodes_store; auto|].
      split; [|exact C]. cbn. rewrite length_insert. exact B.
    - unfold Q. split; [apply keeps_nodes_refl|]. do 5 (split; [reflexivity|]).
      exists []. rewrite app_nil_r. reflexivity. }
  exact HQ.
Qed.

End SkiplistFrame.

Module SkiplistShape.
Import Skiplist SkiplistFacts SkiplistMore.
Local Open Scope skip_scope.

(** ** Links *)

Lemma last_cons {A} : forall (c : list A) (y x : A), List.last (y :: c) x = List.last c y.
Proof.
  induction c as [|z c IH]; intros y x; [reflexivity|].
  change (List.last (y :: z :: c) x) with (List.last (z :: c) x).
  rewrite (IH z x), (IH z y). reflexivity.
Qed.

Lemma linked_app h i : forall c1 x y c2 t,
  linked h i x (c1 ++ y :: c2) t <-> linked h i x c1 y /\ linked h i y c2 t.
Proof.
  induction c1 as [|z c1 IH]; intros x y c2 t; cbn [app linked].
  - tauto.
  - rewrite IH. tauto.
Qed.

Lemma linked_end h i : forall c x t,
  linked h i x c t ->
  nxt h i (List.last c x) = Some (Some t) /\ prv h i t = Some (Some (List.last c x)).
Proof.
  induction c as [|y c IH]; intros x t H.
  - exact H.
  - destruct H as (_ & _ & H). apply IH in H.
    rewrite last_cons. exact H.
Qed.

(** The link that leaves the last node of a prefix of the chain. *)
Lemma linked_at h i c1 c2 x t :
  linked h i x (c1 ++ c2) t ->
  nxt h i (List.last c1 x) = Some (Some (List.hd t c2))
  /\ prv h i (List.hd t c2) = Some (Some (List.last c1 x)).
Proof.
  destruct c2 as [|y c2].
  - rewrite app_nil_r. apply linked_end.
  - intros H. apply linked_app in H as [H _]. apply linked_end in H. exact H.
Qed.

Lemma linked_ext h h' i : forall c x t,
  (forall a, In a (x :: c) -> nxt h' i a = nxt h i a) ->
  (forall a, In a (c ++ [t]) -> prv h' i a = prv h i a) ->
  linked h i x c t -> linked h' i x c t.
Proof.
  induction c as [|y c IH]; intros x t Hn Hp H; cbn [linked] in *.
  - destruct H as [H1 H2]. split.
    + rewrite Hn; [exact H1|left; reflexivity].
    + rewrite Hp; [exact H2|left; reflexivity].
  - destruct H as (H1 & H2 & H3). split; [|split].
    + rewrite Hn; [exact H1|left; reflexivity].
    + rewrite Hp; [exact H2|left; reflexivity].
    + apply IH; [| |exact H3].
      * intros a Ha. apply Hn. right. exact Ha.
      * intros a Ha. apply Hp. right. exact Ha.
Qed.

(** ** Reading a well-formed memory *)

Lemma load_nxt s i a q :
  nxt (heap s) i a = Some q -> load Fwd (Some a) (Z.of_nat i) s = Ok (q, s).
Proof.
  unfold nxt. destruct (heap s !! a) as [n|] eqn:Hn; [|discriminate]. intros Hq.
  eapply load_eq; [exact Hn|]. unfold vec_get, in_range. cbn [links].
  apply lookup_lt_Some in Hq as Hlt.
  replace ((0 <=? Z.of_nat i)%Z && (Z.of_nat i <? Z.of_nat (List.length (next n)))%Z)
    with true.
  - rewrite Nat2Z.id. exact Hq.
  - symmetry. apply andb_true_intro. split; [apply Z.leb_le|apply Z.ltb_lt]; lia.
Qed.

Lemma load_prv s i a q :
  prv (heap s) i a = Some q -> load Bwd (Some a) (Z.of_nat i) s = Ok (q, s).
Proof.
  unfold prv. destruct (heap s !! a) as [n|] eqn:Hn; [|discriminate]. intros Hq.
  eapply load_eq; [exact Hn|]. unfold vec_get, in_range. cbn [links].
  apply lookup_lt_Some in Hq as Hlt.
  replace ((0 <=? Z.of_nat i)%Z && (Z.of_nat i <? Z.of_nat (List.length (prev n)))%Z)
    with true.
  - rewrite Nat2Z.id. exact Hq.
  - symmetry. apply andb_true_intro. split; [apply Z.leb_le|apply Z.ltb_lt]; lia.
Qed.

Lemma ptr_eqb_ne a b : a <> b -> ptr_eqb (Some a) (Some b) = false.
Proof. intros H. cbn. apply Nat.eqb_neq. exact H. Qed.

Lemma ptr_eqb_refl p : ptr_eqb p p = true.
Proof. destruct p; cbn; [apply Nat.eqb_refl|reflexivity]. Qed.

Lemma last_snoc {A} (l : list A) (x d : A) : List.last (l ++ [x]) d = x.
Proof. apply last_last. Qed.

Section Search.
Variable cmp : string -> string -> Z.

Lemma compare_node_arg_eq a k s n :
  heap s !! a = Some n ->
  compare_node_arg cmp (Some a) k s
  = Ok (cmp (key n) k, add_log (EvCompare (KeyOf a) ArgKey) s).
Proof. intros Hn. unfold compare_node_arg, bind, deref. rewrite Hn. reflexivity. Qed.

Lemma compare_arg_node_eq a k s n :
  heap s !! a = Some n ->
  compare_arg_node cmp k (Some a) s
  = Ok (cmp k (key n), add_log (EvCompare ArgKey (KeyOf a)) s).
Proof. intros Hn. unfold compare_arg_node, bind, deref. rewrite Hn. reflexivity. Qed.

(** The inner loop of [FindGreaterOrEqual] at one level: from the last node of
    [C1] it moves over the cells of [C2] whose key is below [k] and stops at
    the first that is not, or at [tail]. *)
Lemma advance_spec i k hd tl : forall (C2 C1 : list Cell) (fuel : nat) (s : State),
  tail s = Some tl ->
  linked (heap s) i hd (map c_addr (C1 ++ C2)) tl ->
  Forall (cell_ok (heap s)) C2 ->
  ~ In tl (map c_addr C2) ->
  (List.length C2 < fuel)%nat ->
  exists D C2' s',
    C2 = D ++ C2'
    /\ Forall (fun c => (cmp (c_key c) k < 0)%Z) D
    /\ match C2' with
       | [] => True
       | c :: _ => (0 <= cmp (c_key c) k)%Z
       end
    /\ advance cmp fuel (Z.of_nat i) k (Some (last_addr C1 hd)) s
       = Ok (Some (last_addr (C1 ++ D) hd), s')
    /\ same_mem s s'.
Proof.
  induction C2 as [|y C2 IH]; intros C1 fuel s Htl Hlk Hok Hnt Hf.
  - destruct fuel as [|fuel]; [cbn in Hf; lia|].
    rewrite app_nil_r in Hlk.
    exists [], [], s. rewrite (app_nil_r C1).
    split; [reflexivity|]. split; [constructor|]. split; [exact I|].
    split; [|apply same_mem_refl].
    cbn [advance]. apply linked_end in Hlk as [Hn _].
    erewrite bind_Ok_intro by (apply load_nxt; exact Hn).
    rewrite bind_gets, Htl, ptr_eqb_refl. reflexivity.
  - destruct fuel as [|fuel]; [cbn in Hf; lia|].
    cbn [advance].
    rewrite map_app in Hlk. cbn [map] in Hlk.
    pose proof (linked_at _ _ _ _ _ _ Hlk) as [Hn _]. cbn [List.hd] in Hn.
    erewrite bind_Ok_intro by (apply load_nxt; exact Hn).
    rewrite bind_gets, Htl.
    rewrite ptr_eqb_ne by (intros E; apply Hnt; left; exact E).
    inversion Hok as [|? ? Hy Hok']; subst.
    destruct Hy as (n & Hn0 & Hk & _).
    erewrite bind_Ok_intro by (apply compare_node_arg_eq; exact Hn0).
    rewrite Hk.
    destruct (cmp (c_key y) k <? 0)%Z eqn:Hc.
    + apply Z.ltb_lt in Hc.
      destruct (IH (C1 ++ [y]) fuel (add_log (EvCompare (KeyOf (c_addr y)) ArgKey) s))
        as (D & C2' & s' & E & HD & HC & Hadv & Hm).
      * exact Htl.
      * cbn [heap add_log]. rewrite <- app_assoc, map_app. exact Hlk.
      * exact Hok'.
      * intros Hin. apply Hnt. right. exact Hin.
      * cbn in Hf. lia.
      * exists (y :: D), C2', s'. split; [cbn; rewrite E; reflexivity|].
        split; [constructor; assumption|]. split; [exact HC|]. split.
        -- unfold last_addr in *. rewrite map_app in Hadv. cbn [map] in Hadv.
           rewrite last_snoc in Hadv. rewrite Hadv.
           rewrite <- app_assoc. reflexivity.
        -- destruct Hm as (A & B & C & D0 & E0 & F). unfold same_mem. cbn in *. auto 10.
    + apply Z.ltb_ge in Hc.
      exists [], (y :: C2), (add_log (EvCompare (KeyOf (c_addr y)) ArgKey) s).
      split; [reflexivity|]. split; [constructor|]. split; [exact Hc|].
      rewrite (app_nil_r C1). split; [reflexivity|].
      apply same_mem_log, same_mem_refl.
Qed.


(** ** Facts about well-formed memories *)

Lemma filter_tall_app i (La Lb : list Cell) :
  List.filter (tall i) (La ++ Lb) = List.filter (tall i) La ++ List.filter (tall i) Lb.
Proof. apply List.filter_app. Qed.

Lemma filter_tall0 h (L : list Cell) :
  Forall (cell_ok h) L -> List.filter (tall 0) L = L.
Proof.
  induction 1 as [|c L Hc _ IH]; [reflexivity|]. cbn [List.filter].
  destruct Hc as (n & _ & _ & _ & _ & _ & _ & Hl).
  unfold tall at 1. replace (0 <? c_level c)%nat with true.
  - rewrite IH. reflexivity.
  - symmetry. apply Nat.ltb_lt. lia.
Qed.

Lemma sorted_before (La Lb : list Cell) c :
  sorted cmp (La ++ c :: Lb) ->
  Forall (fun a => (cmp (c_key a) (c_key c) < 0)%Z) La.
Proof.
  induction La as [|a La IH]; intros H; [constructor|].
  cbn [app] in H. inversion H as [|? ? Hs Hall]; subst.
  constructor.
  - rewrite List.Forall_forall in Hall. apply Hall. apply in_or_app. right. left. reflexivity.
  - apply IH. exact Hs.
Qed.

Lemma sorted_after (La Lb : list Cell) c :
  sorted cmp (La ++ c :: Lb) ->
  Forall (fun b => (cmp (c_key c) (c_key b) < 0)%Z) Lb.
Proof.
  induction La as [|a La IH]; intros H.
  - cbn [app] in H. inversion H; subst. assumption.
  - cbn [app] in H. inversion H; subst. apply IH. assumption.
Qed.

Lemma wf_tail_fresh h hd tl L : wf h hd tl L -> ~ In tl (map c_addr L).
Proof.
  intros (Hnd & _). inversion Hnd as [|? ? _ Hnd']; subst.
  inversion Hnd' as [|? ? Hni _]; subst. exact Hni.
Qed.

Lemma wf_head_fresh h hd tl L : wf h hd tl L -> ~ In hd (map c_addr L) /\ hd <> tl.
Proof.
  intros (Hnd & _). inversion Hnd as [|? ? Hni _]; subst. split.
  - intros Hin. apply Hni. right. exact Hin.
  - intros E. apply Hni. left. symmetry. exact E.
Qed.

Lemma Forall_filter_in {A} (P : A -> Prop) f (l : list A) :
  Forall P l -> Forall P (List.filter f l).
Proof.
  intros H. rewrite List.Forall_forall in *. intros x Hx.
  apply List.filter_In in Hx as [Hx _]. auto.
Qed.

Lemma last_addr_app_cons La c x : last_addr (La ++ [c]) x = c_addr c.
Proof. unfold last_addr. rewrite map_app. cbn [map]. apply last_snoc. Qed.

Hypothesis cmp_trans : forall a b c, (cmp a b < 0)%Z -> (cmp b c < 0)%Z -> (cmp a c < 0)%Z.

(** One level of the descent on a well-formed skiplist. *)
Lemma advance_level i k hd tl L fuel s node :
  tail s = Some tl -> wf (heap s) hd tl L -> sorted cmp L ->
  (i < Z.to_nat max_level)%nat ->
  below cmp k L hd (S i) node ->
  (List.length L < fuel)%nat ->
  exists L1 L2 s',
    List.filter (tall i) L = L1 ++ L2
    /\ Forall (fun c => (cmp (c_key c) k < 0)%Z) L1
    /\ match L2 with
       | [] => True
       | c :: _ => (0 <= cmp (c_key c) k)%Z
       end
    /\ advance cmp fuel (Z.of_nat i) k (Some node) s = Ok (Some (last_addr L1 hd), s')
    /\ same_mem s s'.
Proof.
  intros Htl Hwf Hsort Hi Hbelow Hfuel.
  pose proof (wf_tail_fresh _ _ _ _ Hwf) as Htlf.
  destruct Hwf as (Hnd & Hhd & Htlok & Hcells & Hlinks & Hend).
  specialize (Hlinks i Hi). unfold chain in Hlinks.
  assert (Hgen : forall C1 C2,
             List.filter (tall i) L = C1 ++ C2 ->
             node = last_addr C1 hd ->
             Forall (fun c => (cmp (c_key c) k < 0)%Z) C1 ->
             exists L1 L2 s',
               List.filter (tall i) L = L1 ++ L2
               /\ Forall (fun c => (cmp (c_key c) k < 0)%Z) L1
               /\ match L2 with
                  | [] => True
                  | c :: _ => (0 <= cmp (c_key c) k)%Z
                  end
               /\ advance cmp fuel (Z.of_nat i) k (Some node) s
                  = Ok (Some (last_addr L1 hd), s')
               /\ same_mem s s').
  { intros C1 C2 Hsplit Hnode HC1.
    assert (Hsub : forall c, In c C2 -> In c L).
    { intros c Hc. assert (Hc' : In c (List.filter (tall i) L))
        by (rewrite Hsplit; apply in_or_app; right; exact Hc).
      apply List.filter_In in Hc' as [Hc' _]. exact Hc'. }
    destruct (advance_spec i k hd tl C2 C1 fuel s) as (D & C2' & s' & E & HD & HC & Hadv & Hm).
    - exact Htl.
    - rewrite <- Hsplit. exact Hlinks.
    - rewrite List.Forall_forall in *. intros c Hc. apply Hcells. apply Hsub. exact Hc.
    - intros Hin. apply Htlf. apply in_map_iff in Hin as (c & Hc1 & Hc2).
      apply in_map_iff. exists c. split; [exact Hc1|]. apply Hsub. exact Hc2.
    - assert (Hlen : (List.length C2 <= List.length (List.filter (tall i) L))%nat)
        by (rewrite Hsplit, length_app; lia).
      pose proof (List.filter_length_le (tall i) L). lia.
    - exists (C1 ++ D), C2', s'. split; [rewrite Hsplit, E, app_assoc; reflexivity|].
      split; [apply Forall_app; split; assumption|]. split; [exact HC|].
      split; [rewrite Hnode; exact Hadv|exact Hm]. }
  destruct Hbelow as [->|(c & Hc & Hca & Hck & Hcl)].
  - apply (Hgen [] (List.filter (tall i) L)); [reflexivity|reflexivity|constructor].
  - apply in_split in Hc as (La & Lb & ->).
    apply (Hgen (List.filter (tall i) La ++ [c]) (List.filter (tall i) Lb)).
    + rewrite filter_tall_app. cbn [List.filter]. unfold tall at 2.
      replace (i <? c_level c)%nat with true by (symmetry; apply Nat.ltb_lt; lia).
      rewrite <- app_assoc. reflexivity.
    + rewrite last_addr_app_cons. symmetry. exact Hca.
    + apply Forall_app. split.
      * apply Forall_filter_in. pose proof (sorted_before _ _ _ Hsort) as Hb.
        rewrite List.Forall_forall in *. intros a Ha. eapply cmp_trans; [apply Hb; exact Ha|exact Hck].
      * constructor; [exact Hck|constructor].
Qed.


Lemma same_mem_trans s t u : same_mem s t -> same_mem t u -> same_mem s u.
Proof.
  unfold same_mem. intros (A & B & C & D & E & F) (A' & B' & C' & D' & E' & F').
  repeat split; congruence.
Qed.

Lemma hd_map_addr (L : list Cell) t : List.hd t (map c_addr L) = first_addr L t.
Proof. destruct L; reflexivity. Qed.

Lemma last_addr_below k hd i (L L1 L2 : list Cell) :
  List.filter (tall i) L = L1 ++ L2 ->
  Forall (fun c => (cmp (c_key c) k < 0)%Z) L1 ->
  below cmp k L hd (S i) (last_addr L1 hd).
Proof.
  intros Hsplit HL1.
  destruct L1 as [|c0 L1'] using rev_ind; [left; reflexivity|]. clear IHL1'.
  right. exists c0. rewrite last_addr_app_cons.
  assert (Hin : In c0 (List.filter (tall i) L))
    by (rewrite Hsplit; apply in_or_app; left; apply in_or_app; right; left; reflexivity).
  apply List.filter_In in Hin as [Hin Ht].
  split; [exact Hin|]. split; [reflexivity|]. split.
  - apply Forall_app in HL1 as [_ H]. inversion H; subst. assumption.
  - unfold tall in Ht. apply Nat.ltb_lt in Ht. lia.
Qed.

Lemma below_weaken k hd L n n' node :
  (n' <= n)%nat -> below cmp k L hd n node -> below cmp k L hd n' node.
Proof.
  intros Hn [->|(c & A & B & C & D)]; [left; reflexivity|].
  right. exists c. repeat split; try assumption. lia.
Qed.

(** The whole descent, from level [n - 1] down to level 0. *)
Lemma descend_spec k hd tl L fuel : forall n s node,
  tail s = Some tl -> wf (heap s) hd tl L -> sorted cmp L ->
  (1 <= n <= Z.to_nat max_level)%nat ->
  below cmp k L hd n node ->
  (List.length L < fuel)%nat ->
  exists L1 L2 s',
    L = L1 ++ L2
    /\ Forall (fun c => (cmp (c_key c) k < 0)%Z) L1
    /\ match L2 with
       | [] => True
       | c :: _ => (0 <= cmp (c_key c) k)%Z
       end
    /\ descend cmp fuel n k (Some node) s = Ok (Some (last_addr L1 hd), s')
    /\ same_mem s s'.
Proof.
  induction n as [|m IH]; intros s node Htl Hwf Hsort Hn Hbelow Hfuel; [lia|].
  destruct (advance_level m k hd tl L fuel s node) as (L1 & L2 & s1 & Hsplit & HL1 & HL2 & Hadv & Hm);
    try assumption; [lia|].
  cbn [descend]. erewrite bind_Ok_intro by exact Hadv.
  destruct m as [|m'].
  - rewrite (filter_tall0 (heap s)) in Hsplit by (destruct Hwf as (_ & _ & _ & H & _); exact H).
    exists L1, L2, s1. cbn [descend]. auto.
  - destruct Hm as (Hh & Hrest).
    destruct (IH s1 (last_addr L1 hd)) as (L1' & L2' & s2 & E & H1 & H2 & Hd & Hm2).
    + destruct Hrest as (_ & _ & _ & Ht & _). rewrite Ht. exact Htl.
    + rewrite Hh. exact Hwf.
    + exact Hsort.
    + lia.
    + eapply (below_weaken _ _ _ (S (S m'))); [lia|].
      eapply last_addr_below; eassumption.
    + exact Hfuel.
    + exists L1', L2', s2. split; [exact E|]. split; [exact H1|]. split; [exact H2|].
      split; [exact Hd|]. eapply same_mem_trans; [|exact Hm2]. unfold same_mem. split; assumption.
Qed.

(** [FindGreaterOrEqual] on a well-formed, sorted skiplist returns the first
    cell whose key is not below [k], or [tail]. *)
Lemma FindGreaterOrEqual_spec k L fuel s hd tl :
  head s = Some hd -> tail s = Some tl -> wf (heap s) hd tl L ->
  (0 <= current_level s <= max_level)%Z -> (L <> [] -> (1 <= current_level s)%Z) ->
  sorted cmp L -> (List.length L < fuel)%nat ->
  exists L1 L2 s',
    L = L1 ++ L2
    /\ Forall (fun c => (cmp (c_key c) k < 0)%Z) L1
    /\ match L2 with
       | [] => True
       | c :: _ => (0 <= cmp (c_key c) k)%Z
       end
    /\ FindGreaterOrEqual cmp fuel k s = Ok (Some (first_addr L2 tl), s')
    /\ same_mem s s'.
Proof.
  intros Hhd Htl Hwf Hcl Hcl1 Hsort Hfuel.
  unfold FindGreaterOrEqual. rewrite !bind_gets, Hhd.
  assert (Hload : forall L1 L2 s', L = L1 ++ L2 -> heap s' = heap s ->
            load Fwd (Some (last_addr L1 hd)) 0 s' = Ok (Some (first_addr L2 tl), s')).
  { intros L1 L2 s' E Hh. apply (load_nxt s' 0).
    destruct Hwf as (_ & _ & _ & Hcells & Hlinks & _).
    assert (H0 : (0 < Z.to_nat max_level)%nat) by (unfold max_level; lia).
    specialize (Hlinks 0%nat H0). unfold chain in Hlinks.
    rewrite (filter_tall0 _ _ Hcells), E, map_app in Hlinks.
    apply linked_at in Hlinks as [Hn _]. rewrite hd_map_addr in Hn.
    rewrite Hh. exact Hn. }
  destruct (Z.to_nat (current_level s)) as [|m] eqn:Hn.
  - assert (HL : L = []).
    { destruct L as [|c L']; [reflexivity|].
      assert (1 <= current_level s)%Z by (apply Hcl1; discriminate). lia. }
    subst L. exists [], [], s. cbn [descend]. rewrite bind_ret.
    split; [reflexivity|]. split; [constructor|]. split; [exact I|].
    split; [|apply same_mem_refl].
    apply (Hload [] []); reflexivity.
  - destruct (descend_spec k hd tl L fuel (S m) s hd) as (L1 & L2 & s1 & E & H1 & H2 & Hd & Hm);
      try assumption.
    + unfold max_level in *. lia.
    + left. reflexivity.
    + exists L1, L2, s1. erewrite bind_Ok_intro by exact Hd.
      split; [exact E|]. split; [exact H1|]. split; [exact H2|]. split; [|exact Hm].
      apply Hload; [exact E|]. destruct Hm as (Hh & _). exact Hh.
Qed.

End Search.

End SkiplistShape.

Module SkiplistLinking.
Import Skiplist SkiplistFacts SkiplistMore SkiplistShape.
Local Open Scope skip_scope.

(** ** Single stores *)

Lemma nxt_upd_next_eq h a i q old :
  nxt h i a = Some old -> nxt (upd_next h a i q) i a = Some q.
Proof.
  unfold nxt, upd_next. destruct (h !! a) as [n|] eqn:Hn; [|discriminate].
  intros Ho. rewrite list_lookup_insert_eq by (eapply lookup_lt_Some; eauto).
  cbn. apply list_lookup_insert_eq. eapply lookup_lt_Some; eauto.
Qed.

Lemma nxt_upd_next_ne h a i q i' a' :
  a' <> a \/ i' <> i -> nxt (upd_next h a i q) i' a' = nxt h i' a'.
Proof.
  intros Hne. unfold nxt, upd_next. destruct (h !! a) as [n|] eqn:Hn; [|reflexivity].
  destruct (decide (a' = a)) as [->|Ha].
  - rewrite list_lookup_insert_eq by (eapply lookup_lt_Some; eauto).
    rewrite Hn. cbn. apply list_lookup_insert_ne. destruct Hne; congruence.
  - rewrite list_lookup_insert_ne by congruence. reflexivity.
Qed.

Lemma prv_upd_next h a i q i' a' : prv (upd_next h a i q) i' a' = prv h i' a'.
Proof.
  unfold prv, upd_next. destruct (h !! a) as [n|] eqn:Hn; [|reflexivity].
  destruct (decide (a' = a)) as [->|Ha].
  - rewrite list_lookup_insert_eq by (eapply lookup_lt_Some; eauto).
    rewrite Hn. reflexivity.
  - rewrite list_lookup_insert_ne by congruence. reflexivity.
Qed.

Lemma prv_upd_prev_eq h a i q old :
  prv h i a = Some old -> prv (upd_prev h a i q) i a = Some q.
Proof.
  unfold prv, upd_prev. destruct (h !! a) as [n|] eqn:Hn; [|discriminate].
  intros Ho. rewrite list_lookup_insert_eq by (eapply lookup_lt_Some; eauto).
  cbn. apply list_lookup_insert_eq. eapply lookup_lt_Some; eauto.
Qed.

Lemma prv_upd_prev_ne h a i q i' a' :
  a' <> a \/ i' <> i -> prv (upd_prev h a i q) i' a' = prv h i' a'.
Proof.
  intros Hne. unfold prv, upd_prev. destruct (h !! a) as [n|] eqn:Hn; [|reflexivity].
  destruct (decide (a' = a)) as [->|Ha].
  - rewrite list_lookup_insert_eq by (eapply lookup_lt_Some; eauto).
    rewrite Hn. cbn. apply list_lookup_insert_ne. destruct Hne; congruence.
  - rewrite list_lookup_insert_ne by congruence. reflexivity.
Qed.

Lemma nxt_upd_prev h a i q i' a' : nxt (upd_prev h a i q) i' a' = nxt h i' a'.
Proof.
  unfold nxt, upd_prev. destruct (h !! a) as [n|] eqn:Hn; [|reflexivity].
  destruct (decide (a' = a)) as [->|Ha].
  - rewrite list_lookup_insert_eq by (eapply lookup_lt_Some; eauto).
    rewrite Hn. reflexivity.
  - rewrite list_lookup_insert_ne by congruence. reflexivity.
Qed.

Lemma same_contents_refl h : same_contents h h.
Proof. intros a n H. exists n. auto 10. Qed.

Lemma same_contents_trans h1 h2 h3 :
  same_contents h1 h2 -> same_contents h2 h3 -> same_contents h1 h3.
Proof.
  intros H12 H23 a n Hn.
  destruct (H12 a n Hn) as (n2 & Hn2 & A & B & C & D & E).
  destruct (H23 a n2 Hn2) as (n3 & Hn3 & A' & B' & C' & D' & E').
  exists n3. repeat split; congruence.
Qed.

Lemma same_contents_upd_next h a i q : same_contents h (upd_next h a i q).
Proof.
  intros a' n' Hn'. unfold upd_next. destruct (h !! a) as [n|] eqn:Hn.
  - destruct (decide (a' = a)) as [->|Ha].
    + rewrite Hn in Hn'. inversion Hn'; subst n'.
      exists (with_links Fwd (<[i := q]> (next n)) n).
      rewrite list_lookup_insert_eq by (eapply lookup_lt_Some; eauto).
      cbn. rewrite length_insert. auto 10.
    + exists n'. rewrite list_lookup_insert_ne by congruence. auto 10.
  - exists n'. auto 10.
Qed.

Lemma same_contents_upd_prev h a i q : same_contents h (upd_prev h a i q).
Proof.
  intros a' n' Hn'. unfold upd_prev. destruct (h !! a) as [n|] eqn:Hn.
  - destruct (decide (a' = a)) as [->|Ha].
    + rewrite Hn in Hn'. inversion Hn'; subst n'.
      exists (with_links Bwd (<[i := q]> (prev n)) n).
      rewrite list_lookup_insert_eq by (eapply lookup_lt_Some; eauto).
      cbn. rewrite length_insert. auto 10.
    + exists n'. rewrite list_lookup_insert_ne by congruence. auto 10.
  - exists n'. auto 10.
Qed.

Lemma cell_ok_contents h h' c : same_contents h h' -> cell_ok h c -> cell_ok h' c.
Proof.
  intros Hs (n & Hn & A & B & C & D & E & F).
  destruct (Hs _ _ Hn) as (n' & Hn' & A' & B' & C' & D' & E').
  exists n'. repeat split; try congruence; lia.
Qed.

Lemma sentinel_ok_contents h h' a : same_contents h h' -> sentinel_ok h a -> sentinel_ok h' a.
Proof.
  intros Hs (n & Hn & A & B & C & D).
  destruct (Hs _ _ Hn) as (n' & Hn' & A' & B' & C' & D' & E').
  exists n'. repeat split; congruence.
Qed.

(** The stores of the model in terms of [upd_next] and [upd_prev]. *)
Lemma store_next s a i q old :
  nxt (heap s) i a = Some old ->
  store Fwd (Some a) (Z.of_nat i) q s = Ok (tt, set_heap (upd_next (heap s) a i q) s).
Proof.
  unfold nxt, upd_next. destruct (heap s !! a) as [n|] eqn:Hn; [|discriminate].
  intros Ho. rewrite (store_eq Fwd a (Z.of_nat i) q s n Hn).
  - rewrite Nat2Z.id. reflexivity.
  - apply in_range_lt. eapply lookup_lt_Some; eauto.
Qed.

Lemma store_prev s a i q old :
  prv (heap s) i a = Some old ->
  store Bwd (Some a) (Z.of_nat i) q s = Ok (tt, set_heap (upd_prev (heap s) a i q) s).
Proof.
  unfold prv, upd_prev. destruct (heap s !! a) as [n|] eqn:Hn; [|discriminate].
  intros Ho. rewrite (store_eq Bwd a (Z.of_nat i) q s n Hn).
  - rewrite Nat2Z.id. reflexivity.
  - apply in_range_lt. eapply lookup_lt_Some; eauto.
Qed.

(** A cell or a sentinel has an entry at every level below its own. *)
Lemma cell_has_links h c i :
  cell_ok h c -> (i < c_level c)%nat ->
  (exists q, nxt h i (c_addr c) = Some q) /\ (exists q, prv h i (c_addr c) = Some q).
Proof.
  intros (n & Hn & _ & _ & _ & Hnx & Hpv & _) Hi. unfold nxt, prv. rewrite Hn. split.
  - destruct (next n !! i) eqn:E; [eauto|]. apply lookup_ge_None in E. lia.
  - destruct (prev n !! i) eqn:E; [eauto|]. apply lookup_ge_None in E. lia.
Qed.

Lemma sentinel_has_links h a i :
  sentinel_ok h a -> (i < Z.to_nat max_level)%nat ->
  (exists q, nxt h i a = Some q) /\ (exists q, prv h i a = Some q).
Proof.
  intros (n & Hn & _ & _ & Hnx & Hpv) Hi. unfold nxt, prv. rewrite Hn. split.
  - destruct (next n !! i) eqn:E; [eauto|]. apply lookup_ge_None in E. lia.
  - destruct (prev n !! i) eqn:E; [eauto|]. apply lookup_ge_None in E. lia.
Qed.

Lemma load_level_cell s c :
  cell_ok (heap s) c -> load_level (Some (c_addr c)) s = Ok (Z.of_nat (c_level c), s).
Proof.
  intros (n & Hn & _ & _ & Hl & _). unfold load_level, bind, deref.
  rewrite Hn. cbn. rewrite Hl. reflexivity.
Qed.

Lemma load_level_sentinel s a :
  sentinel_ok (heap s) a -> load_level (Some a) s = Ok (max_level, s).
Proof.
  intros (n & Hn & _ & Hl & _). unfold load_level, bind, deref.
  rewrite Hn. cbn. rewrite Hl. reflexivity.
Qed.

(** ** The two walks of the linking loop *)

Lemma filter_tall_tall i (L : list Cell) :
  List.filter (tall (S i)) (List.filter (tall i) L) = List.filter (tall (S i)) L.
Proof.
  induction L as [|c L IH]; [reflexivity|]. cbn [List.filter].
  destruct (tall i c) eqn:Hi; cbn [List.filter]; rewrite IH.
  - reflexivity.
  - replace (tall (S i) c) with false; [reflexivity|].
    unfold tall in *. apply Nat.ltb_ge in Hi. symmetry. apply Nat.ltb_ge. lia.
Qed.

(** [while (next_node->level <= j) next_node = next_node->next[j-1]]: along
    the cells [C] of level [j-1] up to [tail], to the first one taller than
    [j]. *)
Lemma skip_short_fwd j tl (s : State) : forall (C : list Cell) (x : nat) (fuel : nat),
  (S j < Z.to_nat max_level)%nat ->
  linked (heap s) j x (map c_addr C) tl ->
  Forall (cell_ok (heap s)) C -> sentinel_ok (heap s) tl ->
  (List.length C < fuel)%nat ->
  skip_short fuel Fwd (Z.of_nat (S j)) (Z.of_nat j) (Some (first_addr C tl)) s
  = Ok (Some (first_addr (List.filter (tall (S j)) C) tl), s).
Proof.
  induction C as [|c C IH]; intros x fuel Hj Hlk Hok Htl Hf.
  - destruct fuel as [|fuel]; [cbn in Hf; lia|]. cbn [skip_short first_addr List.filter].
    erewrite bind_Ok_intro by (apply load_level_sentinel; exact Htl).
    replace (max_level <=? Z.of_nat (S j))%Z with false; [reflexivity|].
    symmetry. apply Z.leb_gt. unfold max_level in *. lia.
  - destruct fuel as [|fuel]; [cbn in Hf; lia|].
    inversion Hok as [|? ? Hc Hok']; subst.
    cbn [skip_short first_addr map linked] in *.
    destruct Hlk as (_ & _ & Hlk).
    erewrite bind_Ok_intro by (apply load_level_cell; exact Hc).
    cbn [List.filter]. unfold tall at 1.
    destruct (S j <? c_level c)%nat eqn:Ht.
    + apply Nat.ltb_lt in Ht.
      replace (Z.of_nat (c_level c) <=? Z.of_nat (S j))%Z with false; [reflexivity|].
      symmetry. apply Z.leb_gt. lia.
    + apply Nat.ltb_ge in Ht.
      replace (Z.of_nat (c_level c) <=? Z.of_nat (S j))%Z with true
        by (symmetry; apply Z.leb_le; lia).
      pose proof (linked_at _ _ [] _ _ _ Hlk) as [Hn _]. cbn [List.last] in Hn.
      rewrite hd_map_addr in Hn.
      erewrite bind_Ok_intro by (apply load_nxt; exact Hn).
      apply (IH (c_addr c)); try assumption. cbn in Hf. lia.
Qed.

(** [while (prev_node->level <= j) prev_node = prev_node->prev[j-1]]: back
    along the cells [C] of level [j-1] towards [head], to the last one taller
    than [j]. *)
Lemma skip_short_bwd j hd (s : State) : forall (C : list Cell) (rest : list nat) (t : nat) (fuel : nat),
  (S j < Z.to_nat max_level)%nat ->
  linked (heap s) j hd (map c_addr C ++ rest) t ->
  Forall (cell_ok (heap s)) C -> sentinel_ok (heap s) hd ->
  (List.length C < fuel)%nat ->
  skip_short fuel Bwd (Z.of_nat (S j)) (Z.of_nat j) (Some (last_addr C hd)) s
  = Ok (Some (last_addr (List.filter (tall (S j)) C) hd), s).
Proof.
  induction C as [|c C IH] using rev_ind; intros rest t fuel Hj Hlk Hok Hhd Hf.
  - destruct fuel as [|fuel]; [cbn in Hf; lia|].
    cbn [skip_short List.filter]. unfold last_addr. cbn [map List.last].
    erewrite bind_Ok_intro by (apply load_level_sentinel; exact Hhd).
    replace (max_level <=? Z.of_nat (S j))%Z with false; [reflexivity|].
    symmetry. apply Z.leb_gt. unfold max_level in *. lia.
  - destruct fuel as [|fuel]; [rewrite length_app in Hf; cbn in Hf; lia|].
    apply Forall_app in Hok as [Hok' Hc]. inversion Hc as [|? ? Hc' _]; subst.
    rewrite last_addr_app_cons. cbn [skip_short].
    erewrite bind_Ok_intro by (apply load_level_cell; exact Hc').
    rewrite filter_tall_app. cbn [List.filter]. unfold tall at 2.
    rewrite map_app, <- app_assoc in Hlk. cbn [map app] in Hlk.
    destruct (S j <? c_level c)%nat eqn:Ht.
    + apply Nat.ltb_lt in Ht.
      replace (Z.of_nat (c_level c) <=? Z.of_nat (S j))%Z with false
        by (symmetry; apply Z.leb_gt; lia).
      rewrite last_addr_app_cons. reflexivity.
    + apply Nat.ltb_ge in Ht.
      replace (Z.of_nat (c_level c) <=? Z.of_nat (S j))%Z with true
        by (symmetry; apply Z.leb_le; lia).
      rewrite app_nil_r.
      pose proof (linked_at _ _ _ _ _ _ Hlk) as [_ Hp]. cbn [List.hd] in Hp.
      erewrite bind_Ok_intro by (apply load_prv; exact Hp).
      apply (IH (c_addr c :: rest) t); try assumption.
      rewrite length_app in Hf. cbn in Hf. lia.
Qed.


(** ** Splicing a node into one level *)

Lemma last_in {A} : forall (c : list A) (x : A), In (List.last c x) (x :: c).
Proof.
  induction c as [|y c IH]; intros x; [left; reflexivity|].
  rewrite last_cons. right. apply IH.
Qed.

Lemma hd_in {A} (c : list A) (t : A) : In (List.hd t c) (c ++ [t]).
Proof. destruct c; cbn; auto. Qed.

Lemma linked_insert h h' i nw t : forall c1 x c2,
  linked h i x (c1 ++ c2) t ->
  List.NoDup (x :: c1 ++ c2 ++ [t]) -> ~ In nw (x :: c1 ++ c2 ++ [t]) ->
  nxt h' i nw = Some (Some (List.hd t c2)) ->
  nxt h' i (List.last c1 x) = Some (Some nw) ->
  prv h' i (List.hd t c2) = Some (Some nw) ->
  prv h' i nw = Some (Some (List.last c1 x)) ->
  (forall a, a <> nw -> a <> List.last c1 x -> nxt h' i a = nxt h i a) ->
  (forall a, a <> nw -> a <> List.hd t c2 -> prv h' i a = prv h i a) ->
  linked h' i x (c1 ++ nw :: c2) t.
Proof.
  induction c1 as [|z c1 IH]; intros x c2 Hlk Hnd Hfresh N1 N2 P1 P2 N3 P3.
  - cbn [app List.last] in *. cbn [linked]. split; [exact N2|]. split; [exact P2|].
    inversion Hnd as [|? ? Hx Hnd']; subst.
    destruct c2 as [|y c2]; cbn [linked List.hd app] in *.
    + split; [exact N1|exact P1].
    + split; [exact N1|]. split; [exact P1|].
      destruct Hlk as (_ & _ & Hlk).
      inversion Hnd' as [|? ? Hy _]; subst.
      eapply linked_ext; [| |exact Hlk].
      * intros a Ha. apply N3.
        -- intros ->. apply Hfresh. right. exact (in_or_app (y :: c2) [t] _ (or_introl Ha)).
        -- intros ->. apply Hx. exact (in_or_app (y :: c2) [t] _ (or_introl Ha)).
      * intros a Ha. apply P3.
        -- intros ->. apply Hfresh. right. right. exact Ha.
        -- intros ->. apply Hy. exact Ha.
  - rewrite last_cons in *. cbn [app linked] in *.
    destruct Hlk as (Hn & Hp & Hlk).
    inversion Hnd as [|? ? Hx Hnd']; subst.
    assert (Hlast : In (List.last c1 z) (z :: c1 ++ c2 ++ [t])).
    { pose proof (last_in c1 z) as [E|E]; [left; exact E|].
      right. apply in_or_app. left. exact E. }
    assert (Hhd : In (List.hd t c2) (c1 ++ c2 ++ [t])).
    { apply in_or_app. right. apply hd_in. }
    split; [|split].
    + rewrite N3; [exact Hn| |].
      * intros ->. apply Hfresh. left. reflexivity.
      * intros ->. apply Hx. exact Hlast.
    + rewrite P3; [exact Hp| |].
      * intros ->. apply Hfresh. right. left. reflexivity.
      * inversion Hnd' as [|? ? Hz _]; subst. intros E. apply Hz. rewrite E. exact Hhd.
    + apply IH; try assumption.
      intros Hin. apply Hfresh. right. exact Hin.
Qed.


(** ** One turn of the linking loop *)

Lemma first_addr_cases f (L2 : list Cell) tl :
  first_addr (List.filter f L2) tl = tl
  \/ exists c, In c L2 /\ f c = true /\ first_addr (List.filter f L2) tl = c_addr c.
Proof.
  destruct (List.filter f L2) as [|c F] eqn:E; [left; reflexivity|].
  right. exists c. assert (Hin : In c (List.filter f L2)) by (rewrite E; left; reflexivity).
  apply List.filter_In in Hin as [A B]. auto.
Qed.

Lemma last_addr_cases f (L1 : list Cell) hd :
  last_addr (List.filter f L1) hd = hd
  \/ exists c, In c L1 /\ f c = true /\ last_addr (List.filter f L1) hd = c_addr c.
Proof.
  destruct (List.filter f L1) as [|c F] eqn:E using rev_ind; [left; reflexivity|].
  right. exists c. rewrite last_addr_app_cons.
  assert (Hin : In c (List.filter f L1))
    by (rewrite E; apply in_or_app; right; left; reflexivity).
  apply List.filter_In in Hin as [A B]. auto.
Qed.

Lemma In_map_filter f (L : list Cell) a :
  In a (map c_addr (List.filter f L)) -> In a (map c_addr L).
Proof.
  intros H. apply in_map_iff in H as (c & E & Hc). apply List.filter_In in Hc as [Hc _].
  apply in_map_iff. exists c. auto.
Qed.

Lemma NoDup_map_filter f (L : list Cell) :
  List.NoDup (map c_addr L) -> List.NoDup (map c_addr (List.filter f L)).
Proof.
  induction L as [|c L IH]; intros H; [constructor|].
  cbn [map List.filter] in *. inversion H as [|? ? Hc HL]; subst.
  destruct (f c); [|apply IH; exact HL].
  cbn [map]. constructor; [|apply IH; exact HL].
  intros Hin. apply Hc. eapply In_map_filter. exact Hin.
Qed.

Lemma chain_app i (L1 L2 : list Cell) : chain i (L1 ++ L2) = chain i L1 ++ chain i L2.
Proof. unfold chain. rewrite List.filter_app, map_app. reflexivity. Qed.

Lemma NoDup_level i hd tl nw (L1 L2 : list Cell) :
  List.NoDup (hd :: tl :: nw :: map c_addr (L1 ++ L2)) ->
  List.NoDup (hd :: chain i L1 ++ chain i L2 ++ [tl])
  /\ ~ In nw (hd :: chain i L1 ++ chain i L2 ++ [tl]).
Proof.
  intros H.
  inversion H as [|? ? Hhd H1]; subst. inversion H1 as [|? ? Htl H2]; subst.
  inversion H2 as [|? ? Hnw H3]; subst.
  rewrite app_assoc, <- chain_app.
  assert (Hsub : forall a, In a (chain i (L1 ++ L2)) -> In a (map c_addr (L1 ++ L2)))
    by (intros a; apply In_map_filter).
  split.
  - constructor.
    + intros Hin. apply in_app_or in Hin as [Hin|[<-|[]]].
      * apply Hhd. right. right. apply Hsub. exact Hin.
      * apply Hhd. left. reflexivity.
    + apply List.NoDup_app.
      * apply NoDup_map_filter. exact H3.
      * constructor; [intros []|constructor].
      * intros a Ha [<-|[]]. apply Htl. right. apply Hsub. exact Ha.
  - intros [<-|Hin].
    + apply Hhd. right. left. reflexivity.
    + apply in_app_or in Hin as [Hin|[<-|[]]].
      * apply Hnw. apply Hsub. exact Hin.
      * apply Htl. left. reflexivity.
Qed.

Lemma first_addr_level j (L2 : list Cell) tl s :
  Forall (cell_ok (heap s)) L2 -> sentinel_ok (heap s) tl -> (j < Z.to_nat max_level)%nat ->
  exists z, load_level (Some (first_addr (List.filter (tall j) L2) tl)) s = Ok (z, s)
            /\ (Z.of_nat j < z)%Z
            /\ (exists q, nxt (heap s) j (first_addr (List.filter (tall j) L2) tl) = Some q)
            /\ (exists q, prv (heap s) j (first_addr (List.filter (tall j) L2) tl) = Some q).
Proof.
  intros Hok Htl Hj.
  destruct (first_addr_cases (tall j) L2 tl) as [->|(c & Hc & Ht & ->)].
  - exists max_level. split; [apply load_level_sentinel; exact Htl|].
    split; [unfold max_level in *; lia|]. apply sentinel_has_links; assumption.
  - rewrite List.Forall_forall in Hok. specialize (Hok c Hc).
    unfold tall in Ht. apply Nat.ltb_lt in Ht.
    exists (Z.of_nat (c_level c)). split; [apply load_level_cell; exact Hok|].
    split; [lia|]. apply cell_has_links; assumption.
Qed.

Lemma last_addr_level j (L1 : list Cell) hd s :
  Forall (cell_ok (heap s)) L1 -> sentinel_ok (heap s) hd -> (j < Z.to_nat max_level)%nat ->
  exists z, load_level (Some (last_addr (List.filter (tall j) L1) hd)) s = Ok (z, s)
            /\ (Z.of_nat j < z)%Z
            /\ (exists q, nxt (heap s) j (last_addr (List.filter (tall j) L1) hd) = Some q)
            /\ (exists q, prv (heap s) j (last_addr (List.filter (tall j) L1) hd) = Some q).
Proof.
  intros Hok Hhd Hj.
  destruct (last_addr_cases (tall j) L1 hd) as [->|(c & Hc & Ht & ->)].
  - exists max_level. split; [apply load_level_sentinel; exact Hhd|].
    split; [unfold max_level in *; lia|]. apply sentinel_has_links; assumption.
  - rewrite List.Forall_forall in Hok. specialize (Hok c Hc).
    unfold tall in Ht. apply Nat.ltb_lt in Ht.
    exists (Z.of_nat (c_level c)). split; [apply load_level_cell; exact Hok|].
    split; [lia|]. apply cell_has_links; assumption.
Qed.

Lemma skip_short_stay fuel d bound idx p s z :
  load_level p s = Ok (z, s) -> (bound < z)%Z ->
  skip_short (S fuel) d bound idx p s = Ok (p, s).
Proof.
  intros Hl Hz. cbn [skip_short]. erewrite bind_Ok_intro by exact Hl.
  replace (z <=? bound)%Z with false; [reflexivity|]. symmetry. apply Z.leb_gt. exact Hz.
Qed.


Section Level.
Variables (fuel : nat) (k v : string) (lvl : nat) (hd tl nw : nat) (L1 L2 : list Cell).
Variable j : nat.
Variable s : State.
Hypothesis Hnd : List.NoDup (hd :: tl :: nw :: map c_addr (L1 ++ L2)).
Hypothesis Hhd : sentinel_ok (heap s) hd.
Hypothesis Htl : sentinel_ok (heap s) tl.
Hypothesis Hcells : Forall (cell_ok (heap s)) (L1 ++ L2).
Hypothesis Hnew : cell_ok (heap s) (mkCell nw k v lvl).
Hypothesis Hlinking : linking (heap s) hd tl nw L1 L2 j.
Hypothesis Hend : nxt (heap s) 0 tl = Some NULL.
Hypothesis Hj : (j < lvl)%nat.
Hypothesis Hfuel : (List.length (L1 ++ L2) < fuel)%nat.

Local Abbreviation NX := (first_addr (List.filter (tall j) L2) tl).
Local Abbreviation PV := (last_addr (List.filter (tall j) L1) hd).

Lemma level_in_range : (j < Z.to_nat max_level)%nat.
Proof. destruct Hnew as (n & _ & _ & _ & _ & _ & _ & Hl). cbn in Hl. lia. Qed.

Lemma walk_fwd_level :
  skip_short fuel Fwd (Z.of_nat j) (Z.of_nat j - 1)
    (Some (first_addr (List.filter (tall (pred j)) L2) tl)) s
  = Ok (Some NX, s).
Proof.
  pose proof level_in_range as Hr.
  apply Forall_app in Hcells as [_ H2].
  destruct j as [|j'] eqn:Ej.
  - destruct fuel as [|f]; [lia|]. cbn [pred].
    destruct (first_addr_level 0 L2 tl s H2 Htl Hr) as (z & Hz & Hlt & _).
    eapply skip_short_stay; [exact Hz|exact Hlt].
  - cbn [pred]. replace (Z.of_nat (S j') - 1)%Z with (Z.of_nat j') by lia.
    assert (Hlk := Hlinking j' ltac:(lia)).
    replace (j' <? S j')%nat with true in Hlk by (symmetry; apply Nat.ltb_lt; lia).
    apply linked_app in Hlk as [_ Hlk]. unfold chain in Hlk.
    rewrite (skip_short_fwd j' tl s _ nw fuel); try assumption.
    + rewrite filter_tall_tall. reflexivity.
    + apply Forall_filter_in. exact H2.
    + pose proof (List.filter_length_le (tall j') L2). rewrite length_app in Hfuel. lia.
Qed.

Lemma walk_bwd_level :
  skip_short fuel Bwd (Z.of_nat j) (Z.of_nat j - 1)
    (Some (last_addr (List.filter (tall (pred j)) L1) hd)) s
  = Ok (Some PV, s).
Proof.
  pose proof level_in_range as Hr.
  apply Forall_app in Hcells as [H1 _].
  destruct j as [|j'] eqn:Ej.
  - destruct fuel as [|f]; [lia|]. cbn [pred].
    destruct (last_addr_level 0 L1 hd s H1 Hhd Hr) as (z & Hz & Hlt & _).
    eapply skip_short_stay; [exact Hz|exact Hlt].
  - cbn [pred]. replace (Z.of_nat (S j') - 1)%Z with (Z.of_nat j') by lia.
    assert (Hlk := Hlinking j' ltac:(lia)).
    replace (j' <? S j')%nat with true in Hlk by (symmetry; apply Nat.ltb_lt; lia).
    unfold chain in Hlk at 1.
    rewrite (skip_short_bwd j' hd s _ _ tl fuel Hr Hlk); try assumption.
    + rewrite filter_tall_tall. reflexivity.
    + apply Forall_filter_in. exact H1.
    + pose proof (List.filter_length_le (tall j') L1). rewrite length_app in Hfuel. lia.
Qed.


Lemma NoDup_parts {A} (l1 l2 : list A) a :
  List.NoDup (l1 ++ l2) -> In a l1 -> In a l2 -> False.
Proof.
  induction l1 as [|x l1 IH]; intros H H1 H2; [destruct H1|].
  cbn [app] in H. inversion H as [|? ? Hx Hn]; subst.
  destruct H1 as [->|H1].
  - apply Hx. apply in_or_app. right. exact H2.
  - apply IH; assumption.
Qed.

Lemma NX_is_hd : List.hd tl (chain j L2) = NX.
Proof. unfold chain. apply hd_map_addr. Qed.

Lemma PV_is_last : List.last (chain j L1) hd = PV.
Proof. reflexivity. Qed.

Lemma targets_distinct : nw <> NX /\ nw <> PV /\ NX <> PV /\ tl <> PV /\ tl <> nw.
Proof.
  destruct (NoDup_level j hd tl nw L1 L2 Hnd) as [Hn Hf].
  assert (HP : In PV (hd :: chain j L1)) by (rewrite <- PV_is_last; apply last_in).
  assert (HN : In NX (chain j L2 ++ [tl])) by (rewrite <- NX_is_hd; apply hd_in).
  assert (HT : In tl (chain j L2 ++ [tl])) by (apply in_or_app; right; left; reflexivity).
  assert (Hsplit : hd :: chain j L1 ++ chain j L2 ++ [tl]
                   = (hd :: chain j L1) ++ (chain j L2 ++ [tl])) by reflexivity.
  rewrite Hsplit in Hn, Hf.
  split; [|split; [|split; [|split]]].
  - intros E. apply Hf. rewrite E. apply in_or_app. right. exact HN.
  - intros E. apply Hf. rewrite E. apply in_or_app. left. exact HP.
  - intros E. apply (NoDup_parts _ _ PV Hn HP). rewrite <- E. exact HN.
  - intros E. apply (NoDup_parts _ _ PV Hn HP). rewrite <- E. exact HT.
  - intros E. apply Hf. rewrite <- E. apply in_or_app. right. exact HT.
Qed.

(** The memory after the four stores of one turn. *)
Local Abbreviation h4 :=
  (upd_next (upd_prev (upd_prev (upd_next (heap s) nw j (Some NX)) NX j (Some nw))
               nw j (Some PV)) PV j (Some nw)).

Lemma h4_contents : same_contents (heap s) h4.
Proof.
  eapply same_contents_trans; [|apply same_contents_upd_next].
  eapply same_contents_trans; [|apply same_contents_upd_prev].
  eapply same_contents_trans; [|apply same_contents_upd_prev].
  apply same_contents_upd_next.
Qed.

Lemma h4_nxt_other i a :
  (a <> nw /\ a <> PV) \/ i <> j -> nxt h4 i a = nxt (heap s) i a.
Proof.
  intros H.
  rewrite nxt_upd_next_ne by (destruct H as [[_ H]|H]; auto).
  rewrite !nxt_upd_prev.
  apply nxt_upd_next_ne. destruct H as [[H _]|H]; auto.
Qed.

Lemma h4_prv_other i a :
  (a <> nw /\ a <> NX) \/ i <> j -> prv h4 i a = prv (heap s) i a.
Proof.
  intros H.
  rewrite prv_upd_next.
  rewrite prv_upd_prev_ne by (destruct H as [[H _]|H]; auto).
  rewrite prv_upd_prev_ne by (destruct H as [[_ H]|H]; auto).
  apply prv_upd_next.
Qed.

Lemma h4_nxt_new : nxt h4 j nw = Some (Some NX).
Proof.
  destruct targets_distinct as (_ & Hnp & _).
  rewrite nxt_upd_next_ne by auto. rewrite !nxt_upd_prev.
  destruct (cell_has_links _ _ j Hnew Hj) as [[q Hq] _].
  eapply nxt_upd_next_eq. exact Hq.
Qed.

Lemma h4_nxt_prev : nxt h4 j PV = Some (Some nw).
Proof.
  destruct targets_distinct as (_ & Hnp & _).
  pose proof level_in_range as Hr.
  apply Forall_app in Hcells as [H1 _].
  destruct (last_addr_level j L1 hd s H1 Hhd Hr) as (_ & _ & _ & [q Hq] & _).
  eapply nxt_upd_next_eq.
  rewrite !nxt_upd_prev. rewrite nxt_upd_next_ne by auto. exact Hq.
Qed.

Lemma h4_prv_new : prv h4 j nw = Some (Some PV).
Proof.
  destruct targets_distinct as (Hnn & _).
  rewrite prv_upd_next.
  destruct (cell_has_links _ _ j Hnew Hj) as [_ [q Hq]].
  eapply prv_upd_prev_eq.
  rewrite prv_upd_prev_ne by auto. rewrite prv_upd_next. exact Hq.
Qed.

Lemma h4_prv_next : prv h4 j NX = Some (Some nw).
Proof.
  destruct targets_distinct as (Hnn & _).
  pose proof level_in_range as Hr.
  apply Forall_app in Hcells as [_ H2].
  destruct (first_addr_level j L2 tl s H2 Htl Hr) as (_ & _ & _ & _ & [q Hq]).
  rewrite prv_upd_next.
  rewrite prv_upd_prev_ne by auto.
  eapply prv_upd_prev_eq. rewrite prv_upd_next. exact Hq.
Qed.

Lemma h4_linking : linking h4 hd tl nw L1 L2 (S j).
Proof.
  intros i Hi. specialize (Hlinking i Hi).
  destruct (decide (i = j)) as [->|Hne].
  - replace (j <? S j)%nat with true by (symmetry; apply Nat.ltb_lt; lia).
    replace (j <? j)%nat with false in Hlinking by (symmetry; apply Nat.ltb_ge; lia).
    destruct (NoDup_level j hd tl nw L1 L2 Hnd) as [Hn Hf].
    apply (linked_insert (heap s)); try assumption.
    + rewrite NX_is_hd. apply h4_nxt_new.
    + rewrite PV_is_last. apply h4_nxt_prev.
    + rewrite NX_is_hd. apply h4_prv_next.
    + rewrite PV_is_last. apply h4_prv_new.
    + intros a A B. apply h4_nxt_other. left. rewrite PV_is_last in B. auto.
    + intros a A B. apply h4_prv_other. left. rewrite NX_is_hd in B. auto.
  - replace (i <? S j)%nat with (i <? j)%nat.
    + eapply linked_ext; [| |exact Hlinking].
      * intros a _. apply h4_nxt_other. right. exact Hne.
      * intros a _. apply h4_prv_other. right. exact Hne.
    + destruct (i <? j)%nat eqn:E.
      * symmetry. apply Nat.ltb_lt. apply Nat.ltb_lt in E. lia.
      * symmetry. apply Nat.ltb_ge. apply Nat.ltb_ge in E. lia.
Qed.

Lemma h4_end : nxt h4 0 tl = Some NULL.
Proof.
  destruct targets_distinct as (_ & _ & _ & A & B).
  rewrite h4_nxt_other by (left; auto). exact Hend.
Qed.

(** One turn of the loop: the walks arrive at the neighbours of the new node
    at level [j], the stores splice it in, and the other levels and all node
    contents are as before. *)
Lemma link_level :
  exists s',
    insert_link_body fuel (Some nw) (Z.of_nat j)
      (Some (first_addr (List.filter (tall (pred j)) L2) tl),
       Some (last_addr (List.filter (tall (pred j)) L1) hd)) s
    = Ok ((Some NX, Some PV), s')
    /\ heap s' = h4
    /\ same_mem (set_heap h4 s) s'.
Proof.
  destruct targets_distinct as (Hnn & Hnp & Hxp & _).
  pose proof level_in_range as Hr.
  pose proof Hcells as Hc. apply Forall_app in Hc as [H1 H2].
  destruct (first_addr_level j L2 tl s H2 Htl Hr) as (_ & _ & _ & [qn Hqn] & [qp Hqp]).
  destruct (last_addr_level j L1 hd s H1 Hhd Hr) as (_ & _ & _ & [rn Hrn] & _).
  destruct (cell_has_links _ _ j Hnew Hj) as [[wn Hwn] [wp Hwp]]. cbn [c_addr] in Hwn, Hwp.
  unfold insert_link_body. cbn [fst snd].
  erewrite bind_Ok_intro by apply walk_fwd_level.
  erewrite bind_Ok_intro by apply walk_bwd_level.
  erewrite bind_Ok_intro by (eapply store_next; exact Hwn).
  erewrite bind_Ok_intro.
  2:{ eapply store_prev. cbn [heap set_heap]. rewrite prv_upd_next. exact Hqp. }
  cbn [heap set_heap].
  erewrite bind_Ok_intro.
  2:{ eapply store_prev. cbn [heap set_heap].
      rewrite prv_upd_prev_ne by auto. rewrite prv_upd_next. exact Hwp. }
  cbn [heap set_heap].
  erewrite bind_Ok_intro.
  2:{ eapply store_next. cbn [heap set_heap].
      rewrite !nxt_upd_prev. rewrite nxt_upd_next_ne by auto. exact Hrn. }
  cbn [heap set_heap].
  destruct (Z.of_nat j =? 0)%Z eqn:Ej.
  - apply Z.eqb_eq in Ej. assert (Hj0 : j = 0%nat) by lia.
    assert (N1 : forall i, i = j -> nxt h4 i nw = Some (Some NX))
      by (intros i ->; apply h4_nxt_new).
    assert (N2 : forall i, i = j -> exists q, nxt h4 i NX = Some q).
    { intros i ->. rewrite h4_nxt_other by (left; auto). eauto. }
    specialize (N1 0%nat (eq_sym Hj0)). destruct (N2 0%nat (eq_sym Hj0)) as [q N2'].
    rewrite bind_assoc.
    erewrite bind_Ok_intro by (apply (load_nxt _ 0); cbn [heap]; exact N1).
    rewrite bind_assoc. unfold emit at 1. rewrite bind_modify.
    rewrite bind_assoc.
    erewrite bind_Ok_intro by (apply (load_nxt _ 0); cbn [heap]; exact N2').
    unfold emit at 1. rewrite bind_modify.
    eexists. split; [reflexivity|]. split; [reflexivity|].
    unfold same_mem. cbn. auto 10.
  - rewrite !bind_ret.
    eexists. split; [reflexivity|]. split; [reflexivity|].
    unfold same_mem. cbn. auto 10.
Qed.

(** The same, without reference to the intermediate memory. *)
Lemma link_level_full :
  exists s',
    insert_link_body fuel (Some nw) (Z.of_nat j)
      (Some (first_addr (List.filter (tall (pred j)) L2) tl),
       Some (last_addr (List.filter (tall (pred j)) L1) hd)) s
    = Ok ((Some (first_addr (List.filter (tall j) L2) tl),
           Some (last_addr (List.filter (tall j) L1) hd)), s')
    /\ same_contents (heap s) (heap s')
    /\ linking (heap s') hd tl nw L1 L2 (S j)
    /\ nxt (heap s') 0 tl = Some NULL
    /\ head s' = head s /\ tail s' = tail s
    /\ current_level s' = current_level s /\ current_size s' = current_size s
    /\ rand_calls s' = rand_calls s.
Proof.
  destruct link_level as (s' & E & Hh & Hm).
  exists s'. split; [exact E|]. rewrite Hh.
  split; [apply h4_contents|]. split; [apply h4_linking|]. split; [apply h4_end|].
  destruct Hm as (_ & A & B & C & D & F). cbn in A, B, C, D, F. auto.
Qed.

End Level.

(** The whole linking loop of [Insert]. *)
Lemma insert_links_spec fuel k v lvl hd tl nw L1 L2 : forall n j s,
  (j + n = lvl)%nat ->
  List.NoDup (hd :: tl :: nw :: map c_addr (L1 ++ L2)) ->
  sentinel_ok (heap s) hd -> sentinel_ok (heap s) tl ->
  Forall (cell_ok (heap s)) (L1 ++ L2) ->
  cell_ok (heap s) (mkCell nw k v lvl) ->
  linking (heap s) hd tl nw L1 L2 j ->
  nxt (heap s) 0 tl = Some NULL ->
  (List.length (L1 ++ L2) < fuel)%nat ->
  exists np s',
    for_range n (Z.of_nat j) (insert_link_body fuel (Some nw))
      (Some (first_addr (List.filter (tall (pred j)) L2) tl),
       Some (last_addr (List.filter (tall (pred j)) L1) hd)) s
    = Ok (np, s')
    /\ same_contents (heap s) (heap s')
    /\ linking (heap s') hd tl nw L1 L2 lvl
    /\ nxt (heap s') 0 tl = Some NULL
    /\ head s' = head s /\ tail s' = tail s
    /\ current_level s' = current_level s /\ current_size s' = current_size s
    /\ rand_calls s' = rand_calls s.
Proof.
  induction n as [|n IH]; intros j s Hjn Hnd Hhd Htl Hcells Hnew Hlk Hend Hfuel.
  - replace j with lvl in * by lia. eexists. exists s. cbn [for_range].
    split; [reflexivity|]. split; [apply same_contents_refl|]. auto 10.
  - destruct (link_level_full fuel k v lvl hd tl nw L1 L2 j s)
      as (s1 & E & Hc & Hlk1 & Hend1 & A & B & C & D & F); try assumption; [lia|].
    cbn [for_range]. erewrite bind_Ok_intro by exact E.
    replace (Z.of_nat j + 1)%Z with (Z.of_nat (S j)) by lia.
    destruct (IH (S j) s1) as (np & s2 & E2 & Hc2 & Hlk2 & Hend2 & A2 & B2 & C2 & D2 & F2);
      try assumption.
    + lia.
    + eapply sentinel_ok_contents; eauto.
    + eapply sentinel_ok_contents; eauto.
    + eapply List.Forall_impl; [|exact Hcells]. intros c. apply cell_ok_contents. exact Hc.
    + eapply cell_ok_contents; eauto.
    + exists np, s2. split; [exact E2|].
      split; [eapply same_contents_trans; eauto|].
      split; [exact Hlk2|]. split; [exact Hend2|].
      repeat split; congruence.
Qed.

End SkiplistLinking.

Module SkiplistInsert.
Import Skiplist SkiplistFacts SkiplistMore SkiplistShape SkiplistLinking.
Local Open Scope skip_scope.

Lemma linked_extends h h' i : forall c x t,
  (forall a n, h !! a = Some n -> h' !! a = Some n) ->
  linked h i x c t -> linked h' i x c t.
Proof.
  assert (Hn : forall a q, (forall a n, h !! a = Some n -> h' !! a = Some n) ->
             nxt h i a = Some q -> nxt h' i a = Some q).
  { intros a q He. unfold nxt. destruct (h !! a) as [n|] eqn:E; [|discriminate].
    rewrite (He _ _ E). auto. }
  assert (Hp : forall a q, (forall a n, h !! a = Some n -> h' !! a = Some n) ->
             prv h i a = Some q -> prv h' i a = Some q).
  { intros a q He. unfold prv. destruct (h !! a) as [n|] eqn:E; [|discriminate].
    rewrite (He _ _ E). auto. }
  induction c as [|y c IH]; intros x t He H; cbn [linked] in *.
  - destruct H. split; eauto.
  - destruct H as (A & B & C). split; [eauto|]. split; [eauto|]. apply IH; assumption.
Qed.

Lemma same_contents_extends h h' :
  (forall a n, h !! a = Some n -> h' !! a = Some n) -> same_contents h h'.
Proof. intros He a n Hn. exists n. split; [apply He; exact Hn|auto 10]. Qed.

Lemma chain_insert i (L1 L2 : list Cell) c :
  chain i (L1 ++ c :: L2)
  = if tall i c then chain i L1 ++ c_addr c :: chain i L2 else chain i L1 ++ chain i L2.
Proof.
  unfold chain. rewrite List.filter_app. cbn [List.filter].
  destruct (tall i c); rewrite map_app; reflexivity.
Qed.

Lemma sorted_insert cmp (L1 L2 : list Cell) c :
  sorted cmp (L1 ++ L2) ->
  Forall (fun a => (cmp (c_key a) (c_key c) < 0)%Z) L1 ->
  Forall (fun b => (cmp (c_key c) (c_key b) < 0)%Z) L2 ->
  sorted cmp (L1 ++ c :: L2).
Proof.
  unfold sorted. induction L1 as [|a L1 IH]; intros Hs H1 H2; cbn [app] in *.
  - constructor; assumption.
  - inversion Hs as [|? ? Hs' Ha]; subst. inversion H1 as [|? ? Hac H1']; subst.
    constructor; [apply IH; assumption|].
    apply Forall_app in Ha as [Ha1 Ha2]. apply Forall_app. split; [exact Ha1|].
    constructor; assumption.
Qed.

Lemma cell_addr_bound h c : cell_ok h c -> (c_addr c < List.length h)%nat.
Proof. intros (n & Hn & _). eapply lookup_lt_Some. exact Hn. Qed.

Lemma sentinel_addr_bound h a : sentinel_ok h a -> (a < List.length h)%nat.
Proof. intros (n & Hn & _). eapply lookup_lt_Some. exact Hn. Qed.


Section InsertSpec.
Variable cmp : string -> string -> Z.
Variable rand : nat -> Z.

Lemma Insert_unfold fuel k v :
  Insert cmp rand fuel k v =
  (let* node := FindGreaterOrEqual cmp fuel k in
   let* lvl := RandomLevel rand fuel in
   let* prev_node := load Bwd node 0 in
   let* c := compare_node_arg cmp node k in
   let* next_node := (if (c =? 0)%Z then load Fwd node 0 else ret node) in
   let* new_node := alloc k v lvl in
   let* cl := gets current_level in
   let* _ := (if (lvl >? cl)%Z then modify (set_current_level lvl) else ret tt) in
   let* _ := for_range (Z.to_nat lvl) 0 (insert_link_body fuel new_node)
               (next_node, prev_node) in
   let* nn := deref new_node in
   let* sz := gets current_size in
   let* _ := modify (set_current_size (wrap_size (sz + GetSize (snd nn)))) in
   ret new_node).
Proof. reflexivity. Qed.

Hypothesis cmp_trans : forall a b c, (cmp a b < 0)%Z -> (cmp b c < 0)%Z -> (cmp a c < 0)%Z.
Hypothesis cmp_antisym : forall a b, (0 < cmp a b)%Z -> (cmp b a < 0)%Z.

(** [Insert] of a key that no live cell holds, into a well-formed sorted
    skiplist. *)
Lemma Insert_spec fuel k v s L :
  represents s L -> sorted cmp L ->
  Forall (fun c => cmp (c_key c) k <> 0%Z) L ->
  cmp EmptyString k <> 0%Z ->
  (List.length L < fuel)%nat -> (Z.to_nat max_level <= fuel)%nat ->
  exists L1 L2 lvl s',
    L = L1 ++ L2
    /\ Insert cmp rand fuel k v s = Ok (Some (List.length (heap s)), s')
    /\ represents s' (L1 ++ mkCell (List.length (heap s)) k v lvl :: L2)
    /\ sorted cmp (L1 ++ mkCell (List.length (heap s)) k v lvl :: L2)
    /\ current_level s' = Z.max (current_level s) (Z.of_nat lvl)
    /\ current_size s'
       = wrap_size (current_size s
                    + wrap_size (Z.of_nat (String.length k) + Z.of_nat (String.length v))).
Proof.
  intros (hd & tl & Hhead & Htail & Hwf & Hcl & Hcl1) Hsort Hfresh Hne Hfuel Hfuel32.
  (* the search *)
  destruct (FindGreaterOrEqual_spec cmp cmp_trans k L fuel s hd tl)
    as (L1 & L2 & s1 & HL & HL1 & HL2 & E1 & M1); try assumption.
  destruct M1 as (Hh1 & Hcl_1 & Hsz1 & Hhd1 & Htl1 & Hrc1).
  subst L.
  (* the level *)
  destruct (RandomLevel_loop_spec rand fuel 1 s1) as (lvlZ & E2 & Hlvl & _ & _).
  { unfold max_level. lia. } { unfold max_level in *. lia. }
  set (s2 := set_rand_calls (rand_calls s1 + Z.to_nat (lvlZ - 1 + 1)) s1) in *.
  set (lvl := Z.to_nat lvlZ).
  set (nw := List.length (heap s)).
  set (cell := mkCell nw k v lvl).
  pose proof Hwf as (Hnd & Hhdok & Htlok & Hcells & Hlinks & Hend).
  assert (H0 : (0 < Z.to_nat max_level)%nat) by (unfold max_level; lia).
  (* the neighbours at level 0 *)
  assert (Hl0 := Hlinks 0%nat H0). unfold chain in Hl0.
  rewrite (filter_tall0 _ _ Hcells), map_app in Hl0.
  apply linked_at in Hl0 as [_ Hp0]. rewrite hd_map_addr in Hp0.
  assert (E3 : load Bwd (Some (first_addr L2 tl)) 0 s2 = Ok (Some (last_addr L1 hd), s2)).
  { apply (load_prv s2 0). cbn [heap s2 set_rand_calls]. rewrite Hh1. exact Hp0. }
  (* the comparison with the node found *)
  assert (E4 : exists c, compare_node_arg cmp (Some (first_addr L2 tl)) k s2
                         = Ok (c, add_log (EvCompare (KeyOf (first_addr L2 tl)) ArgKey) s2)
                         /\ (c =? 0)%Z = false).
  { destruct L2 as [|c2 L2'].
    - destruct Htlok as (n & Hn & Hk & _). exists (cmp (key n) k). split.
      + apply compare_node_arg_eq. cbn [heap s2 set_rand_calls first_addr]. rewrite Hh1. exact Hn.
      + rewrite Hk. apply Z.eqb_neq. exact Hne.
    - assert (Hc2 : In c2 (L1 ++ c2 :: L2')) by (apply in_or_app; right; left; reflexivity).
      rewrite List.Forall_forall in Hcells, Hfresh.
      destruct (Hcells _ Hc2) as (n & Hn & Hk & _). exists (cmp (key n) k). split.
      + apply compare_node_arg_eq. cbn [heap s2 set_rand_calls first_addr]. rewrite Hh1. exact Hn.
      + rewrite Hk. apply Z.eqb_neq. apply Hfresh. exact Hc2. }
  destruct E4 as (c & E4 & Hc).
  set (s4 := add_log (EvCompare (KeyOf (first_addr L2 tl)) ArgKey) s2) in *.
  (* the allocation and the level update *)
  set (s6 := set_heap (heap s4 ++ [Node_new k v lvlZ]) s4).
  set (s8 := set_current_level (Z.max (current_level s) lvlZ) s6).
  assert (Hheap8 : heap s8 = heap s ++ [Node_new k v lvlZ]).
  { cbn [heap s8 s6 s4 s2 set_current_level set_heap add_log set_rand_calls].
    rewrite Hh1. reflexivity. }
  assert (E8 : (if (lvlZ >? current_level s6)%Z
                then modify (set_current_level lvlZ) else ret tt) s6 = Ok (tt, s8)).
  { cbn [current_level s6 s4 s2 set_heap add_log set_rand_calls]. rewrite Hcl_1.
    destruct (lvlZ >? current_level s)%Z eqn:Hgt.
    - unfold s8. rewrite Z.max_r; [reflexivity|]. apply Z.gtb_lt in Hgt. lia.
    - unfold s8. rewrite Z.max_l; [|rewrite Z.gtb_ltb in Hgt; apply Z.ltb_ge in Hgt; lia].
      unfold ret, set_current_level, s6, s4, s2, set_heap, add_log, set_rand_calls.
      cbn [heap current_level current_size head tail rand_calls log].
      rewrite Hcl_1. reflexivity. }
  (* the memory before the linking loop *)
  assert (Hext : forall a n, heap s !! a = Some n -> heap s8 !! a = Some n).
  { intros a n Hn. rewrite Hheap8. apply lookup_app_l_Some. exact Hn. }
  assert (Hsc : same_contents (heap s) (heap s8)) by (apply same_contents_extends; exact Hext).
  assert (Hnd8 : List.NoDup (hd :: tl :: nw :: map c_addr (L1 ++ L2))).
  { assert (Hfr : ~ In nw (hd :: tl :: map c_addr (L1 ++ L2))).
    { intros [E|[E|Hin]].
      - apply sentinel_addr_bound in Hhdok. unfold nw in E. lia.
      - apply sentinel_addr_bound in Htlok. unfold nw in E. lia.
      - apply in_map_iff in Hin as (c0 & E & Hc0).
        rewrite List.Forall_forall in Hcells. apply Hcells, cell_addr_bound in Hc0.
        unfold nw in E. lia. }
    inversion Hnd as [|? ? A Hnd1]; subst. inversion Hnd1 as [|? ? B Hnd2]; subst.
    constructor; [|constructor; [|constructor]].
    - intros [E|[E|Hin]].
      + apply A. left. exact E.
      + apply Hfr. left. symmetry. exact E.
      + apply A. right. exact Hin.
    - intros [E|Hin].
      + apply Hfr. right. left. symmetry. exact E.
      + apply B. exact Hin.
    - intros Hin. apply Hfr. right. right. exact Hin.
    - exact Hnd2. }
  assert (Hnew8 : cell_ok (heap s8) cell).
  { exists (Node_new k v lvlZ). rewrite Hheap8. split.
    - apply list_lookup_middle. reflexivity.
    - cbn. rewrite !length_replicate. unfold lvl, max_level in *.
      repeat split; try reflexivity; lia. }
  assert (Hlk8 : linking (heap s8) hd tl nw L1 L2 0).
  { intros i Hi. replace (i <? 0)%nat with false by (symmetry; apply Nat.ltb_ge; lia).
    rewrite <- chain_app. eapply linked_extends; [exact Hext|]. apply Hlinks. exact Hi. }
  assert (Hend8 : nxt (heap s8) 0 tl = Some NULL).
  { unfold nxt in *. destruct (heap s !! tl) as [n|] eqn:E; [|discriminate].
    rewrite (Hext _ _ E). exact Hend. }
  assert (Hhd8 : sentinel_ok (heap s8) hd) by (eapply sentinel_ok_contents; eauto).
  assert (Htl8 : sentinel_ok (heap s8) tl) by (eapply sentinel_ok_contents; eauto).
  assert (Hcells8 : Forall (cell_ok (heap s8)) (L1 ++ L2)).
  { eapply List.Forall_impl; [|exact Hcells].
    intros c0. apply cell_ok_contents. exact Hsc. }
  destruct (insert_links_spec fuel k v lvl hd tl nw L1 L2 lvl 0 s8
              eq_refl Hnd8 Hhd8 Htl8 Hcells8 Hnew8 Hlk8 Hend8 Hfuel)
    as (np & s9 & E9 & Hc9 & Hlk9 & Hend9 & Hhd9 & Htl9 & Hcl9 & Hsz9 & Hrc9).
  cbn [pred Z.of_nat] in E9.
  assert (HcL1 : Forall (cell_ok (heap s)) L1 /\ Forall (cell_ok (heap s)) L2)
    by (apply Forall_app in Hcells; exact Hcells).
  destruct HcL1 as [HcL1 HcL2].
  rewrite (filter_tall0 _ _ HcL1), (filter_tall0 _ _ HcL2) in E9.
  (* the new node after the loop *)
  assert (Hnew9 : cell_ok (heap s9) cell) by (eapply cell_ok_contents; eauto).
  destruct Hnew9 as (nb & Hnb & Hkb & Hvb & Hlb & Hnxb & Hpvb & Hrb).
  cbn [c_addr c_key c_value c_level cell] in *.
  exists L1, L2, lvl.
  exists (set_current_size
            (wrap_size (current_size s9
                        + wrap_size (Z.of_nat (String.length k) + Z.of_nat (String.length v)))) s9).
  split; [reflexivity|]. split.
  { rewrite Insert_unfold.
    erewrite bind_Ok_intro by exact E1.
    unfold RandomLevel. erewrite bind_Ok_intro by exact E2.
    erewrite bind_Ok_intro by exact E3.
    erewrite bind_Ok_intro by exact E4.
    rewrite Hc. rewrite bind_ret.
    unfold alloc at 1. unfold bind at 1.
    replace (List.length (heap s4)) with nw
      by (cbn [heap s4 s2 add_log set_rand_calls]; rewrite Hh1; reflexivity).
    fold s6. rewrite bind_gets.
    erewrite bind_Ok_intro by exact E8.
    replace (Z.to_nat lvlZ) with lvl by reflexivity.
    erewrite bind_Ok_intro by exact E9.
    erewrite bind_Ok_intro by (unfold deref; rewrite Hnb; reflexivity).
    rewrite bind_gets, bind_modify. cbn [snd].
    unfold GetSize. rewrite Hkb, Hvb. reflexivity. }
  assert (HscAll : same_contents (heap s) (heap s9))
    by (eapply same_contents_trans; eauto).
  split.
  { exists hd, tl. cbn [head tail heap current_level set_current_size].
    split.
    { rewrite Hhd9. cbn [head s8 s6 s4 s2 set_current_level set_heap add_log set_rand_calls].
      rewrite Hhd1. exact Hhead. }
    split.
    { rewrite Htl9. cbn [tail s8 s6 s4 s2 set_current_level set_heap add_log set_rand_calls].
      rewrite Htl1. exact Htail. }
    split; [|split].
    - split; [|split; [|split; [|split; [|split]]]].
      + (* distinct addresses *)
        rewrite map_app. cbn [map c_addr].
        rewrite map_app in Hnd8.
        inversion Hnd8 as [|? ? A N1]; subst. inversion N1 as [|? ? B N2]; subst.
        inversion N2 as [|? ? C N3]; subst.
        constructor; [|constructor].
        * intros [E|Hin]; [apply A; left; exact E|].
          apply in_app_or in Hin as [Hin|[E|Hin]].
          -- apply A. right. right. apply in_or_app. left. exact Hin.
          -- apply A. right. left. exact E.
          -- apply A. right. right. apply in_or_app. right. exact Hin.
        * intros Hin. apply in_app_or in Hin as [Hin|[E|Hin]].
          -- apply B. right. apply in_or_app. left. exact Hin.
          -- apply B. left. exact E.
          -- apply B. right. apply in_or_app. right. exact Hin.
        * apply List.NoDup_app.
          -- apply List.NoDup_app_remove_r in N3. exact N3.
          -- constructor.
             ++ intros Hin. apply C. apply in_or_app. right. exact Hin.
             ++ apply List.NoDup_app_remove_l in N3. exact N3.
          -- intros a Ha [E|Hin].
             ++ apply C. rewrite E. apply in_or_app. left. exact Ha.
             ++ eapply NoDup_parts; [exact N3|exact Ha|exact Hin].
      + eapply sentinel_ok_contents; eauto.
      + eapply sentinel_ok_contents; eauto.
      + apply Forall_app. split; [|constructor].
        * eapply List.Forall_impl; [|exact HcL1]. intros c0. apply cell_ok_contents. exact HscAll.
        * exists nb. cbn [c_addr c_key c_value c_level]. auto 10.
        * eapply List.Forall_impl; [|exact HcL2]. intros c0. apply cell_ok_contents. exact HscAll.
      + intros i Hi. rewrite chain_insert. cbn [c_addr].
        unfold tall. cbn [c_level]. apply Hlk9. exact Hi.
      + exact Hend9.
    - rewrite Hcl9. cbn [current_level s8 set_current_level]. unfold max_level in *. lia.
    - intros _. rewrite Hcl9. cbn [current_level s8 set_current_level]. lia. }
  split.
  { (* the keys stay sorted *)
    apply sorted_insert; cbn [c_key]; [exact Hsort|exact HL1|].
    destruct L2 as [|c2 L2']; [constructor|].
    assert (Hc2 : In c2 (L1 ++ c2 :: L2')) by (apply in_or_app; right; left; reflexivity).
    rewrite List.Forall_forall in Hfresh. specialize (Hfresh _ Hc2).
    assert (Hk2 : (cmp k (c_key c2) < 0)%Z) by (apply cmp_antisym; lia).
    constructor; [exact Hk2|].
    pose proof (sorted_after cmp _ _ _ Hsort) as Hafter.
    eapply List.Forall_impl; [|exact Hafter].
    intros b Hb. eapply cmp_trans; [exact Hk2|exact Hb]. }
  split.
  { cbn [current_level set_current_size]. rewrite Hcl9.
    cbn [current_level s8 set_current_level]. unfold lvl. rewrite Z2Nat.id by lia. reflexivity. }
  cbn [current_size set_current_size]. rewrite Hsz9.
  cbn [current_size s8 s6 s4 s2 set_current_level set_heap add_log set_rand_calls].
  rewrite Hsz1. reflexivity.
Qed.

End InsertSpec.

End SkiplistInsert.

Module SkiplistOrder.
Import Skiplist SkiplistFacts SkiplistMore SkiplistShape SkiplistLinking SkiplistInsert.
Local Open Scope skip_scope.

(** ** The empty skiplist is well formed *)

Lemma lookup_replicate_lt {A} (x : A) n i : (i < n)%nat -> replicate n x !! i = Some x.
Proof. intros H. apply lookup_replicate_2. exact H. Qed.

Lemma represents_empty (h : list Node) : represents (empty_over h) [].
Proof.
  exists (List.length h), (S (List.length h)).
  split; [reflexivity|]. split; [reflexivity|]. split; [|split].
  - split; [|split; [|split; [|split; [|split]]]].
    + constructor; [|constructor; [|constructor]].
      * intros [E|[]]. lia.
      * intros [].
    + eexists. split; [apply empty_over_head_slot|].
      cbn. rewrite !length_replicate. auto.
    + eexists. split; [apply empty_over_tail_slot|].
      cbn. rewrite !length_replicate. auto.
    + constructor.
    + intros i Hi. cbn [chain List.filter map linked].
      unfold nxt, prv. rewrite empty_over_head_slot, empty_over_tail_slot. cbn.
      rewrite !lookup_replicate_lt by exact Hi. auto.
    + unfold nxt. rewrite empty_over_tail_slot. cbn. reflexivity.
  - cbn. unfold max_level. lia.
  - intros H. contradiction.
Qed.

(** ** Walking level 0 *)

Lemma nxt_vec_get h a q :
  nxt h 0 a = Some q -> exists n, h !! a = Some n /\ vec_get (next n) 0 = Some q.
Proof.
  unfold nxt. destruct (h !! a) as [n|]; [|discriminate]. intros Hq.
  exists n. split; [reflexivity|]. unfold vec_get, in_range.
  apply lookup_lt_Some in Hq as Hlt.
  replace ((0 <=? 0)%Z && (0 <? Z.of_nat (List.length (next n)))%Z) with true.
  - exact Hq.
  - symmetry. apply andb_true_intro. split; [apply Z.leb_le|apply Z.ltb_lt]; lia.
Qed.

Lemma walk0_linked h tl : forall (c : list nat) (x : nat) (fuel : nat),
  linked h 0 x c tl -> ~ In tl c -> (List.length c < fuel)%nat ->
  walk0 fuel h (Some tl) (Some (List.hd tl c)) = Some c.
Proof.
  induction c as [|y c IH]; intros x fuel Hlk Hnt Hf.
  - destruct fuel as [|fuel]; [cbn in Hf; lia|]. cbn [walk0 List.hd].
    rewrite ptr_eqb_refl. reflexivity.
  - destruct fuel as [|fuel]; [cbn in Hf; lia|]. cbn [walk0 List.hd].
    rewrite ptr_eqb_ne by (intros E; apply Hnt; left; exact E).
    cbn [linked] in Hlk. destruct Hlk as (_ & _ & Hlk).
    pose proof (linked_at _ _ [] _ _ _ Hlk) as [Hn _]. cbn [List.last] in Hn.
    apply nxt_vec_get in Hn as (n & Hn & Hv). rewrite Hn, Hv.
    rewrite (IH y fuel Hlk); [reflexivity| |cbn in Hf; lia].
    intros Hin. apply Hnt. right. exact Hin.
Qed.

(** On a well-formed skiplist, walking [next[0]] from [head] meets exactly
    the live cells, in order, and ends at [tail]. *)
Lemma live_nodes_represents (s : State) (L : list Cell) (fuel : nat)
  (Hrep : represents s L) (Hfuel : (List.length L < fuel)%nat) :
  live_nodes fuel s = Some (map c_addr L).
Proof.
  destruct Hrep as (hd & tl & Hhd & Htl & Hwf & _).
  pose proof (wf_tail_fresh _ _ _ _ Hwf) as Hfresh.
  destruct Hwf as (_ & _ & _ & Hcells & Hlinks & _).
  assert (H0 : (0 < Z.to_nat max_level)%nat) by (unfold max_level; lia).
  specialize (Hlinks 0%nat H0). unfold chain in Hlinks.
  rewrite (filter_tall0 _ _ Hcells) in Hlinks.
  unfold live_nodes. rewrite Hhd, Htl.
  pose proof (linked_at _ _ [] _ _ _ Hlinks) as [Hn _]. cbn [List.last] in Hn.
  apply nxt_vec_get in Hn as (n & Hn & Hv). rewrite Hn, Hv.
  apply (walk0_linked _ _ _ hd); [exact Hlinks|exact Hfresh|].
  rewrite length_map. exact Hfuel.
Qed.


(** ** [Find] on a sorted skiplist *)

(** X6. On a skiplist that is well-formed, with strictly increasing keys, and
    whose [current_level] is between 0 and [max_level], at least 1 when a cell
    is live (the shape [Insert] leaves; [Erase] can lower [current_level] to
    0 over live cells, and then the search no longer finds them), under a
    transitive comparator for which the key searched equals itself, [Find]
    returns; it leaves the memory and the members alone; it returns the
    address of the live cell holding that key if there is one, and null if the
    key compares equal neither to the key of a live cell nor to the empty key
    of the sentinels. *)
Theorem Find_on_sorted
  (cmp : string -> string -> Z) (fuel : nat) (k : string) (s : State) (L : list Cell)
  (cmp_trans : forall a b c, (cmp a b < 0)%Z -> (cmp b c < 0)%Z -> (cmp a c < 0)%Z)
  (Hrefl : cmp k k = 0%Z)
  (Hrep : represents s L) (Hsort : sorted cmp L)
  (Hfuel : (List.length L < fuel)%nat) :
  exists r s',
    Find cmp fuel k s = Ok (r, s')
    /\ same_mem s s'
    /\ (forall c, In c L -> c_key c = k -> r = Some (c_addr c))
    /\ ((forall c, In c L -> cmp k (c_key c) <> 0%Z) ->
        cmp k EmptyString <> 0%Z -> r = NULL).
Proof.
  destruct Hrep as (hd & tl & Hhd & Htl & Hwf & Hcl & Hcl1).
  destruct (FindGreaterOrEqual_spec cmp cmp_trans k L fuel s hd tl)
    as (L1 & L2 & s1 & HL & HL1 & HL2 & E1 & M1); try assumption.
  pose proof Hwf as (_ & _ & Htlok & Hcells & _).
  assert (HnotL1 : forall c, In c L1 -> c_key c = k -> False).
  { intros c Hc Hk. rewrite List.Forall_forall in HL1. specialize (HL1 c Hc).
    rewrite Hk, Hrefl in HL1. lia. }
  destruct M1 as (Hh1 & Hrest).
  unfold Find. erewrite bind_Ok_intro by exact E1.
  destruct L2 as [|c2 L2']; cbn [first_addr].
  - destruct Htlok as (n & Hn & Hk & _).
    erewrite bind_Ok_intro by (apply compare_arg_node_eq; rewrite Hh1; exact Hn).
    rewrite Hk.
    exists (if (cmp k EmptyString =? 0)%Z then Some tl else NULL),
           (add_log (EvCompare ArgKey (KeyOf tl)) s1).
    split; [destruct (cmp k EmptyString =? 0)%Z; reflexivity|].
    split; [apply same_mem_log; unfold same_mem; auto|]. split.
    + intros c Hc Hkc. exfalso. rewrite HL, app_nil_r in Hc. eauto.
    + intros _ Hne. apply Z.eqb_neq in Hne. rewrite Hne. reflexivity.
  - assert (Hc2 : In c2 L) by (rewrite HL; apply in_or_app; right; left; reflexivity).
    rewrite List.Forall_forall in Hcells.
    destruct (Hcells _ Hc2) as (n & Hn & Hk & _).
    erewrite bind_Ok_intro by (apply compare_arg_node_eq; rewrite Hh1; exact Hn).
    rewrite Hk.
    exists (if (cmp k (c_key c2) =? 0)%Z then Some (c_addr c2) else NULL),
           (add_log (EvCompare ArgKey (KeyOf (c_addr c2))) s1).
    split; [destruct (cmp k (c_key c2) =? 0)%Z; reflexivity|].
    split; [apply same_mem_log; unfold same_mem; auto|]. split.
    + intros c Hc Hkc. rewrite HL in Hc. apply in_app_or in Hc as [Hc|[Hc|Hc]].
      * exfalso. eauto.
      * subst c2. rewrite Hkc, Hrefl. reflexivity.
      * exfalso. rewrite HL in Hsort. apply sorted_after in Hsort.
        rewrite List.Forall_forall in Hsort. specialize (Hsort c Hc).
        rewrite Hkc in Hsort. lia.
    + intros Habs _. specialize (Habs c2 Hc2). apply Z.eqb_neq in Habs.
      rewrite Habs. reflexivity.
Qed.

(** ** Insert-only clients *)

Section Inserts.
Variable cmp : string -> string -> Z.
Variable rand : nat -> Z.
Hypothesis cmp_trans : forall a b c, (cmp a b < 0)%Z -> (cmp b c < 0)%Z -> (cmp a c < 0)%Z.
Hypothesis cmp_antisym : forall a b, (0 < cmp a b)%Z -> (cmp b a < 0)%Z.

Lemma max_cell_level_insert (L1 L2 : list Cell) c :
  max_cell_level (L1 ++ c :: L2) = Nat.max (max_cell_level (L1 ++ L2)) (c_level c).
Proof.
  induction L1 as [|a L1 IH]; cbn [app max_cell_level fold_right].
  - lia.
  - fold (max_cell_level (L1 ++ c :: L2)). fold (max_cell_level (L1 ++ L2)).
    rewrite IH. lia.
Qed.

Lemma run_inserts fuel : forall (kvs : list (string * string)) (s : State) (L : list Cell),
  represents s L -> sorted cmp L ->
  Forall (fun kv => cmp EmptyString (fst kv) <> 0%Z) kvs ->
  Forall (fun kv => Forall (fun c => cmp (c_key c) (fst kv) <> 0%Z) L) kvs ->
  ForallOrdPairs (fun a b => cmp (fst a) (fst b) <> 0%Z) kvs ->
  (List.length L + List.length kvs <= fuel)%nat -> (Z.to_nat max_level <= fuel)%nat ->
  current_level s = Z.of_nat (max_cell_level L) ->
  exists s' L',
    run_ops cmp rand fuel (inserts kvs) s = Ok (tt, s')
    /\ represents s' L' /\ sorted cmp L'
    /\ Permutation (map cell_pair L') (map cell_pair L ++ kvs)
    /\ current_level s' = Z.of_nat (max_cell_level L').
Proof.
  induction kvs as [|[k v] kvs IH];
    intros s L Hrep Hsort Hne Hfresh Hpairs Hfuel Hfuel32 Hmax.
  - exists s, L. cbn. rewrite app_nil_r. auto.
  - inversion Hne as [|? ? Hne1 Hne']; subst.
    inversion Hfresh as [|? ? Hf1 Hf']; subst.
    inversion Hpairs as [|? ? Hp1 Hp']; subst.
    cbn [fst snd] in *.
    destruct (Insert_spec cmp rand cmp_trans cmp_antisym fuel k v s L)
      as (L1 & L2 & lvl & s1 & HL & E & Hrep1 & Hsort1 & Hcl1 & _); try assumption.
    { cbn [List.length] in Hfuel. lia. }
    set (cell := mkCell (List.length (heap s)) k v lvl) in *.
    destruct (IH s1 (L1 ++ cell :: L2)) as (s2 & L' & E2 & Hrep2 & Hsort2 & Hperm & Hmax2);
      try assumption.
    + rewrite List.Forall_forall in *. intros kv Hkv.
      specialize (Hf' kv Hkv). specialize (Hp1 kv Hkv).
      rewrite List.Forall_forall in *. intros c Hc.
      apply in_app_or in Hc as [Hc|[Hc|Hc]].
      * apply Hf'. rewrite HL. apply in_or_app. left. exact Hc.
      * subst c. cbn [c_key cell]. exact Hp1.
      * apply Hf'. rewrite HL. apply in_or_app. right. exact Hc.
    + rewrite length_app. cbn [List.length] in *. rewrite HL, length_app in Hfuel. lia.
    + rewrite Hcl1, Hmax, HL, max_cell_level_insert. cbn [c_level cell]. lia.
    + exists s2, L'. cbn [inserts map run_ops fst snd].
      erewrite bind_Ok_intro by exact E.
      split; [exact E2|]. split; [exact Hrep2|]. split; [exact Hsort2|].
      split; [|exact Hmax2].
      etransitivity; [exact Hperm|].
      rewrite HL, !map_app. cbn [map]. rewrite <- !app_assoc. cbn [app].
      apply Permutation_app_head.
      change (cell_pair cell) with (k, v).
      apply Permutation_middle.
Qed.

(** X7. A client that only inserts, starting from the empty skiplist: when the
    comparator is transitive and antisymmetric, no two keys compare equal, no
    key compares equal to the empty key of the sentinels, and the loop budget
    covers the number of keys and [max_level], every [Insert] returns and the
    result is a well-formed skiplist whose live cells hold exactly the pairs
    inserted, with keys strictly increasing along level 0, and whose
    [current_level] is the largest level among the live cells. *)
Theorem inserts_build_sorted_skiplist
  (fuel : nat) (kvs : list (string * string))
  (Hnonempty : Forall (fun kv => cmp EmptyString (fst kv) <> 0%Z) kvs)
  (Hdistinct : ForallOrdPairs (fun a b => cmp (fst a) (fst b) <> 0%Z) kvs)
  (Hfuel : (List.length kvs <= fuel)%nat)
  (Hfuel' : (Z.to_nat max_level <= fuel)%nat) :
  exists s L,
    from_empty cmp rand fuel (inserts kvs) = Ok (tt, s)
    /\ represents s L
    /\ sorted cmp L
    /\ Permutation (map cell_pair L) kvs
    /\ current_level s = Z.of_nat (max_cell_level L).
Proof.
  destruct (run_inserts fuel kvs (empty_over []) [])
    as (s & L & E & Hrep & Hsort & Hperm & Hmax); try assumption.
  - apply represents_empty.
  - constructor.
  - rewrite List.Forall_forall. intros kv _. constructor.
  - reflexivity.
  - exists s, L. rewrite from_empty_unfold.
    erewrite bind_Ok_intro by apply PersistentSkiplist_empty_eq.
    auto.
Qed.

Lemma node_key_cells (s : State) (L : list Cell) :
  Forall (cell_ok (heap s)) L -> map (node_key s) (map c_addr L) = map c_key L.
Proof.
  induction 1 as [|c L Hc _ IH]; [reflexivity|]. cbn [map]. rewrite IH. f_equal.
  destruct Hc as (n & Hn & Hk & _). unfold node_key. rewrite Hn. exact Hk.
Qed.

Lemma sorted_keys (L : list Cell) :
  sorted cmp L -> StronglySorted (fun a b => (cmp a b < 0)%Z) (map c_key L).
Proof.
  induction 1 as [|c L _ IH Hall]; cbn [map]; constructor; [exact IH|].
  rewrite List.Forall_forall in *. intros k Hk.
  apply in_map_iff in Hk as (c' & <- & Hc'). auto.
Qed.

(** X5. A client inserts, into the empty skiplist, keys that differ pairwise
    and from the empty key under a transitive and antisymmetric comparator,
    then walks [next[0]] from [Head()] to [Tail()]: every [Insert] returns,
    the walk ends, the keys of the nodes it meets are the inserted keys, and
    they come in strictly increasing order. *)
Theorem inserts_walk_in_key_order
  (fuel : nat) (kvs : list (string * string))
  (Hnonempty : Forall (fun kv => cmp EmptyString (fst kv) <> 0%Z) kvs)
  (Hdistinct : ForallOrdPairs (fun a b => cmp (fst a) (fst b) <> 0%Z) kvs)
  (Hfuel : (List.length kvs < fuel)%nat)
  (Hfuel' : (Z.to_nat max_level <= fuel)%nat) :
  exists s l,
    from_empty cmp rand fuel (inserts kvs) = Ok (tt, s)
    /\ live_nodes fuel s = Some l
    /\ Permutation (map (node_key s) l) (map fst kvs)
    /\ StronglySorted (fun a b => (cmp a b < 0)%Z) (map (node_key s) l).
Proof.
  destruct (run_inserts fuel kvs (empty_over []) [])
    as (s & L & E & Hrep & Hsort & Hperm & Hmax); try assumption.
  - apply represents_empty.
  - constructor.
  - rewrite List.Forall_forall. intros kv _. constructor.
  - cbn [List.length Nat.add]. lia.
  - reflexivity.
  - exists s, (map c_addr L).
    assert (Hcells : Forall (cell_ok (heap s)) L).
    { destruct Hrep as (hd & tl & _ & _ & (_ & _ & _ & Hc & _) & _). exact Hc. }
    split.
    { rewrite from_empty_unfold.
      erewrite bind_Ok_intro by apply PersistentSkiplist_empty_eq. exact E. }
    split.
    { apply live_nodes_represents; [exact Hrep|].
      apply Permutation_length in Hperm. cbn [map app] in Hperm.
      rewrite length_map in Hperm. lia. }
    rewrite (node_key_cells s L Hcells). split.
    + replace (map c_key L) with (map fst (map cell_pair L))
        by (rewrite map_map; reflexivity).
      apply Permutation_map. exact Hperm.
    + apply sorted_keys. exact Hsort.
Qed.

End Inserts.

(** ** The destructor *)

Lemma existsb_fresh a (l : list nat) : ~ In a l -> existsb (Nat.eqb a) l = false.
Proof.
  intros H. destruct (existsb (Nat.eqb a) l) eqn:E; [|reflexivity].
  apply existsb_exists in E as (x & Hx & Hax). apply Nat.eqb_eq in Hax. subst x.
  contradiction.
Qed.

Lemma destroy_loop_linked tl (s : State) : forall (c : list nat) (x : nat) (freed : list nat) (fuel : nat),
  linked (heap s) 0 x c tl -> nxt (heap s) 0 tl = Some NULL ->
  List.NoDup (freed ++ x :: c ++ [tl]) ->
  (List.length c + 2 < fuel)%nat ->
  destroy_loop fuel (Some x) freed s = Ok (freed ++ x :: c ++ [tl], s).
Proof.
  induction c as [|y c IH]; intros x freed fuel Hlk Hend Hnd Hf.
  - destruct fuel as [|[|[|fuel]]]; try (cbn in Hf; lia).
    destruct Hlk as [Hn _].
    assert (Hx : ~ In x freed).
    { intros Hin. eapply NoDup_parts; [exact Hnd|exact Hin|left; reflexivity]. }
    assert (Ht : ~ In tl (freed ++ [x])).
    { intros Hin.
      assert (Hnd' : List.NoDup ((freed ++ [x]) ++ [tl]))
        by (rewrite <- app_assoc; exact Hnd).
      eapply NoDup_parts; [exact Hnd'|exact Hin|left; reflexivity]. }
    cbn [destroy_loop app]. rewrite existsb_fresh by exact Hx.
    erewrite bind_Ok_intro by (apply (load_nxt s 0); exact Hn).
    cbn [destroy_loop]. rewrite existsb_fresh by exact Ht.
    erewrite bind_Ok_intro by (apply (load_nxt s 0); exact Hend).
    cbn [destroy_loop]. rewrite <- app_assoc. reflexivity.
  - destruct fuel as [|fuel]; [cbn in Hf; lia|].
    destruct Hlk as (Hn & _ & Hlk).
    assert (Hx : ~ In x freed).
    { intros Hin. eapply NoDup_parts; [exact Hnd|exact Hin|left; reflexivity]. }
    cbn [destroy_loop]. rewrite existsb_fresh by exact Hx.
    erewrite bind_Ok_intro by (apply (load_nxt s 0); exact Hn).
    rewrite (IH y (freed ++ [x]) fuel Hlk Hend).
    + rewrite <- app_assoc. reflexivity.
    + rewrite <- app_assoc. exact Hnd.
    + cbn in Hf. lia.
Qed.

(** X8. On a well-formed skiplist, whatever its [current_level], the
    destructor returns, and deletes exactly [head], the live cells in level-0
    order, and [tail], each once; it then sets [current_size] to 0. *)
Theorem Destroy_deletes_reachable_nodes
  (s : State) (hd tl : nat) (L : list Cell) (fuel : nat)
  (Hhd : head s = Some hd) (Htl : tail s = Some tl)
  (Hwf : wf (heap s) hd tl L)
  (Hfuel : (List.length L + 2 < fuel)%nat) :
  Destroy fuel s = Ok (hd :: map c_addr L ++ [tl], set_current_size 0 s).
Proof.
  destruct Hwf as (Hnd & _ & _ & Hcells & Hlinks & Hend).
  assert (H0 : (0 < Z.to_nat max_level)%nat) by (unfold max_level; lia).
  specialize (Hlinks 0%nat H0). unfold chain in Hlinks.
  rewrite (filter_tall0 _ _ Hcells) in Hlinks.
  unfold Destroy. rewrite bind_gets, Hhd.
  erewrite bind_Ok_intro.
  2:{ apply (destroy_loop_linked tl s (map c_addr L) hd []); try assumption.
      - cbn [app]. inversion Hnd as [|? ? A N1]; subst. inversion N1 as [|? ? B N2]; subst.
        constructor.
        + intros Hin. apply in_app_or in Hin as [Hin|[E|[]]].
          * apply A. right. exact Hin.
          * apply A. left. exact E.
        + apply List.NoDup_app; [exact N2|constructor; [intros []|constructor]|].
          intros a Ha [E|[]]. subst a. contradiction.
      - rewrite length_map. exact Hfuel. }
  reflexivity.
Qed.

End SkiplistOrder.

Module SkiplistErase.
Import Skiplist SkiplistFacts SkiplistMore SkiplistShape SkiplistLinking SkiplistInsert.
Local Open Scope skip_scope.

Lemma unlink_unfold fuel first last :
  unlink fuel first last =
  (let* left := load Bwd first 0 in
   let* right := load Fwd last 0 in
   let* cl := gets current_level in
   let* _ := for_range (Z.to_nat cl) 0 (erase_body fuel) (left, right) in
   ret tt).
Proof. reflexivity. Qed.

(** ** Cutting a run of nodes out of one level *)

Lemma linked_suffix h i : forall c1 x c2 t,
  linked h i x (c1 ++ c2) t -> linked h i (List.last c1 x) c2 t.
Proof.
  induction c1 as [|z c1 IH]; intros x c2 t H; [exact H|].
  rewrite last_cons. cbn [app linked] in H. destruct H as (_ & _ & H).
  apply IH. exact H.
Qed.

Lemma linked_remove h h' i t : forall c1 x cm c2,
  linked h i x (c1 ++ cm ++ c2) t ->
  List.NoDup (x :: c1 ++ cm ++ c2 ++ [t]) ->
  nxt h' i (List.last c1 x) = Some (Some (List.hd t c2)) ->
  prv h' i (List.hd t c2) = Some (Some (List.last c1 x)) ->
  (forall a, a <> List.last c1 x -> nxt h' i a = nxt h i a) ->
  (forall a, a <> List.hd t c2 -> prv h' i a = prv h i a) ->
  linked h' i x (c1 ++ c2) t.
Proof.
  induction c1 as [|z c1 IH]; intros x cm c2 Hlk Hnd N1 P1 N3 P3.
  - cbn [app List.last] in *.
    inversion Hnd as [|? ? Hx Hnd']; subst.
    destruct c2 as [|y c2]; cbn [linked List.hd] in *.
    + split; assumption.
    + split; [exact N1|]. split; [exact P1|].
      apply linked_app in Hlk as [_ Hlk].
      assert (Hy : ~ In y (c2 ++ [t])).
      { apply List.NoDup_app_remove_l in Hnd'. inversion Hnd'; assumption. }
      eapply linked_ext; [| |exact Hlk].
      * intros a Ha. apply N3. intros ->. apply Hx.
        apply in_or_app. right. apply in_or_app. left. exact Ha.
      * intros a Ha. apply P3. intros ->. apply Hy. exact Ha.
  - rewrite last_cons in *. cbn [app linked] in *.
    destruct Hlk as (Hn & Hp & Hlk).
    inversion Hnd as [|? ? Hx Hnd']; subst.
    split; [|split].
    + rewrite N3; [exact Hn|]. intros ->. apply Hx.
      pose proof (last_in c1 z) as [E|E]; [left; exact E|].
      right. apply in_or_app. left. exact E.
    + rewrite P3; [exact Hp|]. inversion Hnd' as [|? ? Hz _]; subst.
      intros E. apply Hz. rewrite E.
      apply in_or_app. right. apply in_or_app. right. apply hd_in.
    + eapply IH; eassumption.
Qed.


(** With a bound of [max_level] no node stops the walk to the left: it goes
    through [head] and reads the level of a null pointer. *)
Lemma skip_short_bwd_top j hd (s : State) :
  forall (C : list Cell) (rest : list nat) (t : nat) (fuel : nat),
  S j = Z.to_nat max_level ->
  linked (heap s) j hd (map c_addr C ++ rest) t ->
  Forall (cell_ok (heap s)) C -> sentinel_ok (heap s) hd ->
  prv (heap s) j hd = Some NULL ->
  (List.length C + 1 < fuel)%nat ->
  skip_short fuel Bwd (Z.of_nat (S j)) (Z.of_nat j) (Some (last_addr C hd)) s
  = Err NullDeref.
Proof.
  induction C as [|c C IH] using rev_ind; intros rest t fuel Hj Hlk Hok Hhd Hnull Hf.
  - destruct fuel as [|[|fuel]]; try (cbn in Hf; lia).
    unfold last_addr. cbn [map List.last]. cbn [skip_short].
    erewrite bind_Ok_intro by (apply load_level_sentinel; exact Hhd).
    replace (max_level <=? Z.of_nat (S j))%Z with true
      by (symmetry; apply Z.leb_le; unfold max_level in *; lia).
    erewrite bind_Ok_intro by (apply load_prv; exact Hnull).
    reflexivity.
  - destruct fuel as [|fuel]; [lia|].
    apply Forall_app in Hok as [Hok' Hc]. inversion Hc as [|? ? Hc' _]; subst.
    rewrite last_addr_app_cons. cbn [skip_short].
    erewrite bind_Ok_intro by (apply load_level_cell; exact Hc').
    assert (Hl : (c_level c <= Z.to_nat max_level)%nat)
      by (destruct Hc' as (n & _ & _ & _ & _ & _ & _ & Hl); lia).
    replace (Z.of_nat (c_level c) <=? Z.of_nat (S j))%Z with true
      by (symmetry; apply Z.leb_le; lia).
    rewrite map_app, <- app_assoc in Hlk. cbn [map app] in Hlk.
    pose proof (linked_at _ _ _ _ _ _ Hlk) as [_ Hp]. cbn [List.hd] in Hp.
    erewrite bind_Ok_intro by (apply load_prv; exact Hp).
    apply (IH (c_addr c :: rest) t); try assumption.
    rewrite length_app in Hf. cbn in Hf. lia.
Qed.

(** ** One turn of the unlinking loop *)

Lemma NoDup_level3 i hd tl (La Lm Lb : list Cell) :
  List.NoDup (hd :: tl :: map c_addr (La ++ Lm ++ Lb)) ->
  List.NoDup (hd :: chain i La ++ chain i Lm ++ chain i Lb ++ [tl]).
Proof.
  intros H.
  inversion H as [|? ? Hhd H1]; subst. inversion H1 as [|? ? Htl H2]; subst.
  replace (chain i La ++ chain i Lm ++ chain i Lb ++ [tl])
    with (chain i (La ++ Lm ++ Lb) ++ [tl])
    by (rewrite !chain_app, <- !app_assoc; reflexivity).
  assert (Hsub : forall a, In a (chain i (La ++ Lm ++ Lb)) ->
                           In a (map c_addr (La ++ Lm ++ Lb)))
    by (intros a; apply In_map_filter).
  constructor.
  - intros Hin. apply in_app_or in Hin as [Hin|[<-|[]]].
    + apply Hhd. right. apply Hsub. exact Hin.
    + apply Hhd. left. reflexivity.
  - apply List.NoDup_app.
    + apply NoDup_map_filter. exact H2.
    + constructor; [intros []|constructor].
    + intros a Ha [<-|[]]. apply Htl. apply Hsub. exact Ha.
Qed.

Section ELevel.
Variables (fuel : nat) (hd tl : nat) (La Lm Lb : list Cell).
Variable j : nat.
Variable s : State.
Hypothesis Hnd : List.NoDup (hd :: tl :: map c_addr (La ++ Lm ++ Lb)).
Hypothesis Hhd : sentinel_ok (heap s) hd.
Hypothesis Htl : sentinel_ok (heap s) tl.
Hypothesis Hcells : Forall (cell_ok (heap s)) (La ++ Lm ++ Lb).
Hypothesis Hunl : unlinking (heap s) hd tl La Lm Lb j.
Hypothesis Hend : nxt (heap s) 0 tl = Some NULL.
Hypothesis Hr : (j < Z.to_nat max_level)%nat.
Hypothesis Hfuel : (List.length (La ++ Lm ++ Lb) < fuel)%nat.

Local Abbreviation LEFT := (last_addr (List.filter (tall j) La) hd).
Local Abbreviation RIGHT := (first_addr (List.filter (tall j) Lb) tl).
Local Abbreviation h2 :=
  (upd_prev (upd_next (heap s) LEFT j (Some RIGHT)) RIGHT j (Some LEFT)).

Lemma cells_parts :
  Forall (cell_ok (heap s)) La /\ Forall (cell_ok (heap s)) Lm /\ Forall (cell_ok (heap s)) Lb.
Proof.
  apply Forall_app in Hcells as [A B]. apply Forall_app in B as [B C]. auto.
Qed.

Lemma ends_distinct : LEFT <> RIGHT /\ tl <> LEFT /\ hd <> RIGHT.
Proof.
  pose proof (NoDup_level3 j hd tl La Lm Lb Hnd) as Hn.
  assert (HL : In LEFT (hd :: chain j La)) by apply last_in.
  assert (HR : In RIGHT (chain j Lm ++ chain j Lb ++ [tl])).
  { apply in_or_app. right. unfold chain. rewrite <- hd_map_addr. apply hd_in. }
  assert (HT : In tl (chain j Lm ++ chain j Lb ++ [tl])).
  { apply in_or_app. right. apply in_or_app. right. left. reflexivity. }
  change (hd :: chain j La ++ chain j Lm ++ chain j Lb ++ [tl])
    with ((hd :: chain j La) ++ (chain j Lm ++ chain j Lb ++ [tl])) in Hn.
  split; [|split].
  - intros E. apply (NoDup_parts _ _ LEFT Hn HL). rewrite E. exact HR.
  - intros E. apply (NoDup_parts _ _ LEFT Hn HL). rewrite <- E. exact HT.
  - intros E. apply (NoDup_parts _ _ hd Hn); [left; reflexivity|]. rewrite E. exact HR.
Qed.


Lemma h2_contents : same_contents (heap s) h2.
Proof.
  eapply same_contents_trans; [|apply same_contents_upd_prev].
  apply same_contents_upd_next.
Qed.

Lemma h2_nxt_other i a : a <> LEFT \/ i <> j -> nxt h2 i a = nxt (heap s) i a.
Proof. intros H. rewrite nxt_upd_prev. apply nxt_upd_next_ne. exact H. Qed.

Lemma h2_prv_other i a : a <> RIGHT \/ i <> j -> prv h2 i a = prv (heap s) i a.
Proof. intros H. rewrite prv_upd_prev_ne by exact H. apply prv_upd_next. Qed.

Lemma h2_prv_head i : prv h2 i hd = prv (heap s) i hd.
Proof.
  destruct ends_distinct as (_ & _ & A). apply h2_prv_other. left. exact A.
Qed.

Lemma h2_nxt_left : nxt h2 j LEFT = Some (Some RIGHT).
Proof.
  destruct cells_parts as (A & _ & _).
  destruct (last_addr_level j La hd s A Hhd Hr) as (_ & _ & _ & [q Hq] & _).
  rewrite nxt_upd_prev. eapply nxt_upd_next_eq. exact Hq.
Qed.

Lemma h2_prv_right : prv h2 j RIGHT = Some (Some LEFT).
Proof.
  destruct cells_parts as (_ & _ & C).
  destruct (first_addr_level j Lb tl s C Htl Hr) as (_ & _ & _ & _ & [q Hq]).
  eapply prv_upd_prev_eq. rewrite prv_upd_next. exact Hq.
Qed.

Lemma h2_level : linked h2 j hd (chain j La ++ chain j Lb) tl.
Proof.
  pose proof (Hunl j Hr) as Hlk.
  replace (j <? j)%nat with false in Hlk by (symmetry; apply Nat.ltb_ge; lia).
  eapply (linked_remove (heap s)); [exact Hlk| | | | |].
  - apply NoDup_level3. exact Hnd.
  - unfold chain at 2. rewrite hd_map_addr. apply h2_nxt_left.
  - unfold chain at 1. rewrite hd_map_addr. apply h2_prv_right.
  - intros a Ha. apply h2_nxt_other. left. exact Ha.
  - intros a Ha. apply h2_prv_other. left. unfold chain in Ha. rewrite hd_map_addr in Ha.
    exact Ha.
Qed.

Lemma h2_unlinking : unlinking h2 hd tl La Lm Lb (S j).
Proof.
  intros i Hi. destruct (decide (i = j)) as [->|Hne].
  - replace (j <? S j)%nat with true by (symmetry; apply Nat.ltb_lt; lia).
    apply h2_level.
  - pose proof (Hunl i Hi) as Hlk.
    replace (i <? S j)%nat with (i <? j)%nat.
    + eapply linked_ext; [| |exact Hlk].
      * intros a _. apply h2_nxt_other. right. exact Hne.
      * intros a _. apply h2_prv_other. right. exact Hne.
    + destruct (i <? j)%nat eqn:E.
      * symmetry. apply Nat.ltb_lt. apply Nat.ltb_lt in E. lia.
      * symmetry. apply Nat.ltb_ge. apply Nat.ltb_ge in E. lia.
Qed.

Lemma h2_end : nxt h2 0 tl = Some NULL.
Proof.
  destruct ends_distinct as (_ & A & _).
  rewrite h2_nxt_other by (left; exact A). exact Hend.
Qed.

(** The stores and the flush of one turn. *)
Lemma erase_body_stores :
  exists s3,
    heap s3 = h2 /\ head s3 = head s /\ tail s3 = tail s
    /\ current_level s3 = current_level s /\ current_size s3 = current_size s
    /\ rand_calls s3 = rand_calls s
    /\ erase_body fuel (Z.of_nat j) (Some LEFT, Some RIGHT) s
       = (let* left' := skip_short fuel Bwd (Z.of_nat (S j)) (Z.of_nat j) (Some LEFT) in
          let* right' := skip_short fuel Fwd (Z.of_nat (S j)) (Z.of_nat j) (Some RIGHT) in
          ret (left', right')) s3.
Proof.
  destruct cells_parts as (HA & HM & HB).
  destruct (last_addr_level j La hd s HA Hhd Hr) as (_ & _ & _ & [ln Hln] & _).
  destruct (first_addr_level j Lb tl s HB Htl Hr) as (_ & _ & _ & _ & [rp Hrp]).
  unfold erase_body. cbn [fst snd].
  erewrite bind_Ok_intro by (eapply store_next; exact Hln).
  erewrite bind_Ok_intro.
  2:{ eapply store_prev. cbn [heap set_heap]. rewrite prv_upd_next. exact Hrp. }
  cbn [heap set_heap].
  set (s2 := set_heap h2 (set_heap (upd_next (heap s) LEFT j (Some RIGHT)) s)).
  assert (Hflush : exists s3,
             (if (Z.of_nat j =? 0)%Z
              then let* a := load Fwd (Some LEFT) 0 in emit (EvFlush a SizeofPtr)
              else ret tt) s2 = Ok (tt, s3)
             /\ heap s3 = h2 /\ head s3 = head s /\ tail s3 = tail s
             /\ current_level s3 = current_level s /\ current_size s3 = current_size s
             /\ rand_calls s3 = rand_calls s).
  { destruct (Z.of_nat j =? 0)%Z eqn:Ej.
    - apply Z.eqb_eq in Ej. assert (Hj0 : j = 0%nat) by lia.
      assert (N1 : forall i, i = j -> nxt h2 i LEFT = Some (Some RIGHT))
        by (intros i ->; apply h2_nxt_left).
      specialize (N1 0%nat (eq_sym Hj0)).
      erewrite bind_Ok_intro by (apply (load_nxt _ 0); cbn [heap s2 set_heap]; exact N1).
      eexists. split; [reflexivity|]. cbn. auto 10.
    - exists s2. split; [reflexivity|]. cbn. auto 10. }
  destruct Hflush as (s3 & E3 & Hh3 & A & B & C & D & F).
  erewrite bind_Ok_intro by exact E3.
  replace (Z.of_nat j + 1)%Z with (Z.of_nat (S j)) by lia.
  exists s3. auto 10.
Qed.

(** One turn: the two stores cut the cells of [Lm] out of level [j], and the
    two walks move outwards to the nearest nodes tall enough for the next
    level. *)
Lemma unlink_level :
  (S j < Z.to_nat max_level)%nat ->
  exists s',
    erase_body fuel (Z.of_nat j) (Some LEFT, Some RIGHT) s
    = Ok ((Some (last_addr (List.filter (tall (S j)) La) hd),
           Some (first_addr (List.filter (tall (S j)) Lb) tl)), s')
    /\ same_contents (heap s) (heap s')
    /\ unlinking (heap s') hd tl La Lm Lb (S j)
    /\ nxt (heap s') 0 tl = Some NULL
    /\ head s' = head s /\ tail s' = tail s
    /\ current_level s' = current_level s /\ current_size s' = current_size s
    /\ rand_calls s' = rand_calls s
    /\ (forall i, prv (heap s') i hd = prv (heap s) i hd).
Proof.
  intros Hj.
  destruct cells_parts as (HA & HM & HB).
  destruct erase_body_stores as (s3 & Hh3 & A & B & C & D & F & E).
  rewrite E.
  assert (Hlk3 : linked (heap s3) j hd (chain j La ++ chain j Lb) tl)
    by (rewrite Hh3; apply h2_level).
  assert (Hc3 : same_contents (heap s) (heap s3)) by (rewrite Hh3; apply h2_contents).
  erewrite bind_Ok_intro.
  2:{ unfold chain in Hlk3 at 1.
      rewrite (skip_short_bwd j hd s3 _ _ tl fuel Hj Hlk3).
      - rewrite filter_tall_tall. reflexivity.
      - apply Forall_filter_in. eapply List.Forall_impl; [|exact HA].
        intros c. apply cell_ok_contents. exact Hc3.
      - eapply sentinel_ok_contents; eauto.
      - pose proof (List.filter_length_le (tall j) La). rewrite length_app in Hfuel. lia. }
  erewrite bind_Ok_intro.
  2:{ apply linked_suffix in Hlk3. unfold chain in Hlk3 at 2.
      rewrite (skip_short_fwd j tl s3 _ _ fuel Hj Hlk3).
      - rewrite filter_tall_tall. reflexivity.
      - apply Forall_filter_in. eapply List.Forall_impl; [|exact HB].
        intros c. apply cell_ok_contents. exact Hc3.
      - eapply sentinel_ok_contents; eauto.
      - pose proof (List.filter_length_le (tall j) Lb). rewrite !length_app in Hfuel. lia. }
  exists s3. split; [reflexivity|]. rewrite Hh3.
  split; [apply h2_contents|]. split; [apply h2_unlinking|]. split; [apply h2_end|].
  do 5 (split; [assumption|]). apply h2_prv_head.
Qed.

(** The turn at the top level [max_level - 1]: the walk to the left finds no
    node taller than [max_level], passes [head], and reads the level of the
    null pointer that [head->prev] holds. *)
Lemma unlink_top :
  S j = Z.to_nat max_level ->
  prv (heap s) j hd = Some NULL ->
  (List.length La + 1 < fuel)%nat ->
  erase_body fuel (Z.of_nat j) (Some LEFT, Some RIGHT) s = Err NullDeref.
Proof.
  intros Hj Hnull Hf.
  destruct cells_parts as (HA & HM & HB).
  destruct erase_body_stores as (s3 & Hh3 & A & B & C & D & F & E).
  rewrite E.
  assert (Hlk3 : linked (heap s3) j hd (chain j La ++ chain j Lb) tl)
    by (rewrite Hh3; apply h2_level).
  assert (Hc3 : same_contents (heap s) (heap s3)) by (rewrite Hh3; apply h2_contents).
  unfold bind at 1. unfold chain in Hlk3 at 1.
  rewrite (skip_short_bwd_top j hd s3 _ _ tl fuel Hj Hlk3); [reflexivity| | | |].
  - apply Forall_filter_in. eapply List.Forall_impl; [|exact HA].
    intros c. apply cell_ok_contents. exact Hc3.
  - eapply sentinel_ok_contents; eauto.
  - rewrite Hh3, h2_prv_head. exact Hnull.
  - pose proof (List.filter_length_le (tall j) La). lia.
Qed.

End ELevel.


(** The whole unlinking loop. *)
Lemma unlink_loop_spec fuel hd tl La Lm Lb : forall n j s,
  List.NoDup (hd :: tl :: map c_addr (La ++ Lm ++ Lb)) ->
  sentinel_ok (heap s) hd -> sentinel_ok (heap s) tl ->
  Forall (cell_ok (heap s)) (La ++ Lm ++ Lb) ->
  unlinking (heap s) hd tl La Lm Lb j ->
  nxt (heap s) 0 tl = Some NULL ->
  (j + n < Z.to_nat max_level)%nat ->
  (List.length (La ++ Lm ++ Lb) < fuel)%nat ->
  exists lr s',
    for_range n (Z.of_nat j) (erase_body fuel)
      (Some (last_addr (List.filter (tall j) La) hd),
       Some (first_addr (List.filter (tall j) Lb) tl)) s
    = Ok (lr, s')
    /\ same_contents (heap s) (heap s')
    /\ unlinking (heap s') hd tl La Lm Lb (j + n)
    /\ nxt (heap s') 0 tl = Some NULL
    /\ head s' = head s /\ tail s' = tail s
    /\ current_level s' = current_level s /\ current_size s' = current_size s
    /\ rand_calls s' = rand_calls s
    /\ (forall i, prv (heap s') i hd = prv (heap s) i hd)
    /\ lr = (Some (last_addr (List.filter (tall (j + n)) La) hd),
             Some (first_addr (List.filter (tall (j + n)) Lb) tl)).
Proof.
  induction n as [|n IH]; intros j s Hnd Hhd Htl Hcells Hunl Hend Hjn Hfuel.
  - rewrite Nat.add_0_r. eexists. exists s. cbn [for_range].
    split; [reflexivity|]. split; [apply same_contents_refl|]. auto 12.
  - destruct (unlink_level fuel hd tl La Lm Lb j s)
      as (s1 & E & Hc & Hunl1 & Hend1 & A & B & C & D & F & G); try assumption; [lia|lia|].
    cbn [for_range]. erewrite bind_Ok_intro by exact E.
    replace (Z.of_nat j + 1)%Z with (Z.of_nat (S j)) by lia.
    destruct (IH (S j) s1)
      as (lr & s2 & E2 & Hc2 & Hunl2 & Hend2 & A2 & B2 & C2 & D2 & F2 & G2 & R2);
      try assumption.
    + eapply sentinel_ok_contents; eauto.
    + eapply sentinel_ok_contents; eauto.
    + eapply List.Forall_impl; [|exact Hcells]. intros c. apply cell_ok_contents. exact Hc.
    + lia.
    + exists lr, s2. split; [exact E2|].
      split; [eapply same_contents_trans; eauto|].
      replace (j + S n)%nat with (S j + n)%nat by lia.
      split; [exact Hunl2|].
      split; [exact Hend2|].
      do 5 (split; [congruence|]).
      split; [intros i; rewrite G2; apply G|exact R2].
Qed.

Lemma for_range_split {A} (body : Z -> A -> M A) : forall (n m : nat) (i : Z) (a : A) (s : State),
  for_range (n + m) i body a s
  = (let* a' := for_range n i body a in for_range m (i + Z.of_nat n) body a') s.
Proof.
  induction n as [|n IH]; intros m i a s.
  - cbn [Nat.add for_range]. rewrite bind_ret. replace (i + Z.of_nat 0)%Z with i by lia.
    reflexivity.
  - cbn [Nat.add for_range]. rewrite bind_assoc. unfold bind.
    destruct (body i a s) as [[a1 s1]|f]; [|reflexivity].
    rewrite IH. unfold bind.
    replace (i + 1 + Z.of_nat n)%Z with (i + Z.of_nat (S n))%Z by lia.
    reflexivity.
Qed.

(** ** The levels of the cells *)

Lemma chain_above i (L : list Cell) : (max_cell_level L <= i)%nat -> chain i L = [].
Proof.
  unfold chain. induction L as [|c L IH]; intros H; [reflexivity|].
  cbn [max_cell_level fold_right] in H. fold (max_cell_level L) in H.
  cbn [List.filter]. unfold tall at 1.
  replace (i <? c_level c)%nat with false by (symmetry; apply Nat.ltb_ge; lia).
  apply IH. lia.
Qed.

Lemma chain_below i (L : list Cell) : (i < max_cell_level L)%nat -> chain i L <> [].
Proof.
  unfold chain. induction L as [|c L IH]; intros H.
  - cbn in H. lia.
  - cbn [max_cell_level fold_right] in H. fold (max_cell_level L) in H.
    cbn [List.filter]. unfold tall at 1.
    destruct (i <? c_level c)%nat eqn:E; [discriminate|].
    apply Nat.ltb_ge in E. apply IH. lia.
Qed.

Lemma max_cell_level_pos h (L : list Cell) :
  Forall (cell_ok h) L -> L <> [] -> (1 <= max_cell_level L)%nat.
Proof.
  intros H Hne. destruct L as [|c L]; [congruence|].
  apply Forall_cons in H as [(n & _ & _ & _ & _ & _ & _ & Hl) _].
  cbn [max_cell_level fold_right]. lia.
Qed.

Lemma max_cell_level_app (L1 L2 : list Cell) :
  max_cell_level (L1 ++ L2) = Nat.max (max_cell_level L1) (max_cell_level L2).
Proof.
  induction L1 as [|c L1 IH]; [reflexivity|].
  cbn [app max_cell_level fold_right]. fold (max_cell_level (L1 ++ L2)).
  fold (max_cell_level L1). rewrite IH. lia.
Qed.

Lemma NoDup_drop_middle {A} (pre mid post : list A) :
  List.NoDup (pre ++ mid ++ post) -> List.NoDup (pre ++ post).
Proof.
  induction mid as [|x mid IH]; intros H; [exact H|].
  apply IH. cbn [app] in H. eapply List.NoDup_remove_1. exact H.
Qed.

(** ** The loop that lowers [current_level] *)

Lemma top_level_empty_true s hd tl c :
  head s = Some hd -> tail s = Some tl -> current_level s = Z.of_nat c ->
  linked (heap s) c hd [] tl -> top_level_empty s = Ok (true, s).
Proof.
  intros Hh Ht Hc [A B]. unfold top_level_empty.
  rewrite !bind_gets. rewrite Hh, Ht, Hc.
  erewrite bind_Ok_intro by (apply load_nxt; exact A).
  rewrite ptr_eqb_refl.
  erewrite bind_Ok_intro by (apply load_prv; exact B).
  rewrite ptr_eqb_refl. reflexivity.
Qed.

Lemma top_level_empty_false s hd tl c y r :
  head s = Some hd -> tail s = Some tl -> current_level s = Z.of_nat c ->
  linked (heap s) c hd (y :: r) tl -> y <> tl -> top_level_empty s = Ok (false, s).
Proof.
  intros Hh Ht Hc (A & _) Hne. unfold top_level_empty.
  rewrite !bind_gets. rewrite Hh, Ht, Hc.
  erewrite bind_Ok_intro by (apply load_nxt; exact A).
  rewrite ptr_eqb_ne by exact Hne. reflexivity.
Qed.

Lemma top_level_empty_wrapped s hd :
  head s = Some hd -> sentinel_ok (heap s) hd -> current_level s = wrap_size (-1) ->
  top_level_empty s = Err OutOfBounds.
Proof.
  intros Hh (n & Hn & _ & _ & Hnx & _) Hc. unfold top_level_empty.
  rewrite !bind_gets. rewrite Hh, Hc.
  unfold load, bind, deref. rewrite Hn. cbn [snd links].
  unfold vec_get, in_range. rewrite Hnx.
  reflexivity.
Qed.

Lemma shrink_spec hd tl (L : list Cell) : forall c fuel s,
  head s = Some hd -> tail s = Some tl -> wf (heap s) hd tl L ->
  current_level s = Z.of_nat c ->
  (c < Z.to_nat max_level)%nat -> (max_cell_level L <= c)%nat -> (c + 2 <= fuel)%nat ->
  (L <> [] ->
   shrink fuel s = Ok (tt, set_current_level (Z.of_nat (max_cell_level L) - 1) s))
  /\ (L = [] -> shrink fuel s = Err OutOfBounds).
Proof.
  induction c as [|c IH]; intros fuel s Hh Ht Hwf Hc Hlt Hmax Hfuel.
  - destruct fuel as [|[|fuel]]; try lia.
    pose proof Hwf as (Hnd & Hhd & Htl & Hcells & Hlk & Hend).
    assert (E0 : top_level_empty s = Ok (true, s)).
    { eapply (top_level_empty_true s hd tl 0); try assumption.
      rewrite <- (chain_above 0 L) by lia. apply Hlk. exact Hlt. }
    split.
    + intros Hne. pose proof (max_cell_level_pos _ _ Hcells Hne). lia.
    + intros _. cbn [shrink].
      erewrite bind_Ok_intro by exact E0.
      cbv iota. unfold decrement_level. rewrite bind_assoc, bind_gets, bind_modify, Hc.
      change (Z.of_nat 0 - 1)%Z with (-1)%Z.
      cbn [shrink]. unfold bind at 1.
      rewrite (top_level_empty_wrapped _ hd); [reflexivity|exact Hh|exact Hhd|reflexivity].
  - destruct fuel as [|fuel]; [lia|].
    pose proof Hwf as (Hnd & Hhd & Htl & Hcells & Hlk & Hend).
    assert (E0 : top_level_empty s = Ok (true, s)).
    { eapply (top_level_empty_true s hd tl (S c)); try assumption.
      rewrite <- (chain_above (S c) L) by lia. apply Hlk. exact Hlt. }
    cbn [shrink]. erewrite bind_Ok_intro by exact E0.
    cbv iota. unfold decrement_level. rewrite bind_assoc, bind_gets, bind_modify, Hc.
    replace (wrap_size (Z.of_nat (S c) - 1)) with (Z.of_nat c).
    2:{ unfold wrap_size. rewrite Z.mod_small; [lia|].
        unfold max_level in Hlt. unfold SIZE_MOD. lia. }
    set (s1 := set_current_level (Z.of_nat c) s).
    destruct (Nat.le_gt_cases (max_cell_level L) c) as [Hle|Hgt].
    + destruct (IH fuel s1) as [A B]; try assumption; try reflexivity; try lia.
      split; [|exact B]. intros Hne. rewrite (A Hne). reflexivity.
    + assert (Hm : max_cell_level L = S c) by lia.
      assert (Hne : chain c L <> []) by (apply chain_below; lia).
      destruct (chain c L) as [|y r] eqn:Ech; [congruence|].
      assert (Hy : y <> tl).
      { intros ->. apply (wf_tail_fresh _ _ _ _ Hwf).
        apply (In_map_filter (tall c)). fold (chain c L). rewrite Ech. left. reflexivity. }
      assert (E1 : top_level_empty s1 = Ok (false, s1)).
      { eapply (top_level_empty_false s1 hd tl c y r); try assumption; try reflexivity.
        rewrite <- Ech. apply Hlk. lia. }
      destruct fuel as [|fuel]; [lia|]. cbn [shrink].
      erewrite bind_Ok_intro by exact E1.
      split.
      * intros _. rewrite Hm. replace (Z.of_nat (S c) - 1)%Z with (Z.of_nat c) by lia.
        reflexivity.
      * intros ->. cbn in Hm. lia.
Qed.

(** ** The whole of [Erase] on a well-formed skiplist *)

(** The two loads that open [Erase]. *)
Lemma unlink_loads fuel hd tl La Lm Lb s :
  wf (heap s) hd tl (La ++ Lm ++ Lb) ->
  Lm <> [] ->
  unlink fuel (Some (first_addr Lm hd)) (Some (last_addr Lm hd)) s
  = (let* _ := for_range (Z.to_nat (current_level s)) 0 (erase_body fuel)
                 (Some (last_addr (List.filter (tall 0) La) hd),
                  Some (first_addr (List.filter (tall 0) Lb) tl)) in
     ret tt) s.
Proof.
  intros Hwf Hne.
  pose proof Hwf as (Hnd & Hhd & Htl & Hcells & Hlk & Hend).
  pose proof Hcells as Hcells'.
  apply Forall_app in Hcells' as [HA HBC]. apply Forall_app in HBC as [HM HB].
  assert (H0 : (0 < Z.to_nat max_level)%nat) by (unfold max_level; lia).
  pose proof (Hlk 0%nat H0) as Hl0.
  rewrite !chain_app in Hl0.
  assert (Hfirst : List.hd tl (chain 0 Lm ++ chain 0 Lb) = first_addr Lm hd).
  { unfold chain. rewrite (filter_tall0 _ _ HM). destruct Lm; [congruence|reflexivity]. }
  assert (Hlast : List.last (chain 0 La ++ chain 0 Lm) hd = last_addr Lm hd).
  { unfold chain at 2. rewrite (filter_tall0 _ _ HM). unfold last_addr.
    destruct Lm as [|c Lm'] using rev_ind; [congruence|].
    rewrite map_app. cbn [map]. rewrite !app_assoc, !last_last. reflexivity. }
  pose proof (linked_at _ _ _ _ _ _ Hl0) as [_ Hprv]. rewrite Hfirst in Hprv.
  pose proof Hl0 as Hl0'. rewrite app_assoc in Hl0'.
  pose proof (linked_at _ _ _ _ _ _ Hl0') as [Hnxt _]. rewrite Hlast in Hnxt.
  rewrite unlink_unfold.
  erewrite bind_Ok_intro by (apply (load_prv _ 0); exact Hprv).
  erewrite bind_Ok_intro by (apply (load_nxt _ 0); exact Hnxt).
  rewrite bind_gets.
  assert (Hl : List.last (chain 0 La) hd = last_addr (List.filter (tall 0) La) hd)
    by reflexivity.
  assert (Hr : List.hd tl (chain 0 Lb) = first_addr (List.filter (tall 0) Lb) tl)
    by (unfold chain; apply hd_map_addr).
  rewrite Hl, Hr. reflexivity.
Qed.

Lemma unlinking_start h hd tl La Lm Lb :
  wf h hd tl (La ++ Lm ++ Lb) -> unlinking h hd tl La Lm Lb 0.
Proof.
  intros (_ & _ & _ & _ & Hlk & _) i Hi.
  replace (i <? 0)%nat with false by (symmetry; apply Nat.ltb_ge; lia).
  rewrite <- !chain_app. apply Hlk. exact Hi.
Qed.

Lemma unlink_spec fuel hd tl La Lm Lb s :
  wf (heap s) hd tl (La ++ Lm ++ Lb) ->
  Lm <> [] ->
  (Z.of_nat (max_cell_level Lm) <= current_level s < max_level)%Z ->
  (List.length (La ++ Lm ++ Lb) < fuel)%nat ->
  exists s',
    unlink fuel (Some (first_addr Lm hd)) (Some (last_addr Lm hd)) s = Ok (tt, s')
    /\ wf (heap s') hd tl (La ++ Lb)
    /\ same_contents (heap s) (heap s')
    /\ head s' = head s /\ tail s' = tail s
    /\ current_level s' = current_level s /\ current_size s' = current_size s
    /\ rand_calls s' = rand_calls s.
Proof.
  intros Hwf Hne Hcl Hfuel.
  pose proof Hwf as (Hnd & Hhd & Htl & Hcells & Hlk & Hend).
  pose proof Hcells as Hcells'.
  apply Forall_app in Hcells' as [HA HBC]. apply Forall_app in HBC as [HM HB].
  rewrite (unlink_loads fuel hd tl La Lm Lb s Hwf Hne).
  destruct (unlink_loop_spec fuel hd tl La Lm Lb (Z.to_nat (current_level s)) 0 s)
    as (lr & s1 & E & Hc & Hunl & Hend1 & A & B & C & D & F & _); try assumption.
  { apply unlinking_start. exact Hwf. }
  { unfold max_level in *. lia. }
  change (Z.of_nat 0) with 0%Z in E.
  erewrite bind_Ok_intro by exact E.
  exists s1. split; [reflexivity|]. split; [|auto 10].
  split.
  { change (hd :: tl :: map c_addr (La ++ Lb))
      with ((hd :: tl :: []) ++ map c_addr (La ++ Lb)).
    rewrite map_app. rewrite app_assoc.
    apply (NoDup_drop_middle _ (map c_addr Lm)). rewrite <- !app_assoc.
    rewrite <- !map_app. exact Hnd. }
  split; [eapply sentinel_ok_contents; eauto|].
  split; [eapply sentinel_ok_contents; eauto|].
  split.
  { apply Forall_app. split.
    - eapply List.Forall_impl; [|exact HA]. intros c. apply cell_ok_contents. exact Hc.
    - eapply List.Forall_impl; [|exact HB]. intros c. apply cell_ok_contents. exact Hc. }
  split; [|exact Hend1].
  intros i Hi. pose proof (Hunl i Hi) as Hli. cbn [Nat.add] in Hli.
  rewrite chain_app.
  destruct (i <? Z.to_nat (current_level s))%nat eqn:Ei; [exact Hli|].
  apply Nat.ltb_ge in Ei. rewrite (chain_above i Lm) in Hli by lia. exact Hli.
Qed.

Lemma Erase_spec fuel hd tl La Lm Lb s :
  head s = Some hd -> tail s = Some tl ->
  wf (heap s) hd tl (La ++ Lm ++ Lb) ->
  Lm <> [] ->
  (Z.of_nat (max_cell_level (La ++ Lm ++ Lb)) <= current_level s < max_level)%Z ->
  (List.length (La ++ Lm ++ Lb) < fuel)%nat ->
  (Z.to_nat max_level < fuel)%nat ->
  (La ++ Lb <> [] ->
   exists s',
     Erase fuel (Some (first_addr Lm hd)) (Some (last_addr Lm hd)) s = Ok (tt, s')
     /\ head s' = Some hd /\ tail s' = Some tl
     /\ wf (heap s') hd tl (La ++ Lb)
     /\ same_contents (heap s) (heap s')
     /\ current_level s' = (Z.of_nat (max_cell_level (La ++ Lb)) - 1)%Z
     /\ current_size s' = current_size s)
  /\ (La ++ Lb = [] ->
      Erase fuel (Some (first_addr Lm hd)) (Some (last_addr Lm hd)) s = Err OutOfBounds).
Proof.
  intros Hh Ht Hwf Hne Hcl Hf1 Hf2.
  rewrite !max_cell_level_app in Hcl.
  destruct (unlink_spec fuel hd tl La Lm Lb s)
    as (s1 & E & Hwf1 & Hc & A & B & C & D & F); try assumption; [lia|].
  assert (Hs : (La ++ Lb <> [] ->
                shrink fuel s1
                = Ok (tt, set_current_level (Z.of_nat (max_cell_level (La ++ Lb)) - 1) s1))
               /\ (La ++ Lb = [] -> shrink fuel s1 = Err OutOfBounds)).
  { apply (shrink_spec hd tl (La ++ Lb) (Z.to_nat (current_level s))).
    - congruence.
    - congruence.
    - exact Hwf1.
    - rewrite C. lia.
    - unfold max_level in *. lia.
    - rewrite max_cell_level_app. lia.
    - unfold max_level in *. lia. }
  destruct Hs as [Hs1 Hs2]. unfold Erase. erewrite bind_Ok_intro by exact E. split.
  - intros Hrem. rewrite (Hs1 Hrem). eexists. split; [reflexivity|].
    cbn [head tail heap current_level current_size set_current_level].
    split; [congruence|]. split; [congruence|]. auto.
  - intros Hrem. apply Hs2. exact Hrem.
Qed.

(** X9. [Erase] on a well-formed skiplist whose [current_level] is below
    [max_level] and not below the level of any live cell, called with the
    first and the last node of a run [Lm] of consecutive live cells that
    leaves at least one live cell: it returns, the result is a well-formed
    skiplist over the remaining cells, no node's contents change,
    [current_size] is left as it was, and [current_level] ends one below the
    largest level among the remaining cells. *)
Theorem Erase_unlinks_range
  (fuel : nat) (hd tl : nat) (La Lm Lb : list Cell) (s : State)
  (Hhead : head s = Some hd) (Htail : tail s = Some tl)
  (Hwf : wf (heap s) hd tl (La ++ Lm ++ Lb))
  (Hrange : Lm <> []) (Hrest : La ++ Lb <> [])
  (Hlevel : (Z.of_nat (max_cell_level (La ++ Lm ++ Lb)) <= current_level s < max_level)%Z)
  (Hfuel : (List.length (La ++ Lm ++ Lb) < fuel)%nat)
  (Hfuel' : (Z.to_nat max_level < fuel)%nat) :
  exists s',
    Erase fuel (Some (first_addr Lm hd)) (Some (last_addr Lm hd)) s = Ok (tt, s')
    /\ head s' = Some hd /\ tail s' = Some tl
    /\ wf (heap s') hd tl (La ++ Lb)
    /\ same_contents (heap s) (heap s')
    /\ current_level s' = (Z.of_nat (max_cell_level (La ++ Lb)) - 1)%Z
    /\ current_size s' = current_size s.
Proof.
  destruct (Erase_spec fuel hd tl La Lm Lb s) as [H _]; try assumption.
  exact (H Hrest).
Qed.

(** X10. [Erase] on a well-formed skiplist whose [current_level] is below
    [max_level] and not below the level of any live cell, called with the
    first and the last live node, so that no live cell remains: the
    unlinking loop empties every level, the loop that lowers [current_level]
    then finds every level empty down to level 0, decrements the unsigned
    [current_level] once more, and indexes [head->next] out of bounds.  (With
    a [current_level] below the level of a live cell, as an earlier [Erase]
    can leave it, that cell stays linked on the upper levels instead.) *)
Theorem Erase_of_all_cells_overruns
  (fuel : nat) (hd tl : nat) (L : list Cell) (s : State)
  (Hhead : head s = Some hd) (Htail : tail s = Some tl)
  (Hwf : wf (heap s) hd tl L)
  (Hrange : L <> [])
  (Hlevel : (Z.of_nat (max_cell_level L) <= current_level s < max_level)%Z)
  (Hfuel : (List.length L < fuel)%nat)
  (Hfuel' : (Z.to_nat max_level < fuel)%nat) :
  Erase fuel (Some (first_addr L hd)) (Some (last_addr L hd)) s = Err OutOfBounds.
Proof.
  destruct (Erase_spec fuel hd tl [] L [] s) as [_ H]; cbn [app];
    rewrite ?app_nil_r; try assumption.
  apply H. reflexivity.
Qed.

(** X18. [Erase] on a well-formed skiplist whose [current_level] is
    [max_level] (some node got the largest level), with [head->prev] null at
    the top level as the constructor leaves it: in the last turn of the
    unlinking loop the test [left->level <= level + 1] holds for every node,
    so the walk to the left passes [head] and dereferences the null pointer
    in [head->prev]. *)
Theorem Erase_at_max_level_dereferences_null
  (fuel : nat) (hd tl : nat) (La Lm Lb : list Cell) (s : State)
  (Hhead : head s = Some hd) (Htail : tail s = Some tl)
  (Hwf : wf (heap s) hd tl (La ++ Lm ++ Lb))
  (Hrange : Lm <> [])
  (Hlevel : current_level s = max_level)
  (Hnull : prv (heap s) (Z.to_nat max_level - 1) hd = Some NULL)
  (Hfuel : (List.length (La ++ Lm ++ Lb) < fuel)%nat) :
  Erase fuel (Some (first_addr Lm hd)) (Some (last_addr Lm hd)) s = Err NullDeref.
Proof.
  pose proof Hwf as (Hnd & Hhd & Htl & Hcells & Hlk & Hend).
  unfold Erase. unfold bind at 1.
  rewrite (unlink_loads fuel hd tl La Lm Lb s Hwf Hrange), Hlevel.
  change (Z.to_nat max_level) with (31 + 1)%nat at 1.
  unfold bind at 1. rewrite for_range_split.
  destruct (unlink_loop_spec fuel hd tl La Lm Lb 31 0 s)
    as (lr & s1 & E & Hc & Hunl & Hend1 & A & B & C & D & F & G & R); try assumption.
  { apply unlinking_start. exact Hwf. }
  { unfold max_level. lia. }
  change (Z.of_nat 0) with 0%Z in E.
  erewrite bind_Ok_intro by exact E. subst lr.
  cbn [for_range Nat.add]. unfold bind at 1.
  change (0 + Z.of_nat 31)%Z with (Z.of_nat 31).
  rewrite (unlink_top fuel hd tl La Lm Lb 31 s1); try assumption; try reflexivity.
  - eapply sentinel_ok_contents; eauto.
  - eapply sentinel_ok_contents; eauto.
  - eapply List.Forall_impl; [|exact Hcells]. intros c. apply cell_ok_contents. exact Hc.
  - unfold max_level. lia.
  - rewrite G. exact Hnull.
  - rewrite !length_app in Hfuel. destruct Lm; [congruence|]. cbn in Hfuel. lia.
Qed.

End SkiplistErase.

Module SkiplistCalls.
Import Skiplist SkiplistFacts SkiplistMore SkiplistShape SkiplistLinking SkiplistInsert
  SkiplistOrder.
Local Open Scope skip_scope.

(** X11. On a skiplist that is well-formed, with strictly increasing keys, and
    whose [current_level] is between 0 and [max_level], at least 1 when a cell
    is live (the shape [Insert] leaves; [Erase] can lower [current_level] to
    0 over live cells, and then the search returns the first cell whatever
    the key), under a transitive comparator, [FindGreaterOrEqual] returns
    without changing the
    memory or the members; the live cells split into those whose key is below
    the key searched and the rest, and the result is the first cell of the
    rest, whose key is not below the key searched, or [tail] when every key
    is below. *)
Theorem FindGreaterOrEqual_returns_lower_bound
  (cmp : string -> string -> Z) (fuel : nat) (k : string) (s : State) (L : list Cell)
  (cmp_trans : forall a b c, (cmp a b < 0)%Z -> (cmp b c < 0)%Z -> (cmp a c < 0)%Z)
  (Hrep : represents s L) (Hsort : sorted cmp L)
  (Hfuel : (List.length L < fuel)%nat) :
  exists L1 L2 s',
    L = L1 ++ L2
    /\ Forall (fun c => (cmp (c_key c) k < 0)%Z) L1
    /\ FindGreaterOrEqual cmp fuel k s
       = Ok (match L2 with [] => tail s | c :: _ => Some (c_addr c) end, s')
    /\ match L2 with [] => True | c :: _ => (0 <= cmp (c_key c) k)%Z end
    /\ same_mem s s'.
Proof.
  destruct Hrep as (hd & tl & Hhd & Htl & Hwf & Hcl & Hcl1).
  destruct (FindGreaterOrEqual_spec cmp cmp_trans k L fuel s hd tl)
    as (L1 & L2 & s1 & HL & HL1 & HL2 & E1 & M1); try assumption.
  exists L1, L2, s1. split; [exact HL|]. split; [exact HL1|].
  split; [|split; [exact HL2|exact M1]].
  rewrite E1, Htl. destruct L2; reflexivity.
Qed.

(** X12. [Insert] of a key that compares equal to no live key and not to the
    empty key of the sentinels, into a skiplist that is well-formed, with
    strictly increasing keys, and whose [current_level] is between 0 and
    [max_level], at least 1 when a cell is live (the shape [Insert]
    itself leaves; after an [Erase] that lowered [current_level] to 0 over
    live cells the new node goes to the front and the order breaks), under a
    transitive and antisymmetric comparator: it
    returns the address of the new node, the first free address; the memory
    is again a well-formed skiplist with strictly increasing keys, whose live
    cells are the old ones with the new cell put in at its place in the
    order; [current_level] is the larger of its old value and the new level,
    and [current_size] grows by the bytes of the key and the value. *)
Theorem Insert_keeps_sorted_skiplist
  (cmp : string -> string -> Z) (rand : nat -> Z)
  (fuel : nat) (k v : string) (s : State) (L : list Cell)
  (cmp_trans : forall a b c, (cmp a b < 0)%Z -> (cmp b c < 0)%Z -> (cmp a c < 0)%Z)
  (cmp_antisym : forall a b, (0 < cmp a b)%Z -> (cmp b a < 0)%Z)
  (Hrep : represents s L) (Hsort : sorted cmp L)
  (Hfresh : Forall (fun c => cmp (c_key c) k <> 0%Z) L)
  (Hkey : cmp EmptyString k <> 0%Z)
  (Hfuel : (List.length L < fuel)%nat)
  (Hfuel' : (Z.to_nat max_level <= fuel)%nat) :
  exists L1 L2 lvl s',
    L = L1 ++ L2
    /\ Insert cmp rand fuel k v s = Ok (Some (List.length (heap s)), s')
    /\ represents s' (L1 ++ mkCell (List.length (heap s)) k v lvl :: L2)
    /\ sorted cmp (L1 ++ mkCell (List.length (heap s)) k v lvl :: L2)
    /\ current_level s' = Z.max (current_level s) (Z.of_nat lvl)
    /\ current_size s'
       = wrap_size (current_size s
                    + wrap_size (Z.of_nat (String.length k) + Z.of_nat (String.length v))).
Proof.
  exact (Insert_spec cmp rand cmp_trans cmp_antisym fuel k v s L
           Hrep Hsort Hfresh Hkey Hfuel Hfuel').
Qed.

(** X13. The constructor of the empty skiplist, run on an object in any
    memory, returns; it allocates two nodes after the existing ones and
    leaves the existing ones alone; the result is a well-formed skiplist with
    no live cell, all [max_level] levels linking [head] to [tail] and back,
    with [current_level] and [current_size] 0. *)
Theorem constructor_builds_empty_skiplist (h : list Node) :
  exists s,
    PersistentSkiplist_empty (raw_object h) = Ok (tt, s)
    /\ represents s []
    /\ (exists a b, heap s = h ++ [a; b])
    /\ head s = Some (List.length h) /\ tail s = Some (S (List.length h))
    /\ current_level s = 0%Z /\ current_size s = 0%Z.
Proof.
  exists (empty_over h). split; [apply PersistentSkiplist_empty_eq|].
  split; [apply represents_empty|].
  split; [eexists; eexists; reflexivity|]. auto.
Qed.

End SkiplistCalls.

Module SkiplistRuns.
Import Skiplist SkiplistFacts SkiplistMore SkiplistFrame SkiplistShape SkiplistLinking
  SkiplistInsert SkiplistOrder SkiplistErase SkiplistCalls.
Local Open Scope skip_scope.

(** ** The checks are sound *)

Lemma linked_b_sound h i : forall c x t, linked_b h i x c t = true -> linked h i x c t.
Proof.
  induction c as [|y c IH]; intros x t H; cbn [linked_b linked] in *.
  - apply andb_true_iff in H as [A B].
    split; eapply bool_decide_eq_true_1; eassumption.
  - apply andb_true_iff in H as [H C]. apply andb_true_iff in H as [A B].
    split; [eapply bool_decide_eq_true_1; exact A|].
    split; [eapply bool_decide_eq_true_1; exact B|]. apply IH. exact C.
Qed.

Lemma cell_ok_b_sound h c : cell_ok_b h c = true -> cell_ok h c.
Proof.
  unfold cell_ok_b, cell_ok. destruct (h !! c_addr c) as [n|]; [|discriminate].
  intros H. repeat (apply andb_true_iff in H as [H ?]).
  exists n. split; [reflexivity|].
  split; [apply String.eqb_eq; assumption|].
  split; [apply String.eqb_eq; assumption|].
  split; [apply Z.eqb_eq; assumption|].
  split; [apply Nat.eqb_eq; assumption|].
  split; [apply Nat.eqb_eq; assumption|].
  split; apply Nat.leb_le; assumption.
Qed.

Lemma sentinel_ok_b_sound h a : sentinel_ok_b h a = true -> sentinel_ok h a.
Proof.
  unfold sentinel_ok_b, sentinel_ok. destruct (h !! a) as [n|]; [|discriminate].
  intros H. repeat (apply andb_true_iff in H as [H ?]).
  exists n. split; [reflexivity|].
  split; [apply String.eqb_eq; assumption|].
  split; [apply Z.eqb_eq; assumption|].
  split; apply Nat.eqb_eq; assumption.
Qed.

Lemma distinct_b_sound (l : list nat) : distinct_b l = true -> List.NoDup l.
Proof.
  induction l as [|a l IH]; intros H; [constructor|].
  cbn [distinct_b] in H. apply andb_true_iff in H as [A B].
  constructor; [|apply IH; exact B].
  intros Hin. apply negb_true_iff in A.
  assert (E : existsb (Nat.eqb a) l = true).
  { apply existsb_exists. exists a. split; [exact Hin|apply Nat.eqb_refl]. }
  congruence.
Qed.

Lemma wf_b_sound h hd tl L : wf_b h hd tl L = true -> wf h hd tl L.
Proof.
  unfold wf_b, wf. intros H.
  apply andb_true_iff in H as [H H6]. apply andb_true_iff in H as [H H5].
  apply andb_true_iff in H as [H H4]. apply andb_true_iff in H as [H H3].
  apply andb_true_iff in H as [H H2].
  split; [apply distinct_b_sound; assumption|].
  split; [apply sentinel_ok_b_sound; assumption|].
  split; [apply sentinel_ok_b_sound; assumption|].
  split.
  { rewrite List.Forall_forall. intros c Hc. apply cell_ok_b_sound.
    eapply forallb_forall; eauto. }
  split; [|eapply bool_decide_eq_true_1; eassumption].
  intros i Hi. apply linked_b_sound.
  match goal with
  | F : forallb _ (seq _ _) = true |- _ =>
      apply (proj1 (forallb_forall _ _) F i)
  end.
  apply in_seq. lia.
Qed.

Lemma represents_b_sound s L : represents_b s L = true -> represents s L.
Proof.
  unfold represents_b, represents.
  destruct (head s) as [hd|]; [|discriminate]. destruct (tail s) as [tl|]; [|discriminate].
  intros H.
  apply andb_true_iff in H as [H H3]. apply andb_true_iff in H as [H H2].
  apply andb_true_iff in H as [H H1].
  exists hd, tl. split; [reflexivity|]. split; [reflexivity|].
  split; [apply wf_b_sound; assumption|].
  split; [split; [apply Z.leb_le|apply Z.leb_le]; assumption|].
  intros Hne. destruct L as [|c L]; [congruence|]. apply Z.leb_le. assumption.
Qed.

(** ** The bytewise comparator is a strict order *)

Lemma ascii_compare_refl a : Ascii.compare a a = Eq.
Proof. unfold Ascii.compare. apply N.compare_refl. Qed.

Lemma string_compare_lt_trans : forall a b c,
  String.compare a b = Lt -> String.compare b c = Lt -> String.compare a c = Lt.
Proof.
  induction a as [|x a IH]; intros [|y b] [|z c]; cbn [String.compare];
    try discriminate; try reflexivity.
  destruct (Ascii.compare x y) eqn:Exy; try discriminate;
    destruct (Ascii.compare y z) eqn:Eyz; try discriminate; intros H1 H2.
  - apply Ascii.compare_eq_iff in Exy, Eyz. subst. rewrite ascii_compare_refl.
    eapply IH; eauto.
  - apply Ascii.compare_eq_iff in Exy. subst. rewrite Eyz. reflexivity.
  - apply Ascii.compare_eq_iff in Eyz. subst. rewrite Exy. reflexivity.
  - unfold Ascii.compare in *.
    apply N.compare_lt_iff in Exy. apply N.compare_lt_iff in Eyz.
    replace (N_of_ascii x ?= N_of_ascii z)%N with Lt; [reflexivity|].
    symmetry. apply N.compare_lt_iff. eapply N.lt_trans; eassumption.
Qed.

Lemma bytewise_lt a b : (bytewise a b < 0)%Z <-> String.compare a b = Lt.
Proof. unfold bytewise. destruct (String.compare a b); split; intros; try lia; congruence. Qed.

Lemma bytewise_trans a b c :
  (bytewise a b < 0)%Z -> (bytewise b c < 0)%Z -> (bytewise a c < 0)%Z.
Proof. rewrite !bytewise_lt. apply string_compare_lt_trans. Qed.

Lemma bytewise_antisym a b : (0 < bytewise a b)%Z -> (bytewise b a < 0)%Z.
Proof.
  unfold bytewise. rewrite (String.compare_antisym b a).
  destruct (String.compare a b); cbn; lia.
Qed.


(** ** Concrete runs *)

Ltac by_run := vm_compute; reflexivity.
Ltac by_count :=
  first [apply Nat.leb_le; reflexivity | apply Nat.ltb_lt; reflexivity].
Ltac in_order :=
  repeat first [apply SSorted_nil | apply SSorted_cons | apply List.Forall_nil
               | apply List.Forall_cons | apply FOP_nil | apply FOP_cons
               | reflexivity | discriminate].

Section Runs.
Local Open Scope string_scope.

Lemma three_keys_represents : represents three_keys three_cells.
Proof. apply represents_b_sound. by_run. Qed.

Lemma three_cells_sorted : sorted bytewise three_cells.
Proof. unfold sorted, three_cells. in_order. Qed.

Lemma RandomLevel_counts_low_draws_witness :
  exists lvl,
    RandomLevel rand_tall_first 32 three_keys
    = Ok (lvl, set_rand_calls (rand_calls three_keys + Z.to_nat lvl) three_keys)
    /\ (1 <= lvl <= max_level)%Z.
Proof.
  destruct (RandomLevel_counts_low_draws rand_tall_first 32 three_keys (le_n 32))
    as (lvl & A & B & _).
  exists lvl. split; [exact A|exact B].
Defined.

Lemma Find_reads_and_matches_witness :
  exists r s',
    Find bytewise 8 "b" three_keys = Ok (r, s')
    /\ same_mem three_keys s'.
Proof.
  eexists. eexists. split; [by_run|].
  refine (proj1 (Find_reads_and_matches bytewise 8 "b" three_keys _ _ _)).
  by_run.
Defined.

Lemma Insert_allocates_one_node_witness :
  exists p s',
    Insert bytewise rand_flat 40 "bb" "4" three_keys = Ok (p, s')
    /\ p = Some 5%nat.
Proof.
  eexists. eexists. split; [by_run|].
  refine (proj1 (Insert_allocates_one_node bytewise rand_flat 40 "bb" "4" three_keys _ _ _)).
  by_run.
Defined.

Lemma Erase_rewrites_links_only_witness :
  exists s',
    Erase 40 (Some 3%nat) (Some 3%nat) three_keys = Ok (tt, s')
    /\ keeps_nodes three_keys s'.
Proof.
  eexists. split; [by_run|].
  refine (proj1 (Erase_rewrites_links_only 40 (Some 3%nat) (Some 3%nat) three_keys _ _)).
  by_run.
Defined.

Lemma inserts_walk_in_key_order_witness :
  exists s l,
    from_empty bytewise rand_tall_first 40 (inserts [("b", "2"); ("a", "1"); ("c", "3")])
    = Ok (tt, s)
    /\ live_nodes 40 s = Some l
    /\ StronglySorted (fun a b => (bytewise a b < 0)%Z) (map (node_key s) l).
Proof.
  destruct (inserts_walk_in_key_order bytewise rand_tall_first
              bytewise_trans bytewise_antisym 40 [("b", "2"); ("a", "1"); ("c", "3")])
    as (s & l & A & B & _ & C).
  - in_order.
  - in_order.
  - by_count.
  - by_count.
  - exists s, l. auto.
Defined.

Lemma Find_on_sorted_witness :
  exists r s',
    Find bytewise 8 "b" three_keys = Ok (r, s')
    /\ same_mem three_keys s'
    /\ r = Some 2%nat.
Proof.
  destruct (Find_on_sorted bytewise 8 "b" three_keys three_cells
              bytewise_trans eq_refl three_keys_represents three_cells_sorted)
    as (r & s' & A & B & C & _).
  - by_count.
  - exists r, s'. split; [exact A|]. split; [exact B|].
    apply (C (mkCell 2 "b" "2" 2)); [right; left; reflexivity|reflexivity].
Defined.

Lemma inserts_build_sorted_skiplist_witness :
  exists s L,
    from_empty bytewise rand_tall_first 40 (inserts [("b", "2"); ("a", "1"); ("c", "3")])
    = Ok (tt, s)
    /\ represents s L /\ sorted bytewise L.
Proof.
  destruct (inserts_build_sorted_skiplist bytewise rand_tall_first
              bytewise_trans bytewise_antisym 40 [("b", "2"); ("a", "1"); ("c", "3")])
    as (s & L & A & B & C & _).
  - in_order.
  - in_order.
  - by_count.
  - by_count.
  - exists s, L. auto.
Defined.

Lemma Destroy_deletes_reachable_nodes_witness :
  current_level two_left = 0%Z
  /\ Destroy 8 two_left = Ok ([0; 3; 4; 1]%nat, set_current_size 0 two_left).
Proof.
  split; [by_run|].
  apply (Destroy_deletes_reachable_nodes two_left 0 1 two_cells 8).
  - by_run.
  - by_run.
  - apply wf_b_sound. by_run.
  - by_count.
Defined.

Lemma FindGreaterOrEqual_returns_lower_bound_witness :
  exists L1 L2 s',
    three_cells = (L1 ++ L2)%list
    /\ FindGreaterOrEqual bytewise 8 "bb" three_keys
       = Ok (match L2 with [] => tail three_keys | c :: _ => Some (c_addr c) end, s').
Proof.
  destruct (FindGreaterOrEqual_returns_lower_bound bytewise 8 "bb" three_keys
              three_cells bytewise_trans three_keys_represents three_cells_sorted)
    as (L1 & L2 & s' & A & _ & B & _).
  - by_count.
  - exists L1, L2, s'. auto.
Defined.

Lemma Insert_keeps_sorted_skiplist_witness :
  exists L s',
    Insert bytewise rand_flat 40 "bb" "4" three_keys = Ok (Some 5%nat, s')
    /\ represents s' L /\ sorted bytewise L.
Proof.
  destruct (Insert_keeps_sorted_skiplist bytewise rand_flat 40 "bb" "4"
              three_keys three_cells bytewise_trans bytewise_antisym
              three_keys_represents three_cells_sorted)
    as (L1 & L2 & lvl & s' & _ & A & B & C & _).
  - unfold three_cells. in_order.
  - discriminate.
  - by_count.
  - by_count.
  - eexists. exists s'. split; [exact A|]. split; [exact B|exact C].
Defined.

Lemma Erase_unlinks_range_witness :
  exists s',
    Erase 40 (Some 2%nat) (Some 2%nat) three_keys = Ok (tt, s')
    /\ wf (heap s') 0 1 [mkCell 3 "a" "1" 1; mkCell 4 "c" "3" 1]
    /\ current_level s' = 0%Z.
Proof.
  destruct (Erase_unlinks_range 40 0 1
              [mkCell 3 "a" "1" 1] [mkCell 2 "b" "2" 2] [mkCell 4 "c" "3" 1] three_keys)
    as (s' & A & _ & _ & B & _ & C & _).
  - by_run.
  - by_run.
  - apply wf_b_sound. by_run.
  - discriminate.
  - discriminate.
  - vm_compute. split; [discriminate|reflexivity].
  - by_count.
  - by_count.
  - exists s'. split; [exact A|]. split; [exact B|exact C].
Defined.

Lemma Erase_of_all_cells_overruns_witness :
  Erase 40 (Some 3%nat) (Some 4%nat) three_keys = Err OutOfBounds.
Proof.
  apply (Erase_of_all_cells_overruns 40 0 1 three_cells three_keys).
  - by_run.
  - by_run.
  - apply wf_b_sound. by_run.
  - discriminate.
  - vm_compute. split; [discriminate|reflexivity].
  - by_count.
  - by_count.
Defined.

Lemma Erase_at_max_level_dereferences_null_witness :
  Erase 40 (Some 2%nat) (Some 2%nat) tallest_key = Err NullDeref.
Proof.
  apply (Erase_at_max_level_dereferences_null 40 0 1 [] tallest_cells [] tallest_key).
  - by_run.
  - by_run.
  - apply wf_b_sound. by_run.
  - discriminate.
  - by_run.
  - by_run.
  - by_count.
Defined.

End Runs.

End SkiplistRuns.

Module IndexMore.
Import Index IndexFacts.

Lemma count_app (f : Event -> bool) (l1 l2 : list Event) :
  List.length (List.filter f (l1 ++ l2))
  = (List.length (List.filter f l1) + List.length (List.filter f l2))%nat.
Proof. rewrite List.filter_app, length_app. reflexivity. Qed.

Section WithTree.
Variable Tree : Type.
Variable tree_search : Tree -> Z -> MetaPtr.
Variable tree_insert : Tree -> Z -> MetaPtr -> Tree.
Variable tree_update : Tree -> Z -> Z -> MetaPtr -> Tree.
Variable sizeof_IndexMeta : Z.

Local Abbreviation Insert := (Index.Insert Tree tree_insert sizeof_IndexMeta).
Local Abbreviation Update := (Index.Update Tree tree_update).
Local Abbreviation drain := (Index.drain Tree tree_insert tree_update sizeof_IndexMeta).
Local Abbreviation Runner_turn :=
  (Index.Runner_turn Tree tree_insert tree_update sizeof_IndexMeta).
Local Abbreviation apply_entry := (Index.apply_entry Tree tree_insert tree_update).
Local Abbreviation entry_events := (Index.entry_events sizeof_IndexMeta).
Local Abbreviation entry_flushes := (Index.entry_flushes sizeof_IndexMeta).
Local Abbreviation AddQueue := (Index.AddQueue Tree).
Local Abbreviation AsyncInsert := (Index.AsyncInsert Tree).
Local Abbreviation AsyncInserts := (Index.AsyncInserts Tree).
Local Abbreviation Completed := (Index.Completed Tree).
Local Abbreviation run_call :=
  (Index.run_call Tree tree_insert tree_update sizeof_IndexMeta).
Local Abbreviation run_calls :=
  (Index.run_calls Tree tree_insert tree_update sizeof_IndexMeta).

(** ** Producers *)

Lemma AsyncInsert_fields (e : KeyAndMeta) (s : State Tree) :
  queue_ (AsyncInsert e s) = queue_ s ++ [e]
  /\ tree_ (AsyncInsert e s) = tree_ s
  /\ bgstarted_ (AsyncInsert e s) = true
  /\ log (AsyncInsert e s)
     = log s ++ [EvLock] ++ (if bgstarted_ s then [] else [EvCreateThread])
             ++ (match queue_ s with [] => [EvSignal] | _ :: _ => [] end) ++ [EvUnlock].
Proof.
  unfold Index.AsyncInsert, start_background. cbn [bgstarted_ emit].
  destruct (bgstarted_ s) eqn:Hb; destruct (queue_ s) eqn:Hq;
    cbn [queue_ tree_ bgstarted_ log emit set_bgstarted set_queue app];
    rewrite ?Hq, ?Hb; cbn [queue_ tree_ bgstarted_ log emit set_bgstarted set_queue app];
    rewrite ?Hq, ?Hb, <- ?app_assoc; cbn [app]; auto.
Qed.


Lemma AddQueue_fields (batch : list KeyAndMeta) (s s' : State Tree) (c : list KeyAndMeta) :
  AddQueue batch s = Ok (s', c) ->
  queue_ s = [] /\ c = [] /\ queue_ s' = batch /\ tree_ s' = tree_ s
  /\ bgstarted_ s' = true
  /\ log s' = log s ++ [EvLock] ++ (if bgstarted_ s then [] else [EvCreateThread])
                    ++ [EvSignal; EvUnlock].
Proof.
  unfold Index.AddQueue, start_background. cbn [queue_ bgstarted_ emit set_queue].
  destruct (queue_ s) eqn:Hq; [|discriminate].
  destruct (bgstarted_ s) eqn:Hb; intros H; inversion H; subst;
    cbn [queue_ tree_ bgstarted_ log emit set_bgstarted set_queue app];
    rewrite <- ?app_assoc; cbn [app]; auto 10.
Qed.

Lemma AsyncInserts_fields : forall (es : list KeyAndMeta) (s : State Tree),
  queue_ (AsyncInserts es s) = queue_ s ++ es
  /\ tree_ (AsyncInserts es s) = tree_ s
  /\ signals (log (AsyncInserts es s))
     = (signals (log s) + match queue_ s, es with [], _ :: _ => 1 | _, _ => 0 end)%nat
  /\ (es <> [] -> bgstarted_ (AsyncInserts es s) = true).
Proof.
  induction es as [|e es IH]; intros s.
  - cbn. rewrite app_nil_r. split; [reflexivity|]. split; [reflexivity|].
    split; [destruct (queue_ s); lia|congruence].
  - unfold Index.AsyncInserts. cbn [fold_left]. fold (AsyncInserts es (AsyncInsert e s)).
    destruct (IH (AsyncInsert e s)) as (A & B & C & D).
    destruct (AsyncInsert_fields e s) as (Q & T & G & L).
    split; [rewrite A, Q, <- app_assoc; reflexivity|].
    split; [rewrite B, T; reflexivity|]. split.
    + rewrite C, Q, L. unfold signals. rewrite !count_app.
      destruct (bgstarted_ s); destruct (queue_ s); destruct es; cbn; lia.
    + intros _. destruct es as [|e' es]; [exact G|]. apply D. discriminate.
Qed.

(** ** The background thread *)

Lemma entry_events_counts (e : KeyAndMeta) :
  threads_created (entry_events e) = 0%nat /\ signals (entry_events e) = 0%nat.
Proof. unfold Index.entry_events. destruct (prev_file_number e =? 0)%Z; split; reflexivity. Qed.

Lemma drain_keeps : forall (fuel : nat) (s s' : State Tree),
  drain fuel s = Ok s' ->
  bgstarted_ s' = bgstarted_ s
  /\ threads_created (log s') = threads_created (log s).
Proof.
  induction fuel as [|fuel IH]; intros s s' H.
  - cbn in H. destruct (queue_ s); [|discriminate]. inversion H; subst. auto.
  - cbn [Index.drain] in H. destruct (queue_ s) as [|e q]; [inversion H; subst; auto|].
    apply IH in H as [A B]. rewrite A, B.
    destruct (prev_file_number e =? 0)%Z; cbn; unfold threads_created;
      rewrite ?count_app; cbn; split; try reflexivity; lia.
Qed.

Lemma run_call_keeps (fuel : nat) (c : Call) (s s' : State Tree) :
  threads_created (log s) = (if bgstarted_ s then 1 else 0)%nat ->
  run_call fuel c s = Ok s' ->
  bgstarted_ s' = bgstarted_ s || is_producer c
  /\ threads_created (log s') = (if bgstarted_ s' then 1 else 0)%nat.
Proof.
  intros Hinv H. destruct c as [e|batch|]; cbn [Index.run_call is_producer] in H |- *.
  - inversion H; subst s'. clear H.
    destruct (AsyncInsert_fields e s) as (_ & _ & G & L).
    rewrite G, L, orb_true_r. split; [reflexivity|].
    unfold threads_created in *. rewrite !count_app, Hinv.
    destruct (bgstarted_ s); destruct (queue_ s); reflexivity.
  - destruct (AddQueue batch s) as [[s1 c]|f] eqn:E; [|discriminate].
    inversion H; subst s1. clear H.
    apply AddQueue_fields in E as (_ & _ & _ & _ & G & L).
    rewrite G, L, orb_true_r. split; [reflexivity|].
    unfold threads_created in *. rewrite !count_app, Hinv.
    destruct (bgstarted_ s); reflexivity.
  - rewrite orb_false_r. unfold Index.Runner_turn in H. cbn [queue_ emit] in H.
    destruct (queue_ s) as [|e q] eqn:Hq.
    + inversion H; subst s'. cbn [bgstarted_ log emit]. split; [reflexivity|].
      unfold threads_created in *. rewrite <- app_assoc, count_app, Hinv. cbn. lia.
    + destruct (drain fuel (emit Tree EvLock s)) as [s2|f] eqn:E; [|discriminate].
      destruct (queue_ s2); [|discriminate]. inversion H; subst s'. clear H.
      apply drain_keeps in E as [A B]. cbn [bgstarted_ log emit] in *.
      rewrite A. split; [reflexivity|].
      unfold threads_created in *. rewrite count_app, B, count_app, Hinv. cbn. lia.
Qed.

Lemma run_calls_keeps (fuel : nat) : forall (cs : list Call) (s s' : State Tree),
  threads_created (log s) = (if bgstarted_ s then 1 else 0)%nat ->
  run_calls fuel cs s = Ok s' ->
  bgstarted_ s' = bgstarted_ s || existsb is_producer cs
  /\ threads_created (log s') = (if bgstarted_ s' then 1 else 0)%nat.
Proof.
  induction cs as [|c cs IH]; intros s s' Hinv H.
  - inversion H; subst. cbn. rewrite orb_false_r. auto.
  - cbn [Index.run_calls] in H.
    destruct (run_call fuel c s) as [s1|f] eqn:E; [|discriminate].
    apply (run_call_keeps fuel c s s1 Hinv) in E as [A B].
    destruct (IH s1 s' B H) as [A' B'].
    split; [|exact B']. rewrite A', A. cbn [existsb]. rewrite orb_assoc. reflexivity.
Qed.

(** X14. Over any sequence of producer calls ([AsyncInsert], [AddQueue]) and
    turns of the background thread on a new index that runs without tripping
    an assertion, the background thread is created exactly once if there was a
    producer call and not at all otherwise, and [bgstarted_] says which. *)
Theorem background_thread_created_once
  (fuel : nat) (cs : list Call) (t : Tree) (s' : State Tree)
  (Hrun : run_calls fuel cs (Index_new Tree t) = Ok s') :
  bgstarted_ s' = existsb is_producer cs
  /\ threads_created (log s') = (if existsb is_producer cs then 1 else 0)%nat.
Proof.
  destruct (run_calls_keeps fuel cs (Index_new Tree t) s' eq_refl Hrun) as [A B].
  cbn [bgstarted_ Index_new orb] in A. rewrite <- A. split; [reflexivity|exact B].
Qed.

(** ** Several [AsyncInsert] and one turn *)

(** X15. After [AsyncInsert] of the entries [es], one after the other, the
    queue holds what it held before followed by [es]; only the call that
    found the queue empty signalled the condition variable; and the next turn
    of [Runner] applies all these entries to the tree in that order and
    leaves the queue empty. *)
Theorem AsyncInserts_then_Runner_turn
  (es : list KeyAndMeta) (s : State Tree) (fuel : nat)
  (Hsome : queue_ s ++ es <> [])
  (Hfuel : (List.length (queue_ s ++ es) <= fuel)%nat) :
  queue_ (AsyncInserts es s) = queue_ s ++ es
  /\ signals (log (AsyncInserts es s))
     = (signals (log s) + match queue_ s, es with [], _ :: _ => 1 | _, _ => 0 end)%nat
  /\ exists s',
       Runner_turn fuel (AsyncInserts es s) = Completed s'
       /\ queue_ s' = []
       /\ tree_ s' = fold_left apply_entry (queue_ s ++ es) (tree_ s).
Proof.
  destruct (AsyncInserts_fields es s) as (Q & T & G & _).
  split; [exact Q|]. split; [exact G|].
  destruct (drain_spec Tree tree_insert tree_update sizeof_IndexMeta (queue_ s ++ es) fuel
              (emit Tree EvLock (AsyncInserts es s)) Q Hfuel)
    as (s1 & H1 & H2 & _ & H4 & _).
  exists (emit Tree EvUnlock s1). split; [|split; [exact H2|]].
  - unfold Index.Runner_turn. cbn [queue_ emit]. rewrite Q.
    destruct (queue_ s ++ es) eqn:E; [congruence|].
    rewrite H1, H2. reflexivity.
  - cbn [tree_ emit] in *. rewrite H4, T. reflexivity.
Qed.

(** ** Flushes in the background thread *)

Lemma flushed_app sz (l1 l2 : list Event) :
  flushed_before_insert sz l1 -> flushed_before_insert sz l2 ->
  flushed_before_insert sz (l1 ++ l2).
Proof.
  intros F1 F2 pre k m post H.
  apply List.app_eq_app in H as (l & [[A B]|[A B]]).
  - destruct l as [|x l].
    + cbn in B. rewrite app_nil_r in A. subst l1.
      destruct (F2 [] k m post (eq_sym B)) as (pre' & E).
      destruct pre'; discriminate.
    + cbn in B. inversion B; subst x post. exact (F1 _ _ _ _ A).
  - destruct (F2 _ _ _ _ B) as (pre' & E). subst l pre.
    exists (l1 ++ pre'). rewrite <- app_assoc. reflexivity.
Qed.

Lemma flushed_one sz (e : Event) :
  (forall k m, e <> EvTreeInsert k m) -> flushed_before_insert sz [e].
Proof.
  intros Hne pre k m post H. destruct pre as [|x pre].
  - inversion H. exfalso. eapply Hne; eauto.
  - inversion H. destruct pre; discriminate.
Qed.

Lemma flushed_entry (e : KeyAndMeta) :
  flushed_before_insert sizeof_IndexMeta (entry_events e).
Proof.
  unfold Index.entry_events. destruct (prev_file_number e =? 0)%Z.
  - intros pre k m post H.
    destruct pre as [|e1 pre]; [discriminate|].
    destruct pre as [|e2 pre]; [discriminate|].
    destruct pre as [|e3 pre].
    + cbn in H. inversion H; subst. exists []. reflexivity.
    + cbn in H. inversion H. destruct pre; discriminate.
  - apply flushed_one. intros; discriminate.
Qed.

Lemma flushed_entries (q : list KeyAndMeta) :
  flushed_before_insert sizeof_IndexMeta (concat (map entry_events q)).
Proof.
  induction q as [|e q IH]; cbn [map concat].
  - intros pre k m post H. destruct pre; discriminate.
  - apply flushed_app; [apply flushed_entry|exact IH].
Qed.

Lemma entry_flushes_filter (e : KeyAndMeta) :
  List.filter is_flush (entry_events e) = entry_flushes e.
Proof.
  unfold Index.entry_events, Index.entry_flushes.
  destruct (prev_file_number e =? 0)%Z; reflexivity.
Qed.

Lemma entries_flushes_filter (q : list KeyAndMeta) :
  List.filter is_flush (concat (map entry_events q)) = concat (map entry_flushes q).
Proof.
  induction q as [|e q IH]; [reflexivity|]. cbn [map concat].
  rewrite List.filter_app, IH, entry_flushes_filter. reflexivity.
Qed.

(** X16. In the events of one turn of [Runner] with entries pending, every
    [tree.insert(key, meta)] comes right after the flush of the
    [sizeof(IndexMeta)] bytes at [meta] and the flush of the 4 bytes of [key];
    and these are the only flushes of the turn, two for each entry whose
    [prev_file_number] is 0 and none for the others: an entry that goes
    through [Update] reaches the tree with no flush of its metadata block. *)
Theorem Runner_turn_flushes_before_every_insert
  (s : State Tree) (fuel : nat)
  (Hq : queue_ s <> [])
  (Hfuel : (List.length (queue_ s) <= fuel)%nat) :
  exists s' evs,
    Runner_turn fuel s = Completed s'
    /\ log s' = log s ++ evs
    /\ flushed_before_insert sizeof_IndexMeta evs
    /\ List.filter is_flush evs = concat (map entry_flushes (queue_ s)).
Proof.
  destruct (drain_spec Tree tree_insert tree_update sizeof_IndexMeta (queue_ s) fuel
              (emit Tree EvLock s) eq_refl Hfuel)
    as (s1 & H1 & H2 & H3 & _).
  exists (emit Tree EvUnlock s1),
         ([EvLock] ++ concat (map entry_events (queue_ s)) ++ [EvUnlock]).
  split; [|split; [|split]].
  - unfold Index.Runner_turn. cbn [queue_ emit].
    destruct (queue_ s) eqn:E; [congruence|].
    rewrite H1, H2. reflexivity.
  - cbn [log emit] in *. rewrite H3, <- !app_assoc. reflexivity.
  - apply flushed_app; [apply flushed_one; intros; discriminate|].
    apply flushed_app; [apply flushed_entries|apply flushed_one; intros; discriminate].
  - rewrite !List.filter_app, entries_flushes_filter. cbn [List.filter is_flush app].
    rewrite app_nil_r. reflexivity.
Qed.

(** ** Bulk handoff and the consumer *)

(** X17. After [AddQueue] has handed a non-empty batch over, a second
    [AddQueue] trips the assertion on the queue until the background thread
    has taken its turn; after that turn the batch is in the tree, in order,
    and the second [AddQueue] goes through. *)
Theorem AddQueue_waits_for_Runner_turn
  (batch batch' : list KeyAndMeta) (s : State Tree) (fuel : nat)
  (Hempty : queue_ s = [])
  (Hbatch : batch <> [])
  (Hfuel : (List.length batch <= fuel)%nat) :
  exists s1 s2 s3,
    AddQueue batch s = Ok (s1, [])
    /\ AddQueue batch' s1 = Err AssertFail
    /\ Runner_turn fuel s1 = Completed s2
    /\ tree_ s2 = fold_left apply_entry batch (tree_ s)
    /\ AddQueue batch' s2 = Ok (s3, [])
    /\ queue_ s3 = batch'.
Proof.
  destruct (AddQueue batch s) as [[s1 c]|f] eqn:E1.
  2:{ unfold Index.AddQueue in E1. cbn [queue_ emit] in E1. rewrite Hempty in E1.
      discriminate. }
  pose proof (AddQueue_fields _ _ _ _ E1) as (_ & -> & Q1 & T1 & _).
  destruct (drain_spec Tree tree_insert tree_update sizeof_IndexMeta batch fuel
              (emit Tree EvLock s1) Q1 Hfuel)
    as (s2 & H1 & H2 & _ & H4 & _).
  assert (E3 : exists s3, AddQueue batch' (emit Tree EvUnlock s2) = Ok (s3, [])
                          /\ queue_ s3 = batch').
  { unfold Index.AddQueue, start_background. cbn [queue_ bgstarted_ emit set_queue].
    rewrite H2. eexists. split; [reflexivity|].
    destruct (bgstarted_ s2); reflexivity. }
  destruct E3 as (s3 & E3 & Q3).
  exists s1, (emit Tree EvUnlock s2), s3.
  split; [reflexivity|]. split.
  { apply AddQueue_asserts_empty_queue. rewrite Q1. exact Hbatch. }
  split.
  { unfold Index.Runner_turn. cbn [queue_ emit]. rewrite Q1.
    destruct batch; [congruence|]. rewrite H1, H2. reflexivity. }
  split; [cbn [tree_ emit] in *; rewrite H4, T1; reflexivity|].
  split; [exact E3|exact Q3].
Qed.

End WithTree.

(** ** Concrete runs on the journal tree *)

Lemma background_thread_created_once_witness :
  exists s',
    run_calls (list Event) journal_insert journal_update 24 4
      [CallRunner; CallAsyncInsert (mkKeyAndMeta 42 0 1000); CallRunner;
       CallAddQueue [mkKeyAndMeta 42 7 2000]; CallRunner]
      (Index_new (list Event) []) = Ok s'
    /\ threads_created (log s') = 1%nat.
Proof.
  eexists. split; [vm_compute; reflexivity|].
  refine (proj2 (background_thread_created_once (list Event) journal_insert journal_update
                   24 4
                   [CallRunner; CallAsyncInsert (mkKeyAndMeta 42 0 1000); CallRunner;
                    CallAddQueue [mkKeyAndMeta 42 7 2000]; CallRunner] [] _ _)).
  vm_compute. reflexivity.
Defined.

Lemma AsyncInserts_then_Runner_turn_witness :
  exists s',
    Runner_turn (list Event) journal_insert journal_update 24 2
      (AsyncInserts (list Event) [mkKeyAndMeta 42 0 1000; mkKeyAndMeta 42 7 2000]
         (Index_new (list Event) []))
    = Completed (list Event) s'
    /\ tree_ s' = [EvTreeInsert 42 1000; EvTreeUpdate 42 7 2000].
Proof.
  destruct (AsyncInserts_then_Runner_turn (list Event) journal_insert journal_update 24
              [mkKeyAndMeta 42 0 1000; mkKeyAndMeta 42 7 2000]
              (Index_new (list Event) []) 2)
    as (_ & _ & s' & A & _ & B).
  - discriminate.
  - apply le_n.
  - exists s'. split; [exact A|exact B].
Defined.

Lemma Runner_turn_flushes_before_every_insert_witness :
  exists s' evs,
    Runner_turn (list Event) journal_insert journal_update 24 2
      (set_queue (list Event) [mkKeyAndMeta 42 0 1000; mkKeyAndMeta 43 7 2000]
         (Index_new (list Event) []))
    = Completed (list Event) s'
    /\ log s' = evs
    /\ flushed_before_insert 24 evs
    /\ List.filter is_flush evs = [EvFlush (MetaBlock 1000) 24; EvFlush (KeyWord 42) 4].
Proof.
  destruct (Runner_turn_flushes_before_every_insert (list Event) journal_insert
              journal_update 24
              (set_queue (list Event) [mkKeyAndMeta 42 0 1000; mkKeyAndMeta 43 7 2000]
                 (Index_new (list Event) [])) 2)
    as (s' & evs & A & B & C & D).
  - discriminate.
  - apply le_n.
  - exists s', evs. split; [exact A|]. split; [exact B|]. split; [exact C|exact D].
Defined.

Lemma AddQueue_waits_for_Runner_turn_witness :
  exists s1 s2,
    AddQueue (list Event) [mkKeyAndMeta 1 0 10; mkKeyAndMeta 2 0 20]
      (Index_new (list Event) []) = Ok (s1, [])
    /\ AddQueue (list Event) [mkKeyAndMeta 3 0 30] s1 = Err AssertFail
    /\ Runner_turn (list Event) journal_insert journal_update 24 2 s1
       = Completed (list Event) s2
    /\ tree_ s2 = [EvTreeInsert 1 10; EvTreeInsert 2 20].
Proof.
  destruct (AddQueue_waits_for_Runner_turn (list Event) journal_insert journal_update 24
              [mkKeyAndMeta 1 0 10; mkKeyAndMeta 2 0 20] [mkKeyAndMeta 3 0 30]
              (Index_new (list Event) []) 2)
    as (s1 & s2 & _ & A & B & C & D & _).
  - reflexivity.
  - discriminate.
  - apply le_n.
  - exists s1, s2. auto.
Defined.

End IndexMore.
